(** * parseidf: the IDF lexer, grammar and aggregator of [parseidf.py]

    The module is a PLY program: five lexer rules ([t_COMMENT], [t_newline],
    [t_VALUE], [t_COMMA], [t_SEMICOLON]), eight grammar rules ([p_idffile]
    ... [p_valuelist_multiple]) and [parse], which runs PLY's LALR(1) engine
    over them.  The embedding keeps that shape:

    - Python text is a list of Unicode code points;
    - the rule regexes are terms of a small regex syntax, run by a
      backtracking matcher with Python's [re] priorities (greedy
      repetition, first alternative first);
    - [token] is PLY's [Lexer.token()]: rules tried in PLY's order, the
      rule functions called on the candidate token;
    - [step]/[run] are PLY's shift/reduce loop on the LALR(1) table of the
      grammar, pulling tokens from the lexer on demand and calling the
      [p_*] functions on reduction;
    - [parse_file] reads a path of a file system given as a function, in
      Python's text mode (universal newlines), and [main] is the
      [__main__] block: what it prints, call by call and stream by
      stream, and its exit status. *)

From Stdlib Require Import String Ascii List NArith ZArith Bool Lia.
From Stdlib Require Import DecimalString Permutation Sorted.
Import ListNotations.

Set Implicit Arguments.

(** ** Python strings *)

Definition char := N.
Definition str := list char.

Definition TAB : char := 9%N.
Definition LF : char := 10%N.
Definition CR : char := 13%N.
Definition SPACE : char := 32%N.
Definition BANG : char := 33%N.
Definition ASTERISK : char := 42%N.
Definition COMMA_CHAR : char := 44%N.
Definition SEMICOLON_CHAR : char := 59%N.

(** A literal of ASCII text as code points. *)
Definition txt (s : string) : str := map N_of_ascii (list_ascii_of_string s).

Fixpoint str_eqb (a b : str) : bool :=
  match a, b with
  | [], [] => true
  | x :: a', y :: b' => N.eqb x y && str_eqb a' b'
  | _, _ => false
  end.

(** [str.isspace] on one code point: the characters [str.strip()] removes. *)
Definition isspace (c : char) : bool :=
  ((9 <=? c) && (c <=? 13) || (28 <=? c) && (c <=? 32)
   || (c =? 133) || (c =? 160) || (c =? 5760)
   || (8192 <=? c) && (c <=? 8202)
   || (c =? 8232) || (c =? 8233) || (c =? 8239) || (c =? 8287)
   || (c =? 12288))%N.

(** The text from its first character that fails [p] on. *)
Fixpoint skip (p : char -> bool) (s : str) : str :=
  match s with
  | [] => []
  | c :: t => if p c then skip p t else s
  end.

Definition lstrip (s : str) : str := skip isspace s.

Definition rstrip (s : str) : str := rev (lstrip (rev s)).

(** [s.strip()] *)
Definition strip (s : str) : str := rstrip (lstrip s).

(** [str.upper] restricted to ASCII text, where it maps a-z to A-Z and
    leaves every other character alone.  Used to instantiate the case
    mapping in the concrete examples. *)
Definition upper_ascii (s : str) : str :=
  map (fun c => if ((97 <=? c) && (c <=? 122))%N then (c - 32)%N else c) s.

(** ** Regular expressions, matched as Python's [re] does *)

Inductive regex : Type :=
| Lit (c : char)                (* a literal character *)
| Set_ (cs : list char)         (* [...] *)
| NotSet (cs : list char)       (* [^...] *)
| Dot                           (* . : anything but a line feed *)
| Seq (r1 r2 : regex)
| Alt (r1 r2 : regex)           (* r1|r2, r1 tried first *)
| Star (r : regex)              (* r*, greedy *)
| Plus (r : regex)              (* r+, greedy *)
| Opt (r : regex).              (* r?, greedy *)

Definition mem (c : char) (cs : list char) : bool := existsb (N.eqb c) cs.

Section Matcher.
Variable A : Type.

Definition orelse (a b : option A) : option A :=
  match a with Some x => Some x | None => b end.

(** One character satisfying [p], then the continuation. *)
Definition one (p : char -> bool) (s : str) (k : str -> option A) : option A :=
  match s with
  | c :: t => if p c then k t else None
  | [] => None
  end.

(** Greedy repetition of [body]: one more iteration first, the
    continuation on the current position when that fails.  An iteration
    must consume input; [n] bounds the number of iterations and is the
    length of the text where the repetition starts. *)
Fixpoint greedy (body : str -> (str -> option A) -> option A)
         (n : nat) (s : str) (k : str -> option A) : option A :=
  match n with
  | O => k s
  | S n' =>
      orelse
        (body s (fun s' =>
                   if (length s' <? length s)%nat then greedy body n' s' k
                   else None))
        (k s)
  end.

(** [rmatch r s k]: match [r] at the start of [s] and pass what is left
    to [k]; when [k] refuses, backtrack into [r]. *)
Fixpoint rmatch (r : regex) (s : str) (k : str -> option A) : option A :=
  match r with
  | Lit c => one (N.eqb c) s k
  | Set_ cs => one (fun x => mem x cs) s k
  | NotSet cs => one (fun x => negb (mem x cs)) s k
  | Dot => one (fun x => negb (x =? LF)%N) s k
  | Seq r1 r2 => rmatch r1 s (fun s' => rmatch r2 s' k)
  | Alt r1 r2 => orelse (rmatch r1 s k) (rmatch r2 s k)
  | Star r1 => greedy (rmatch r1) (length s) s k
  | Plus r1 =>
      rmatch r1 s (fun s' => greedy (rmatch r1) (length s') s' k)
  | Opt r1 => orelse (rmatch r1 s k) (k s)
  end.
End Matcher.

(** [re.match(r, s)]: what is left of [s] after the match, if any. *)
Definition re_match (r : regex) (s : str) : option str :=
  rmatch r s (fun rest => Some rest).

(** ** The lexer rules *)

(** Rule and token names.  [COMMENT] and [newline] only ever name the
    candidate token handed to their rule function; [error] names the one
    handed to [t_error]. *)
Inductive tokname : Type :=
| COMMENT | newline | VALUE | COMMA | SEMICOLON | error.

Record LexToken : Type :=
  { type : tokname; value : str; lineno : Z }.

(** The lexer: the text from [lexpos] on, and the line counter. *)
Record Lexer : Type :=
  { lexdata : str; lexer_lineno : Z }.

Definition blank : list char := [SPACE; TAB].

Definition is_blank (c : char) : bool := mem c blank.

(** [t_COMMA = r"[ \t]*,[ \t]*"] *)
Definition re_COMMA : regex :=
  Seq (Star (Set_ blank)) (Seq (Lit COMMA_CHAR) (Star (Set_ blank))).

(** [t_SEMICOLON = r"[ \t]*;[ \t]*"] *)
Definition re_SEMICOLON : regex :=
  Seq (Star (Set_ blank)) (Seq (Lit SEMICOLON_CHAR) (Star (Set_ blank))).

(** [r"[ \t\r\n]*!.*"] *)
Definition re_COMMENT : regex :=
  Seq (Star (Set_ [SPACE; TAB; CR; LF])) (Seq (Lit BANG) (Star Dot)).

(** [r"[ \t]*(\r?\n)+"] *)
Definition re_newline : regex :=
  Seq (Star (Set_ blank)) (Plus (Seq (Opt (Lit CR)) (Lit LF))).

(** [r"[ \t]*([^!,;\n]|[*])+[ \t]*"] *)
Definition re_VALUE : regex :=
  Seq (Star (Set_ blank))
      (Seq (Plus (Alt (NotSet [BANG; COMMA_CHAR; SEMICOLON_CHAR; LF])
                      (Set_ [ASTERISK])))
           (Star (Set_ blank))).

(** [t_COMMENT]: the count of line feeds is added to the candidate
    token's own [lineno]; the function returns nothing, so the token is
    dropped, and the lexer is not touched. *)
Definition t_COMMENT (t : LexToken) (lexer : Lexer) : option LexToken * Lexer :=
  let newlines := filter (N.eqb LF) (value t) in
  let t := {| type := type t; value := value t;
              lineno := lineno t + Z.of_nat (length newlines) |} in
  (None, lexer).

(** [t_newline]: [t.lexer.lineno += len(t.value)] *)
Definition t_newline (t : LexToken) (lexer : Lexer) : option LexToken * Lexer :=
  (None,
   {| lexdata := lexdata lexer;
      lexer_lineno := lexer_lineno lexer + Z.of_nat (length (value t)) |}).

(** [t_VALUE]: [return t] *)
Definition t_VALUE (t : LexToken) (lexer : Lexer) : option LexToken * Lexer :=
  (Some t, lexer).

(** ** The parse result *)

(** An IDF object: its type name as written, then its field values. *)
Definition IdfObject := list str.

(** The returned [dict]: keys in insertion order, each with the list of
    the objects appended under it. *)
Definition Document := list (str * list IdfObject).

(** What a run of the program can end in. *)
Inductive outcome : Type :=
| Returned (d : Document)
| IllegalCharacter (c : char) (line : Z)   (* SyntaxError of [t_error] *)
| SyntaxErrorAt (text : str) (line : Z)    (* SyntaxError of [p_error(p)] *)
| SyntaxErrorAtEOF                         (* SyntaxError of [p_error(None)] *)
| Broken                                   (* a Python error inside an action *)
| OutOfFuel.                               (* the model's step bound is hit *)

(** [t_error]: raises, naming [t.value[0]] and [t.lexer.lineno]. *)
Definition t_error (t : LexToken) (lexer : Lexer) : outcome :=
  match value t with
  | c :: _ => IllegalCharacter c (lexer_lineno lexer)
  | [] => Broken
  end.

(** PLY's master regex: the function rules in the order of their
    definition, then the string rules by decreasing regex length (the two
    have the same length and keep their definition order). *)
Definition lexre : list (tokname * regex) :=
  [ (COMMENT, re_COMMENT); (newline, re_newline); (VALUE, re_VALUE);
    (COMMA, re_COMMA); (SEMICOLON, re_SEMICOLON) ].

(** The rule function of each alternative; string rules have none. *)
Definition lexindexfunc (n : tokname)
  : option (LexToken -> Lexer -> option LexToken * Lexer) :=
  match n with
  | COMMENT => Some t_COMMENT
  | newline => Some t_newline
  | VALUE => Some t_VALUE
  | _ => None
  end.

(** [lexre.match(lexdata, lexpos)]: the first alternative that matches,
    with what is left after its match. *)
Fixpoint first_match (rules : list (tokname * regex)) (s : str)
  : option (tokname * str) :=
  match rules with
  | [] => None
  | (n, r) :: rules' =>
      match re_match r s with
      | Some rest => Some (n, rest)
      | None => first_match rules' s
      end
  end.

(** [m.group()] for a match of [s] that leaves [rest]. *)
Definition matched (s rest : str) : str :=
  firstn (length s - length rest) s.

Inductive lex_step : Type :=
| Token (t : LexToken) (lexer' : Lexer)
| Eof
| Raised (e : outcome).

(** [Lexer.token()]: scan from the current position until a rule returns
    a token or the text ends.  Every match advances the position; [fuel]
    bounds the number of matches. *)
Fixpoint token_loop (fuel : nat) (lexer : Lexer) : lex_step :=
  match lexdata lexer with
  | [] => Eof
  | _ :: _ =>
      match fuel with
      | O => Raised OutOfFuel
      | S fuel' =>
          match first_match lexre (lexdata lexer) with
          | Some (n, rest) =>
              let tok := {| type := n; value := matched (lexdata lexer) rest;
                            lineno := lexer_lineno lexer |} in
              let lexer1 := {| lexdata := rest;
                               lexer_lineno := lexer_lineno lexer |} in
              match lexindexfunc n with
              | None => Token tok lexer1
              | Some func =>
                  match func tok lexer1 with
                  | (Some newtok, lexer2) => Token newtok lexer2
                  | (None, lexer2) => token_loop fuel' lexer2
                  end
              end
          | None =>
              Raised (t_error
                        {| type := error; value := lexdata lexer;
                           lineno := lexer_lineno lexer |} lexer)
          end
      end
  end.

Definition token (lexer : Lexer) : lex_step :=
  token_loop (length (lexdata lexer)) lexer.

(** [lex.lex()] followed by [lexer.input(text)]: line counter at 1. *)
Definition lex (text : str) : Lexer :=
  {| lexdata := text; lexer_lineno := 1 |}.

(** ** The grammar actions *)

(** The values the parser's symbol stack holds: the text of a token or
    an [objectname], a [valuelist] or [idfobject], an [idfobjectlist],
    the final [dict]. *)
Inductive pyval : Type :=
| PStr (s : str)
| PFields (l : list str)
| PObjects (l : list IdfObject)
| PDoc (d : Document).

(** [result.setdefault(key, []).append(idfobject)] *)
Fixpoint setdefault_append (key : str) (idfobject : IdfObject)
         (result : Document) : Document :=
  match result with
  | [] => [(key, [idfobject])]
  | (k, objs) :: rest =>
      if str_eqb k key then (k, objs ++ [idfobject]) :: rest
      else (k, objs) :: setdefault_append key idfobject rest
  end.

Section Grammar.
(** [str.upper]: Unicode's case mapping, not part of the repository. *)
Variable upper : str -> str.

(** The loop of [p_idffile]; [idfobject[0]] raises on an empty list. *)
Fixpoint p_idffile_loop (objs : list IdfObject) (result : Document)
  : option Document :=
  match objs with
  | [] => Some result
  | idfobject :: objs' =>
      match idfobject with
      | [] => None
      | name :: _ =>
          p_idffile_loop objs'
            (setdefault_append (upper name) idfobject result)
      end
  end.

(** "idffile : idfobjectlist" *)
Definition p_idffile (p : list pyval) : option pyval :=
  match p with
  | [PObjects p1] => option_map PDoc (p_idffile_loop p1 [])
  | _ => None
  end.

(** "idfobjectlist : idfobject" *)
Definition p_idfobjectlist (p : list pyval) : option pyval :=
  match p with
  | [PFields p1] => Some (PObjects [p1])
  | _ => None
  end.

(** "idfobjectlist : idfobject idfobjectlist" *)
Definition p_idfobjectlist_multiple (p : list pyval) : option pyval :=
  match p with
  | [PFields p1; PObjects p2] => Some (PObjects ([p1] ++ p2))
  | _ => None
  end.

(** "idfobject : objectname SEMICOLON" *)
Definition p_idfobject (p : list pyval) : option pyval :=
  match p with
  | [PStr p1; PStr _] => Some (PFields [p1])
  | _ => None
  end.

(** "idfobject : objectname COMMA valuelist SEMICOLON" *)
Definition p_idfobject_with_values (p : list pyval) : option pyval :=
  match p with
  | [PStr p1; PStr _; PFields p3; PStr _] => Some (PFields ([p1] ++ p3))
  | _ => None
  end.

(** "objectname : VALUE" *)
Definition p_objectname (p : list pyval) : option pyval :=
  match p with
  | [PStr p1] => Some (PStr (strip p1))
  | _ => None
  end.

(** "valuelist : VALUE" *)
Definition p_valuelist (p : list pyval) : option pyval :=
  match p with
  | [PStr p1] => Some (PFields [strip p1])
  | _ => None
  end.

(** "valuelist : VALUE COMMA valuelist" *)
Definition p_valuelist_multiple (p : list pyval) : option pyval :=
  match p with
  | [PStr p1; PStr _; PFields p3] => Some (PFields ([strip p1] ++ p3))
  | _ => None
  end.

(** [p_error] *)
Definition p_error (p : option LexToken) : outcome :=
  match p with
  | Some t => SyntaxErrorAt (value t) (lineno t)
  | None => SyntaxErrorAtEOF
  end.

(** ** PLY's LALR(1) parser for the grammar *)

Inductive nonterminal : Type :=
| idffile | idfobjectlist | idfobject | objectname | valuelist.

Record Production : Type :=
  { prod_name : nonterminal;
    prod_len : nat;
    prod_callable : list pyval -> option pyval }.

(** The productions, numbered in the order of the [p_*] functions. *)
Definition productions (n : nat) : option Production :=
  match n with
  | 1 => Some {| prod_name := idffile; prod_len := 1;
                 prod_callable := p_idffile |}
  | 2 => Some {| prod_name := idfobjectlist; prod_len := 1;
                 prod_callable := p_idfobjectlist |}
  | 3 => Some {| prod_name := idfobjectlist; prod_len := 2;
                 prod_callable := p_idfobjectlist_multiple |}
  | 4 => Some {| prod_name := idfobject; prod_len := 2;
                 prod_callable := p_idfobject |}
  | 5 => Some {| prod_name := idfobject; prod_len := 4;
                 prod_callable := p_idfobject_with_values |}
  | 6 => Some {| prod_name := objectname; prod_len := 1;
                 prod_callable := p_objectname |}
  | 7 => Some {| prod_name := valuelist; prod_len := 1;
                 prod_callable := p_valuelist |}
  | 8 => Some {| prod_name := valuelist; prod_len := 3;
                 prod_callable := p_valuelist_multiple |}
  | _ => None
  end.

(** The lookahead: a token, or the end marker [$end]. *)
Inductive YaccSymbol : Type :=
| Tok (t : LexToken)
| EndMarker.

Inductive lr_action : Type :=
| Shift (state : nat)
| Reduce (production : nat)
| Accept.

(** The LALR(1) item sets of the grammar, numbered as PLY builds them
    (state 0, then the goto sets in the order in which they are met):
<<
    0  S' -> . idffile
    1  S' -> idffile .
    2  idffile -> idfobjectlist .
    3  idfobjectlist -> idfobject .
       idfobjectlist -> idfobject . idfobjectlist
    4  idfobject -> objectname . SEMICOLON
       idfobject -> objectname . COMMA valuelist SEMICOLON
    5  objectname -> VALUE .
    6  idfobjectlist -> idfobject idfobjectlist .
    7  idfobject -> objectname SEMICOLON .
    8  idfobject -> objectname COMMA . valuelist SEMICOLON
    9  idfobject -> objectname COMMA valuelist . SEMICOLON
   10  valuelist -> VALUE .
       valuelist -> VALUE . COMMA valuelist
   11  idfobject -> objectname COMMA valuelist SEMICOLON .
   12  valuelist -> VALUE COMMA . valuelist
   13  valuelist -> VALUE COMMA valuelist .
>>
    (states 0, 3, 8 and 12 also hold the closure items) and the action
    table they give: a shift on each terminal after a dot, a reduction
    of each complete item on its lookaheads. *)
Definition action (state : nat) (ltype : YaccSymbol) : option lr_action :=
  match state, ltype with
  | 0, Tok t => match type t with VALUE => Some (Shift 5) | _ => None end
  | 1, EndMarker => Some Accept
  | 2, EndMarker => Some (Reduce 1)
  | 3, EndMarker => Some (Reduce 2)
  | 3, Tok t => match type t with VALUE => Some (Shift 5) | _ => None end
  | 4, Tok t =>
      match type t with
      | SEMICOLON => Some (Shift 7)
      | COMMA => Some (Shift 8)
      | _ => None
      end
  | 5, Tok t =>
      match type t with
      | SEMICOLON | COMMA => Some (Reduce 6)
      | _ => None
      end
  | 6, EndMarker => Some (Reduce 3)
  | 7, EndMarker => Some (Reduce 4)
  | 7, Tok t => match type t with VALUE => Some (Reduce 4) | _ => None end
  | 8, Tok t => match type t with VALUE => Some (Shift 10) | _ => None end
  | 9, Tok t => match type t with SEMICOLON => Some (Shift 11) | _ => None end
  | 10, Tok t =>
      match type t with
      | SEMICOLON => Some (Reduce 7)
      | COMMA => Some (Shift 12)
      | _ => None
      end
  | 11, EndMarker => Some (Reduce 5)
  | 11, Tok t => match type t with VALUE => Some (Reduce 5) | _ => None end
  | 12, Tok t => match type t with VALUE => Some (Shift 10) | _ => None end
  | 13, Tok t => match type t with SEMICOLON => Some (Reduce 8) | _ => None end
  | _, _ => None
  end.

Definition goto (state : nat) (n : nonterminal) : option nat :=
  match state, n with
  | 0, idffile => Some 1
  | 0, idfobjectlist => Some 2
  | 0, idfobject => Some 3
  | 0, objectname => Some 4
  | 3, idfobject => Some 3
  | 3, idfobjectlist => Some 6
  | 3, objectname => Some 4
  | 8, valuelist => Some 9
  | 12, valuelist => Some 13
  | _, _ => None
  end.

(** States whose only action is one reduction: PLY reduces there
    without looking at the lookahead. *)
Definition defaulted_states (state : nat) : option nat :=
  match state with
  | 2 => Some 1
  | 6 => Some 3
  | 13 => Some 8
  | _ => None
  end.

(** The parser between two iterations of its loop.  [stack] pairs
    PLY's [statestack] and [symstack], top first; state 0 lies under
    it. *)
Record Parser : Type :=
  { lexer : Lexer;
    lookahead : option YaccSymbol;
    stack : list (nat * pyval) }.

Definition state_of (stk : list (nat * pyval)) : nat :=
  match stk with
  | [] => 0
  | (s, _) :: _ => s
  end.

(** A reduction: call the production's function on the values of the
    top [prod_len] symbols, pop them, push the result under the goto
    state. *)
Definition reduce (n : nat) (cfg : Parser) : Parser + outcome :=
  match productions n with
  | None => inr Broken
  | Some p =>
      let targ := rev (map snd (firstn (prod_len p) (stack cfg))) in
      let below := skipn (prod_len p) (stack cfg) in
      match prod_callable p targ with
      | None => inr Broken
      | Some v =>
          match goto (state_of below) (prod_name p) with
          | None => inr Broken
          | Some s =>
              inl {| lexer := lexer cfg; lookahead := lookahead cfg;
                     stack := (s, v) :: below |}
          end
      end
  end.

(** The lookahead of this iteration: the pending one, or the next
    token of the lexer. *)
Definition get_lookahead (cfg : Parser) : (YaccSymbol * Lexer) + outcome :=
  match lookahead cfg with
  | Some la => inl (la, lexer cfg)
  | None =>
      match token (lexer cfg) with
      | Token t lexer' => inl (Tok t, lexer')
      | Eof => inl (EndMarker, lexer cfg)
      | Raised e => inr e
      end
  end.

(** One iteration of the loop of [parser.parse]. *)
Definition step (cfg : Parser) : Parser + outcome :=
  let state := state_of (stack cfg) in
  match defaulted_states state with
  | Some n => reduce n cfg
  | None =>
      match get_lookahead cfg with
      | inr e => inr e
      | inl (la, lexer') =>
          match action state la with
          | Some (Shift s) =>
              match la with
              | Tok t =>
                  inl {| lexer := lexer'; lookahead := None;
                         stack := (s, PStr (value t)) :: stack cfg |}
              | EndMarker => inr Broken
              end
          | Some (Reduce n) =>
              reduce n {| lexer := lexer'; lookahead := Some la;
                          stack := stack cfg |}
          | Some Accept =>
              match stack cfg with
              | (_, PDoc d) :: _ => inr (Returned d)
              | _ => inr Broken
              end
          | None =>
              inr (p_error (match la with
                            | Tok t => Some t
                            | EndMarker => None
                            end))
          end
      end
  end.

Fixpoint run (fuel : nat) (cfg : Parser) : outcome :=
  match fuel with
  | O => OutOfFuel
  | S fuel' =>
      match step cfg with
      | inr r => r
      | inl cfg' => run fuel' cfg'
      end
  end.

(** [parse(idf_text)]: a fresh lexer and parser, then the loop.  The
    [debug] and [write_tables] arguments change no result.  The bound
    on the iterations is never reached ([parse_reads]). *)
Definition parse (idf_text : str) : outcome :=
  run (4 * length idf_text + 8)
      {| lexer := lex idf_text; lookahead := None; stack := [] |}.
End Grammar.

(** ** The token stream and the grammar, read off the rules *)

(** The tokens [Lexer.token()] hands out from a lexer on, in order. *)
Fixpoint tokens_from (fuel : nat) (lx : Lexer) : list LexToken :=
  match fuel with
  | O => []
  | S fuel' =>
      match token lx with
      | Token t lx' => t :: tokens_from fuel' lx'
      | _ => []
      end
  end.

Definition tokens_of (lx : Lexer) : list LexToken :=
  tokens_from (length (lexdata lx)) lx.

Definition tokens (text : str) : list LexToken := tokens_of (lex text).

(** The grammar rules as derivations: the tokens a symbol spans and the
    value its [p_*] function computes. *)
Inductive spans_valuelist : list LexToken -> list str -> Prop :=
| valuelist_single v :
    type v = VALUE ->
    spans_valuelist [v] [strip (value v)]
| valuelist_multiple v c ts l :
    type v = VALUE -> type c = COMMA ->
    spans_valuelist ts l ->
    spans_valuelist (v :: c :: ts) ([strip (value v)] ++ l).

Inductive spans_idfobject : list LexToken -> IdfObject -> Prop :=
| idfobject_bare n s :
    type n = VALUE -> type s = SEMICOLON ->
    spans_idfobject [n; s] [strip (value n)]
| idfobject_with_values n c ts s l :
    type n = VALUE -> type c = COMMA -> type s = SEMICOLON ->
    spans_valuelist ts l ->
    spans_idfobject (n :: c :: ts ++ [s]) ([strip (value n)] ++ l).

Inductive spans_idfobjectlist : list LexToken -> list IdfObject -> Prop :=
| idfobjectlist_single ts o :
    spans_idfobject ts o ->
    spans_idfobjectlist ts [o]
| idfobjectlist_multiple ts1 o ts2 l :
    spans_idfobject ts1 o ->
    spans_idfobjectlist ts2 l ->
    spans_idfobjectlist (ts1 ++ ts2) ([o] ++ l).

(** A token sequence the grammar accepts, and a prefix of one. *)
Definition sentence (ts : list LexToken) : Prop :=
  exists l, spans_idfobjectlist ts l.

Definition viable (ts : list LexToken) : Prop :=
  exists rest, sentence (ts ++ rest).

(** The sequence stops inside an object: complete objects, then a
    non-empty proper prefix of one more. *)
Definition ends_mid_object (ts : list LexToken) : Prop :=
  exists done part rest o,
    ts = done ++ part /\ (done = [] \/ sentence done) /\
    part <> [] /\ rest <> [] /\ spans_idfobject (part ++ rest) o.

(** Where the parser stands between two tokens: what it has read of
    the current object (token texts as shifted, the latest value
    first). *)
Inductive position : Type :=
| AtStart
| AfterName (name : str)
| AfterComma (name : str) (vals : list str)
| AfterValue (name : str) (vals : list str) (v : str)
| AfterSemicolon (o : IdfObject).

(** The object a name and the values read so far reduce to. *)
Definition object_of (name : str) (vals : list str) : IdfObject :=
  strip name :: rev (map strip vals).

(** Reading one more token; [done] holds the finished objects, latest
    first.  [None]: the token cannot follow. *)
Definition advance (pos : position) (done : list IdfObject) (t : LexToken)
  : option (position * list IdfObject) :=
  match pos, type t with
  | AtStart, VALUE => Some (AfterName (value t), done)
  | AfterName n, COMMA => Some (AfterComma n [], done)
  | AfterName n, SEMICOLON => Some (AfterSemicolon (object_of n []), done)
  | AfterComma n vs, VALUE => Some (AfterValue n vs (value t), done)
  | AfterValue n vs v, COMMA => Some (AfterComma n (v :: vs), done)
  | AfterValue n vs v, SEMICOLON =>
      Some (AfterSemicolon (object_of n (v :: vs)), done)
  | AfterSemicolon o, VALUE => Some (AfterName (value t), o :: done)
  | _, _ => None
  end.

Fixpoint walk (pos : position) (done : list IdfObject) (ts : list LexToken)
  : option (position * list IdfObject) :=
  match ts with
  | [] => Some (pos, done)
  | t :: ts' =>
      match advance pos done t with
      | Some (pos', done') => walk pos' done' ts'
      | None => None
      end
  end.

Section Reading.
Variable upper : str -> str.

(** What the parser answers on a token sequence, token by token. *)
Fixpoint read (pos : position) (done : list IdfObject) (ts : list LexToken)
  : outcome :=
  match ts with
  | [] =>
      match pos with
      | AfterSemicolon o =>
          match p_idffile_loop upper (rev (o :: done)) [] with
          | Some d => Returned d
          | None => Broken
          end
      | _ => SyntaxErrorAtEOF
      end
  | t :: ts' =>
      match advance pos done t with
      | Some (pos', done') => read pos' done' ts'
      | None => SyntaxErrorAt (value t) (lineno t)
      end
  end.

(** The key of an object in the returned mapping. *)
Definition key_of (o : IdfObject) : str := upper (hd [] o).

(** The loop of [p_idffile] on objects that all have a name. *)
Definition grouped (objs : list IdfObject) (result : Document) : Document :=
  fold_left (fun d o => setdefault_append (key_of o) o d) objs result.

(** A mapping as the loop leaves it: distinct keys, under each key a
    non-empty list of objects of that key. *)
Definition well_grouped (d : Document) : Prop :=
  NoDup (map fst d) /\
  Forall (fun g => snd g <> [] /\ Forall (fun o => key_of o = fst g) (snd g)) d.
End Reading.

(** ** Documents as the caller sees them *)

(** [d.get(key)] *)
Fixpoint get (d : Document) (key : str) : option (list IdfObject) :=
  match d with
  | [] => None
  | (k, objs) :: rest => if str_eqb k key then Some objs else get rest key
  end.

(** [key in d] *)
Definition has_key (d : Document) (k : str) : bool :=
  existsb (fun x => str_eqb x k) (map fst d).

(** The distinct elements of a list of keys, each at its first place. *)
Fixpoint first_seen (keys : list str) : list str :=
  match keys with
  | [] => []
  | k :: ks => k :: filter (fun x => negb (str_eqb x k)) (first_seen ks)
  end.

(** [sep.join(parts)] *)
Fixpoint join (sep : str) (parts : list str) : str :=
  match parts with
  | [] => []
  | [p] => p
  | p :: rest => p ++ sep ++ join sep rest
  end.

(** The serialisation of the round-trip law: each object as
    [name, v1, ..., vn;] ([name;] when it has no fields), the objects of
    the document joined by line feeds. *)
Definition serialize_object (o : IdfObject) : str :=
  join [COMMA_CHAR; SPACE] o ++ [SEMICOLON_CHAR].

Definition serialize (d : Document) : str :=
  join [LF] (map serialize_object (concat (map snd d))).

(** Object text in general: fields separated by commas, a semicolon,
    then whatever trails on the line. *)
Definition render_object (o : list str * str) : str :=
  join [COMMA_CHAR] (fst o) ++ [SEMICOLON_CHAR] ++ snd o.

Definition render (objs : list (list str * str)) : str :=
  join [LF] (map render_object objs).

(** The characters a VALUE is made of: all but [!], [,], [;] and the
    line feed. *)
Definition valuechar (c : char) : bool :=
  negb (mem c [BANG; COMMA_CHAR; SEMICOLON_CHAR; LF]).

Definition is_delimiter (d : char) : Prop :=
  d = COMMA_CHAR \/ d = SEMICOLON_CHAR.

(** Text that lexes to one VALUE token: made of value characters, not
    all of them spaces and tabs. *)
Definition is_field (w : str) : Prop :=
  forallb valuechar w = true /\ forallb (fun c => mem c blank) w = false.

Definition is_padding (w : str) : Prop :=
  forallb (fun c => mem c blank) w = true.

(** Object text that lexes as one object: at least a name, every field
    a field, only spaces and tabs after the semicolon. *)
Definition object_text (o : list str * str) : Prop :=
  fst o <> [] /\ Forall is_field (fst o) /\ is_padding (snd o).

(** A name or value as the spec's object text [name, v1, ..., vn;] has
    it: not empty, free of [!], [,], [;] and line feeds, nothing for
    [strip] to remove. *)
Definition well_formed (w : str) : Prop :=
  w <> [] /\ forallb valuechar w = true /\ strip w = w.

(** An object as the line the serialisation writes for it: a space
    before each field value, nothing after the semicolon. *)
Definition as_line (o : IdfObject) : list str * str :=
  (match o with
   | name :: vs => name :: map (cons SPACE) vs
   | [] => []
   end, []).

(** No space or tab at either end. *)
Definition no_outer_blank (s : str) : Prop :=
  (forall c t, s = c :: t -> is_blank c = false) /\
  (forall c t, s = t ++ [c] -> is_blank c = false).

(** A field given with the spaces and tabs around it: before, the
    field, after. *)
Definition padded_field (f : str * str * str) : Prop :=
  is_padding (fst (fst f)) /\ is_field (snd (fst f)) /\ is_padding (snd f).

(** An object given as its padded fields and what trails its
    semicolon. *)
Definition padded_object (o : list (str * str * str) * str) : Prop :=
  fst o <> [] /\ Forall padded_field (fst o) /\ is_padding (snd o).

(** Padding of one field with spaces and tabs on both sides. *)
Definition pad (f : str * str * str) : str :=
  fst (fst f) ++ snd (fst f) ++ snd f.

Definition core (f : str * str * str) : str := snd (fst f).

(** The text of padded objects with the padding, and without it. *)
Definition padded (o : list (str * str * str) * str) : list str * str :=
  (map pad (fst o), snd o).

Definition unpadded (o : list (str * str * str) * str) : list str * str :=
  (map core (fst o), []).

(** ** What the rule regexes match, in closed form *)

(** A regex that can match the empty text; PLY refuses such a rule. *)
Fixpoint nullable (r : regex) : bool :=
  match r with
  | Lit _ | Set_ _ | NotSet _ | Dot => false
  | Seq r1 r2 => nullable r1 && nullable r2
  | Alt r1 r2 => nullable r1 || nullable r2
  | Star _ | Opt _ => true
  | Plus r1 => nullable r1
  end.

(** A matcher that only hands suffixes of its text to the continuation,
    proper ones when [strict]. *)
Definition consuming (A : Type) (strict : bool)
           (body : str -> (str -> option A) -> option A) : Prop :=
  forall s k x, body s k = Some x ->
    exists m s', s = m ++ s' /\ k s' = Some x /\ (strict = true -> m <> []).

(** One newline sequence: a line feed, or a carriage return and a line
    feed. *)
Definition eat_newline (s : str) : option str :=
  match s with
  | c :: t =>
      if (c =? LF)%N then Some t
      else if (c =? CR)%N then
             match t with
             | c2 :: t2 => if (c2 =? LF)%N then Some t2 else None
             | [] => None
             end
           else None
  | [] => None
  end.

Fixpoint skip_newlines (s : str) : str :=
  match s with
  | c :: t =>
      if (c =? LF)%N then skip_newlines t
      else if (c =? CR)%N then
             match t with
             | c2 :: t2 => if (c2 =? LF)%N then skip_newlines t2 else s
             | [] => s
             end
           else s
  | [] => []
  end.

Definition match_COMMENT (s : str) : option str :=
  match skip (fun c => mem c [SPACE; TAB; CR; LF]) s with
  | c :: r => if (c =? BANG)%N then Some (skip (fun x => negb (x =? LF)%N) r)
              else None
  | [] => None
  end.

Definition match_newline (s : str) : option str :=
  match eat_newline (skip is_blank s) with
  | Some r => Some (skip_newlines r)
  | None => None
  end.

Definition match_VALUE (s : str) : option str :=
  match s with
  | c :: t => if valuechar c then Some (skip valuechar t) else None
  | [] => None
  end.

Definition match_delimiter (d : char) (s : str) : option str :=
  match skip is_blank s with
  | c :: r => if (c =? d)%N then Some (skip is_blank r) else None
  | [] => None
  end.

(** The master regex in closed form. *)
Definition master (s : str) : option (tokname * str) :=
  match match_COMMENT s with
  | Some r => Some (COMMENT, r)
  | None =>
  match match_newline s with
  | Some r => Some (newline, r)
  | None =>
  match match_VALUE s with
  | Some r => Some (VALUE, r)
  | None =>
  match match_delimiter COMMA_CHAR s with
  | Some r => Some (COMMA, r)
  | None =>
  match match_delimiter SEMICOLON_CHAR s with
  | Some r => Some (SEMICOLON, r)
  | None => None
  end end end end end.

(** The white space a comment match may start with. *)
Definition ws4 (c : char) : bool := mem c [SPACE; TAB; CR; LF].

(** What each alternative of the master regex takes from the text. *)
Definition takes (n : tokname) (m r : str) : Prop :=
  match n with
  | COMMENT => In BANG m
  | newline =>
      exists a e, m = a ++ e /\ is_padding a /\ e <> [] /\
                  forallb (fun c => mem c [CR; LF]) e = true
  | VALUE =>
      forallb valuechar m = true /\
      match r with c :: _ => valuechar c = false | [] => True end
  | COMMA =>
      (exists b, m = COMMA_CHAR :: b /\ is_padding b) /\
      match r with c :: _ => is_blank c = false | [] => True end
  | SEMICOLON =>
      (exists b, m = SEMICOLON_CHAR :: b /\ is_padding b) /\
      match r with c :: _ => is_blank c = false | [] => True end
  | error => False
  end.

(** What the parser reads of a token: its type and its text. *)
Definition sig (t : LexToken) : tokname * str := (type t, value t).

(** Text with a character that is not white space. *)
Definition anchored (s : str) : bool := existsb (fun c => negb (ws4 c)) s.

(** A string of a parsed object is the stripped text of a VALUE token. *)
Definition from_tokens (ts : list LexToken) (s : str) : Prop :=
  exists t, In t ts /\ type t = VALUE /\ s = strip (value t).

(** Tokens that complete what has been read to a sentence. *)
Definition completion (pos : position) : list LexToken :=
  let v := {| type := VALUE; value := []; lineno := 0 |} in
  let s := {| type := SEMICOLON; value := []; lineno := 0 |} in
  match pos with
  | AtStart | AfterComma _ _ => [v; s]
  | AfterName _ | AfterValue _ _ _ => [s]
  | AfterSemicolon _ => []
  end.

(** ** What has been read at each position *)

(** The tokens of the finished objects. *)
Definition complete (pre : list LexToken) (done : list IdfObject) : Prop :=
  (pre = [] /\ done = []) \/ spans_idfobjectlist pre (rev done).

(** The tokens of the current object, by position. *)
Definition current (part : list LexToken) (pos : position) : Prop :=
  match pos with
  | AtStart => False
  | AfterName n => exists t, part = [t] /\ type t = VALUE /\ value t = n
  | AfterComma n vs =>
      exists t c, type t = VALUE /\ value t = n /\ type c = COMMA /\
        match vs with
        | [] => part = [t; c]
        | _ :: _ =>
            exists ts c', part = t :: c :: ts ++ [c'] /\ type c' = COMMA /\
                          spans_valuelist ts (rev (map strip vs))
        end
  | AfterValue n vs v =>
      exists t c ts, part = t :: c :: ts /\
        type t = VALUE /\ value t = n /\ type c = COMMA /\
        spans_valuelist ts (rev (map strip (v :: vs)))
  | AfterSemicolon o => spans_idfobject part o
  end.

(** A token sequence that leads from the start to a position. *)
Definition walked (ts : list LexToken) (pos : position)
           (done : list IdfObject) : Prop :=
  match pos with
  | AtStart => ts = [] /\ done = []
  | _ => exists pre part, ts = pre ++ part /\ complete pre done /\
                          current part pos
  end.

(** Between two objects: at the start, or after a semicolon, whose
    object then counts as finished. *)
Definition boundary (pos : position) (done done' : list IdfObject) : Prop :=
  (pos = AtStart /\ done' = done) \/
  (exists o, pos = AfterSemicolon o /\ done' = o :: done).

(** ** The parser's stack at each position *)

(** The finished objects, each under state 3. *)
Inductive objects_stack : list IdfObject -> list (nat * pyval) -> Prop :=
| objects_none : objects_stack [] []
| objects_more o done stk :
    objects_stack done stk ->
    objects_stack (o :: done) ((3, PFields o) :: stk).

(** The current object up to a comma: its name, then each value read
    with the comma after it. *)
Inductive values_stack (name c0 : str) (base : list (nat * pyval))
  : list str -> list (nat * pyval) -> Prop :=
| values_none :
    values_stack name c0 base [] ((8, PStr c0) :: (4, PStr (strip name)) :: base)
| values_more c v vs stk :
    values_stack name c0 base vs stk ->
    values_stack name c0 base (v :: vs) ((12, PStr c) :: (10, PStr v) :: stk).

Inductive at_position : position -> list IdfObject -> list (nat * pyval) -> Prop :=
| at_start : at_position AtStart [] []
| at_name n done base :
    objects_stack done base ->
    at_position (AfterName n) done ((5, PStr n) :: base)
| at_comma n c0 vs done base stk :
    objects_stack done base ->
    values_stack n c0 base vs stk ->
    at_position (AfterComma n vs) done stk
| at_value n c0 vs v done base stk :
    objects_stack done base ->
    values_stack n c0 base vs stk ->
    at_position (AfterValue n vs v) done ((10, PStr v) :: stk)
| at_semicolon_bare name s done base :
    objects_stack done base ->
    at_position (AfterSemicolon [name]) done
                ((7, PStr s) :: (4, PStr name) :: base)
| at_semicolon_values name l s c0 done base :
    objects_stack done base ->
    at_position (AfterSemicolon (name :: l)) done
                ((11, PStr s) :: (9, PFields l) :: (8, PStr c0)
                   :: (4, PStr name) :: base).

Section Runs.
Variable upper : str -> str.

(** [n] iterations take the parser from [cfg] to [cfg']. *)
Definition reaches (n : nat) (cfg cfg' : Parser) : Prop :=
  forall fuel, run upper (n + fuel) cfg = run upper fuel cfg'.

(** [n] iterations end the parse of [cfg] with [r]. *)
Definition finishes (n : nat) (cfg : Parser) (r : outcome) : Prop :=
  forall fuel, run upper (n + fuel) cfg = r.
End Runs.

(** ** Counting tokens, objects and lines *)

Definition tokname_eqb (a b : tokname) : bool :=
  match a, b with
  | COMMENT, COMMENT | newline, newline | VALUE, VALUE
  | COMMA, COMMA | SEMICOLON, SEMICOLON | error, error => true
  | _, _ => false
  end.

(** The tokens of one type in a token sequence. *)
Definition count_type (n : tokname) (ts : list LexToken) : nat :=
  length (filter (fun t => tokname_eqb (type t) n) ts).

(** [sum(len(v) for v in d.values())] *)
Definition total_objects (d : Document) : nat :=
  list_sum (map (fun g => length (snd g)) d).

(** The names and values of a document, all objects together. *)
Definition total_strings (d : Document) : nat :=
  list_sum (map (@length str) (concat (map snd d))).

(** The line feeds of a text. *)
Definition count_lf (s : str) : nat := length (filter (N.eqb LF) s).

(** Text on which the line counter is exact: no comment, no carriage
    return, no space or tab directly before a line feed. *)
Fixpoint plain (s : str) : bool :=
  match s with
  | [] => true
  | c :: t =>
      negb (c =? BANG)%N && negb (c =? CR)%N
      && negb (is_blank c
               && match t with c2 :: _ => (c2 =? LF)%N | [] => false end)
      && plain t
  end.

(** ** Text between the fields of an object *)

(** Where a scan of spacing text stands: at its start or after a line
    feed, after spaces or tabs, after a carriage return that awaits its
    line feed, inside a comment. *)
Inductive spacing : Type := Fresh | InBlanks | AfterCR | InComment.

Definition spacing_next (st : spacing) (c : char) : option spacing :=
  match st with
  | InComment => if (c =? LF)%N then Some Fresh else Some InComment
  | AfterCR => if (c =? LF)%N then Some Fresh else None
  | Fresh | InBlanks =>
      if is_blank c then Some InBlanks
      else if (c =? LF)%N then Some Fresh
      else if (c =? CR)%N then Some AfterCR
      else if (c =? BANG)%N then Some InComment
      else None
  end.

Fixpoint spacing_end (st : spacing) (s : str) : option spacing :=
  match s with
  | [] => Some st
  | c :: t =>
      match spacing_next st c with
      | Some st' => spacing_end st' t
      | None => None
      end
  end.

(** Spacing a field can follow: spaces, tabs, line ends (a line feed,
    or a carriage return and a line feed) and comments, every comment
    closed by its line feed. *)
Definition is_gap (g : str) : Prop :=
  spacing_end Fresh g = Some Fresh \/ spacing_end Fresh g = Some InBlanks.

(** Spacing that can end the text after the last semicolon: the last
    comment may lack its line feed, and spaces or tabs stand directly
    after the semicolon or before a line end or a comment. *)
Definition is_ending (g : str) : Prop :=
  spacing_end Fresh (skip is_blank g) = Some Fresh \/
  spacing_end Fresh (skip is_blank g) = Some InComment.

(** Spacing after the last semicolon that ends in spaces or tabs on a
    line of their own. *)
Definition is_dangling (g : str) : Prop :=
  spacing_end Fresh (skip is_blank g) = Some InBlanks.

(** An object laid out freely: each field with the spacing before it,
    commas between the fields, a semicolon after the last. *)
Definition spread_object (o : list (str * str)) : str :=
  join [COMMA_CHAR] (map (fun gf => fst gf ++ snd gf) o) ++ [SEMICOLON_CHAR].

Definition spread (objs : list (list (str * str))) (ending : str) : str :=
  concat (map spread_object objs) ++ ending.

Definition laid_out (objs : list (list (str * str))) (ending : str) : Prop :=
  objs <> [] /\
  Forall (fun o => o <> [] /\
                   Forall (fun gf => is_gap (fst gf) /\ is_field (snd gf)) o)
         objs /\
  is_ending ending.

(** The object a laid-out object spells. *)
Definition fields_of (o : list (str * str)) : IdfObject :=
  map (fun gf => strip (snd gf)) o.

(** ** Reading a file and the command line *)

(** [str(n)] of an integer. *)
Definition decimal (n : Z) : str :=
  txt (NilZero.string_of_int (Z.to_int n)).

(** [a < b] on Python strings: by code points, a proper prefix first. *)
Fixpoint str_ltb (a b : str) : bool :=
  match a, b with
  | _, [] => false
  | [], _ :: _ => true
  | x :: a', y :: b' =>
      if (x <? y)%N then true
      else if (y <? x)%N then false
      else str_ltb a' b'
  end.

(** [sorted(d.items())].  The keys of a [dict] are distinct, so two
    items compare as their keys do. *)
Fixpoint insert_item (g : str * list IdfObject)
         (l : list (str * list IdfObject)) : list (str * list IdfObject) :=
  match l with
  | [] => [g]
  | h :: t =>
      if str_ltb (fst g) (fst h) then g :: h :: t
      else h :: insert_item g t
  end.

Definition sorted (d : Document) : list (str * list IdfObject) :=
  fold_right insert_item [] d.

(** [f"{s:<w}"]: [s] padded with spaces on the right to the width [w]. *)
Definition ljust (w : nat) (s : str) : str :=
  s ++ repeat SPACE (w - length s).

(** What the file system holds under a path: nothing, a file that
    cannot be read as UTF-8 text (with the [str()] of the exception
    that reading it raises), or a file, given by its decoded
    characters. *)
Inductive file_state : Type :=
| Missing (e : str)
| Unreadable (e : str)
| Holds (chars : str).

Definition FileSystem := str -> file_state.

(** Text mode reads with universal newlines: a carriage return, with
    the line feed after it if there is one, is read as a line feed. *)
Fixpoint universal_newlines (s : str) : str :=
  match s with
  | [] => []
  | c :: t =>
      if (c =? CR)%N then
        LF :: match t with
              | c2 :: t2 =>
                  if (c2 =? LF)%N then universal_newlines t2
                  else universal_newlines t
              | [] => []
              end
      else c :: universal_newlines t
  end.

(** The same text with every line feed written as a carriage return
    and a line feed. *)
Definition crlf (s : str) : str :=
  flat_map (fun c => if (c =? LF)%N then [CR; LF] else [c]) s.

(** The result of [path.read_text(encoding="utf-8")]. *)
Inductive read_result : Type :=
| Text (idf_text : str)
| NotFound (e : str)          (* FileNotFoundError *)
| Failed (e : str).           (* any other exception *)

Definition read_text (fs : FileSystem) (path : str) : read_result :=
  match fs path with
  | Missing e => NotFound e
  | Unreadable e => Failed e
  | Holds chars => Text (universal_newlines chars)
  end.

(** What is printed, call by call: the stream and the text. *)
Inductive stream : Type := stdout | stderr.

Definition printed := list (stream * str).

(** How a call of [parse_file] ends: with what [parse] did, or with
    the exception of [read_text], raised again. *)
Inductive file_outcome : Type :=
| Parsed (r : outcome)
| FileNotFoundError (e : str)
| ReadError (e : str).

(** The text of the [SyntaxError] that [t_error] or [p_error] raises. *)
Definition message (r : outcome) : option str :=
  match r with
  | IllegalCharacter c line =>
      Some (txt "Illegal character '" ++ [c] ++ txt "' at line "
                ++ decimal line ++ txt " of input")
  | SyntaxErrorAt text line =>
      Some (txt "Syntax error at token '" ++ text ++ txt "' on line "
                ++ decimal line)
  | SyntaxErrorAtEOF => Some (txt "Syntax error at EOF")
  | _ => None
  end.

(** The parsed command line. *)
Record Namespace : Type :=
  { file : str; debug : bool; tables : bool }.

Section CommandLine.
Variable upper : str -> str.

(** [parse_file(file_path)] *)
Definition parse_file (fs : FileSystem) (file_path : str)
  : printed * file_outcome :=
  match read_text fs file_path with
  | NotFound e =>
      ([(stdout, txt "Error: File not found at " ++ file_path)],
       FileNotFoundError e)
  | Failed e =>
      ([(stdout, txt "Error reading file " ++ file_path ++ txt ": " ++ e)],
       ReadError e)
  | Text idf_text => ([], Parsed (parse upper idf_text))
  end.

(** One line of the summary: [f"  {obj_type:<30}: {len(obj_list)}"] *)
Definition count_line (g : str * list IdfObject) : str :=
  txt "  " ++ ljust 30 (fst g) ++ txt ": "
      ++ decimal (Z.of_nat (length (snd g))).

(** The block under [if __name__ == "__main__"], after the command
    line is parsed: what it prints and the exit status of the process.
    With [--debug] or [--tables] PLY logs and writes files of its own;
    those runs are left out ([None]), and so is an error inside a
    grammar action, whose text is not the program's. *)
Definition main (fs : FileSystem) (args : Namespace) : option (printed * Z) :=
  if debug args || tables args then None
  else
    let start := [(stdout, txt "Parsing file: " ++ file args ++ txt "...")] in
    let (out, r) := parse_file fs (file args) in
    match r with
    | Parsed (Returned idf_data) =>
        Some (start ++ out
                ++ [(stdout, LF :: txt "--- Parse Successful ---");
                    (stdout, txt "Total objects parsed: "
                               ++ decimal (Z.of_nat (total_objects idf_data)));
                    (stdout, txt "Object counts by type:")]
                ++ map (fun g => (stdout, count_line g)) (sorted idf_data),
              0%Z)
    | Parsed e =>
        match message e with
        | Some msg =>
            Some (start ++ out
                    ++ [(stderr, LF :: txt "--- PARSE FAILED ---");
                        (stderr, msg)],
                  1%Z)
        | None => None
        end
    | FileNotFoundError e =>
        Some (start ++ out
                ++ [(stderr, LF :: txt "--- PARSE FAILED ---"); (stderr, e)],
              1%Z)
    | ReadError e =>
        Some (start ++ out
                ++ [(stderr, LF :: txt "--- UNEXPECTED ERROR ---");
                    (stderr, txt "An unexpected error occurred: " ++ e)],
              1%Z)
    end.
End CommandLine.

(** ** Texts and documents of the worked examples *)

Definition zone_text : str :=
  txt "Zone, LivingRoom, 20;" ++ [LF] ++ txt "Zone, Kitchen, 15;".

Definition zone_document : Document :=
  [(txt "ZONE", [[txt "Zone"; txt "LivingRoom"; txt "20"];
                 [txt "Zone"; txt "Kitchen"; txt "15"]])].

Definition building_text : str :=
  txt "Zone, Bedroom, 12;" ++ [LF] ++ txt "Building, MyHouse;" ++ [LF]
      ++ txt "zone, Kitchen, 15;".

Definition building_document : Document :=
  [(txt "ZONE", [[txt "Zone"; txt "Bedroom"; txt "12"];
                 [txt "zone"; txt "Kitchen"; txt "15"]]);
   (txt "BUILDING", [[txt "Building"; txt "MyHouse"]])].

Definition material_padded : list (list (str * str * str) * str) :=
  [([(txt "  ", txt "Material", txt " "); (txt "  ", txt "Wood", txt " ");
     (txt " ", txt "0.3", txt " "); (txt " ", txt "0.6", txt " ")], [])].

Definition material_document : Document :=
  [(txt "MATERIAL", [[txt "Material"; txt "Wood"; txt "0.3"; txt "0.6"]])].

Definition empty_value_text : str := txt "Material," ++ [CR] ++ txt ",0.5;".

Definition empty_value_document : Document :=
  [(txt "MATERIAL", [[txt "Material"; []; txt "0.5"]])].

(** The repository's test text with comments, and a text laid out over
    several lines that end in CR LF, each as its objects (every field
    with the spacing before it) and what ends the text. *)
Definition commented_objects : list (list (str * str)) :=
  [[(txt "! This is a comment" ++ [LF], txt "Material");
    (txt " ", txt "Wood"); (txt " ", txt "0.3"); (txt " ", txt "0.6")]].

Definition commented_ending : str := txt " ! Another comment".

Definition commented_text : str :=
  txt "! This is a comment" ++ [LF]
      ++ txt "Material, Wood, 0.3, 0.6; ! Another comment".

Definition lines_objects : list (list (str * str)) :=
  [[(txt "! the zones" ++ [CR; LF], txt "Zone");
    (txt "   !- type" ++ [CR; LF] ++ txt "  ", txt "Kitchen");
    (txt "  !- name" ++ [CR; LF; CR; LF] ++ txt "  ", txt "15")];
   [([CR; LF], txt "Version")]].

Definition lines_ending : str := txt "  ! the end".

Definition lines_text : str :=
  txt "! the zones" ++ [CR; LF]
      ++ txt "Zone,   !- type" ++ [CR; LF]
      ++ txt "  Kitchen,  !- name" ++ [CR; LF; CR; LF]
      ++ txt "  15;" ++ [CR; LF]
      ++ txt "Version;  ! the end".

Definition lines_document : Document :=
  [(txt "ZONE", [[txt "Zone"; txt "Kitchen"; txt "15"]]);
   (txt "VERSION", [[txt "Version"]])].

Definition version_objects : list (list (str * str)) :=
  [[([], txt "Version")]].

(** A file system with one file, written with CR LF line ends, and the
    command lines that name it and a missing file. *)
Definition example_files : FileSystem :=
  fun path =>
    if str_eqb path (txt "zones.idf") then Holds (crlf building_text)
    else Missing (txt "[Errno 2] No such file or directory").

Definition example_args : Namespace :=
  {| file := txt "zones.idf"; debug := false; tables := false |}.


(** * Facts *)

#[local] Arguments N.eqb : simpl never.
#[local] Arguments N.leb : simpl never.
#[local] Arguments Nat.ltb : simpl never.

(** ** The matcher *)

Section MatcherFacts.
Variable A : Type.
Implicit Types (k : str -> option A) (s : str).

Lemma orelse_none_r (a : option A) : orelse a None = a.
Proof. destruct a; reflexivity. Qed.

Lemma ltb_tail (c : char) s : (length s <? length (c :: s))%nat = true.
Proof. apply Nat.ltb_lt. simpl. lia. Qed.

(** A body that is one character class, whatever its syntax. *)
Lemma greedy_one_body body p :
  (forall s k, body s k = one p s k) ->
  forall n s k, greedy body n s k = greedy (one p) n s k.
Proof.
  intros Hb n. induction n as [|n IH]; intros s k; [reflexivity|].
  cbn [greedy]. rewrite Hb. destruct s as [|c t]; [reflexivity|].
  cbn [one]. destruct (p c); [|reflexivity].
  rewrite ltb_tail, IH. reflexivity.
Qed.

Lemma greedy_one_cont p k1 k2 :
  (forall s, k1 s = k2 s) ->
  forall n s, greedy (one p) n s k1 = greedy (one p) n s k2.
Proof.
  intros Hk n. induction n as [|n IH]; intros s; [apply Hk|].
  cbn [greedy]. destruct s as [|c t]; cbn [one]; [now rewrite Hk|].
  destruct (p c); [|now rewrite Hk].
  rewrite ltb_tail, IH, Hk. reflexivity.
Qed.

(** When what follows the repetition cannot start with a character of
    the class, the repetition takes the whole run and never gives back. *)
Lemma greedy_commit p k :
  (forall c t, p c = true -> k (c :: t) = None) ->
  forall n s, (length s <= n)%nat ->
         greedy (one p) n s k = k (skip p s).
Proof.
  intros Hk n. induction n as [|n IH]; intros s Hn.
  - destruct s; [reflexivity | simpl in Hn; lia].
  - destruct s as [|c t]; cbn [greedy one skip]; [reflexivity|].
    destruct (p c) eqn:Hc; [|reflexivity].
    rewrite ltb_tail, IH by (simpl in Hn; lia).
    rewrite (Hk c t Hc). apply orelse_none_r.
Qed.

(** When what follows accepts after the whole run, that is the match. *)
Lemma greedy_longest p k x :
  forall n s, (length s <= n)%nat ->
         k (skip p s) = Some x ->
         greedy (one p) n s k = Some x.
Proof.
  induction n as [|n IH]; intros s Hn Hx.
  - destruct s; [exact Hx | simpl in Hn; lia].
  - destruct s as [|c t]; cbn [greedy one skip] in *; [now rewrite Hx|].
    destruct (p c) eqn:Hc; [|now rewrite Hx].
    rewrite ltb_tail, IH by (assumption || (simpl in Hn; lia)). reflexivity.
Qed.
End MatcherFacts.

Lemma skip_head p s :
  match skip p s with c :: _ => p c = false | [] => True end.
Proof.
  induction s as [|c t IH]; simpl; [exact I|].
  destruct (p c) eqn:Hc; [exact IH | exact Hc].
Qed.

Lemma skip_idem p s : skip p (skip p s) = skip p s.
Proof.
  pose proof (skip_head p s) as H.
  destruct (skip p s) as [|c r]; [reflexivity|]. simpl. now rewrite H.
Qed.

Lemma skip_weaker (p q : char -> bool) s :
  (forall c, q c = true -> p c = true) ->
  skip q (skip p s) = skip p s.
Proof.
  intros Hpq. pose proof (skip_head p s) as H.
  destruct (skip p s) as [|c r]; [reflexivity|]. simpl.
  destruct (q c) eqn:Hq; [|reflexivity].
  apply Hpq in Hq. congruence.
Qed.

Lemma skip_length p s : (length (skip p s) <= length s)%nat.
Proof.
  induction s as [|c t IH]; simpl; [lia|]. destruct (p c); simpl; lia.
Qed.

Lemma blank_valuechar c : is_blank c = true -> valuechar c = true.
Proof.
  unfold is_blank, mem, blank. simpl.
  rewrite !orb_true_iff, !N.eqb_eq.
  intros [->|[->|H]]; [reflexivity | reflexivity | discriminate H].
Qed.

(** ** The five rules *)

Lemma rmatch_Seq (A : Type) r1 r2 s (k : str -> option A) :
  rmatch (Seq r1 r2) s k = rmatch r1 s (fun s' => rmatch r2 s' k).
Proof. reflexivity. Qed.

Lemma rmatch_Star (A : Type) r s (k : str -> option A) :
  rmatch (Star r) s k = greedy (rmatch r) (length s) s k.
Proof. reflexivity. Qed.

Lemma rmatch_Plus (A : Type) r s (k : str -> option A) :
  rmatch (Plus r) s k =
  rmatch r s (fun s' => greedy (rmatch r) (length s') s' k).
Proof. reflexivity. Qed.

Lemma rmatch_Opt (A : Type) r s (k : str -> option A) :
  rmatch (Opt r) s k = orelse (rmatch r s k) (k s).
Proof. reflexivity. Qed.

Lemma rmatch_Lit (A : Type) c s (k : str -> option A) :
  rmatch (Lit c) s k =
  match s with x :: t => if (x =? c)%N then k t else None | [] => None end.
Proof.
  destruct s as [|x t]; [reflexivity|]. cbn [rmatch one].
  now rewrite (N.eqb_sym c x).
Qed.

Lemma rmatch_blank (A : Type) :
  rmatch (A:=A) (Set_ blank) = one is_blank.
Proof. reflexivity. Qed.

Lemma star_blank_total s :
  rmatch (Star (Set_ blank)) s (fun r => Some r) = Some (skip is_blank s).
Proof.
  rewrite rmatch_Star, rmatch_blank. now apply greedy_longest.
Qed.

Lemma re_COMMENT_spec s : re_match re_COMMENT s = match_COMMENT s.
Proof.
  unfold re_match, re_COMMENT, match_COMMENT.
  rewrite rmatch_Seq, rmatch_Star.
  change (rmatch (Set_ [SPACE; TAB; CR; LF]))
    with (one (A:=str) (fun c => mem c [SPACE; TAB; CR; LF])).
  rewrite greedy_commit; [| | lia].
  - rewrite rmatch_Seq, rmatch_Lit.
    destruct (skip _ s) as [|c r]; [reflexivity|].
    destruct (c =? BANG)%N; [|reflexivity].
    rewrite rmatch_Star. now apply greedy_longest.
  - intros c t Hc. rewrite rmatch_Seq, rmatch_Lit.
    destruct (c =? BANG)%N eqn:E; [|reflexivity].
    apply N.eqb_eq in E. subst c. discriminate Hc.
Qed.

Lemma newline_body (A : Type) s (k : str -> option A) :
  rmatch (Seq (Opt (Lit CR)) (Lit LF)) s k =
  match eat_newline s with Some t => k t | None => None end.
Proof.
  rewrite rmatch_Seq, rmatch_Opt. cbv beta. rewrite !rmatch_Lit.
  unfold eat_newline.
  destruct s as [|c t]; [reflexivity|].
  destruct (c =? LF)%N eqn:E1.
  - apply N.eqb_eq in E1. subst c. reflexivity.
  - destruct (c =? CR)%N; [|reflexivity].
    rewrite rmatch_Lit. destruct t as [|c2 t2]; [reflexivity|].
    destruct (c2 =? LF)%N; [|reflexivity]. apply orelse_none_r.
Qed.

Lemma eat_newline_length s t :
  eat_newline s = Some t -> (length t < length s)%nat.
Proof.
  unfold eat_newline. destruct s as [|c r]; [discriminate|].
  destruct (c =? LF)%N; [intros [= <-]; simpl; lia|].
  destruct (c =? CR)%N; [|discriminate].
  destruct r as [|c2 r2]; [discriminate|].
  destruct (c2 =? LF)%N; [intros [= <-]; simpl; lia | discriminate].
Qed.

Lemma skip_newlines_eat s :
  skip_newlines s =
  match eat_newline s with Some t => skip_newlines t | None => s end.
Proof.
  destruct s as [|c t]; simpl; [reflexivity|].
  destruct (c =? LF)%N; [reflexivity|].
  destruct (c =? CR)%N; [|reflexivity].
  destruct t as [|c2 t2]; [reflexivity|].
  destruct (c2 =? LF)%N; reflexivity.
Qed.

Lemma newline_run n : forall s,
  (length s <= n)%nat ->
  greedy (rmatch (Seq (Opt (Lit CR)) (Lit LF))) n s (fun r => Some r)
  = Some (skip_newlines s).
Proof.
  induction n as [|n IH]; intros s Hn.
  - destruct s; [reflexivity | simpl in Hn; lia].
  - cbn [greedy]. rewrite newline_body, (skip_newlines_eat s).
    destruct (eat_newline s) as [t|] eqn:E; [|reflexivity].
    pose proof (eat_newline_length _ E) as Hl.
    apply Nat.ltb_lt in Hl as Hb. rewrite Hb, IH by lia. reflexivity.
Qed.

Lemma re_newline_spec s : re_match re_newline s = match_newline s.
Proof.
  unfold re_match, re_newline, match_newline.
  rewrite rmatch_Seq, rmatch_Star, rmatch_blank.
  rewrite greedy_commit; [| | lia].
  - rewrite rmatch_Plus, newline_body.
    destruct (eat_newline (skip is_blank s)) as [t|]; [|reflexivity].
    now apply newline_run.
  - intros c t Hc. rewrite rmatch_Plus, newline_body. unfold eat_newline.
    destruct (c =? LF)%N eqn:E1.
    { apply N.eqb_eq in E1. subst c. discriminate Hc. }
    destruct (c =? CR)%N eqn:E2; [|reflexivity].
    apply N.eqb_eq in E2. subst c. discriminate Hc.
Qed.

Lemma value_body (A : Type) s (k : str -> option A) :
  rmatch (Alt (NotSet [BANG; COMMA_CHAR; SEMICOLON_CHAR; LF])
              (Set_ [ASTERISK])) s k
  = one valuechar s k.
Proof.
  cbn [rmatch]. destruct s as [|c t]; [reflexivity|]. cbn [one].
  fold (valuechar c).
  destruct (valuechar c) eqn:Hv.
  - destruct (k t); [reflexivity|]. cbn [orelse].
    now destruct (mem c [ASTERISK]).
  - cbn [orelse]. destruct (mem c [ASTERISK]) eqn:Hm; [|reflexivity].
    unfold mem in Hm. simpl in Hm. rewrite orb_false_r in Hm.
    apply N.eqb_eq in Hm. subst c. discriminate Hv.
Qed.

Lemma value_tail s :
  rmatch (Seq (Plus (Alt (NotSet [BANG; COMMA_CHAR; SEMICOLON_CHAR; LF])
                         (Set_ [ASTERISK])))
              (Star (Set_ blank))) s (fun r => Some r)
  = match_VALUE s.
Proof.
  rewrite rmatch_Seq, rmatch_Plus, value_body. unfold match_VALUE, one.
  destruct s as [|c t]; [reflexivity|].
  destruct (valuechar c); [|reflexivity].
  rewrite (@greedy_one_body _ _ valuechar) by (intros; apply value_body).
  apply greedy_longest; [lia|].
  rewrite star_blank_total.
  f_equal. apply skip_weaker. exact blank_valuechar.
Qed.

Lemma match_VALUE_blank c t :
  is_blank c = true ->
  orelse (match_VALUE t) (match_VALUE (c :: t)) = match_VALUE (c :: t).
Proof.
  intros Hc. unfold match_VALUE at 2 3. rewrite (blank_valuechar _ Hc).
  destruct t as [|c' t']; simpl; [reflexivity|].
  destruct (valuechar c'); reflexivity.
Qed.

Lemma re_VALUE_spec s : re_match re_VALUE s = match_VALUE s.
Proof.
  unfold re_match, re_VALUE. rewrite rmatch_Seq, rmatch_Star, rmatch_blank.
  rewrite (@greedy_one_cont _ is_blank _ match_VALUE) by (intros; apply value_tail).
  generalize (Nat.le_refl (length s)).
  generalize (length s) at 2 3. intros n. revert s.
  induction n as [|n IH]; intros s Hn.
  - destruct s; [reflexivity | simpl in Hn; lia].
  - destruct s as [|c t]; [reflexivity|]. cbn [greedy one].
    destruct (is_blank c) eqn:Hc; [|reflexivity].
    rewrite ltb_tail, IH by (simpl in Hn; lia).
    now apply match_VALUE_blank.
Qed.

Lemma re_delimiter_spec d s :
  is_blank d = false ->
  re_match (Seq (Star (Set_ blank)) (Seq (Lit d) (Star (Set_ blank)))) s
  = match_delimiter d s.
Proof.
  intros Hd. unfold re_match, match_delimiter.
  rewrite rmatch_Seq, rmatch_Star, rmatch_blank.
  rewrite greedy_commit; [| | lia].
  - rewrite rmatch_Seq, rmatch_Lit.
    destruct (skip is_blank s) as [|c r]; [reflexivity|].
    destruct (c =? d)%N; [|reflexivity].
    apply star_blank_total.
  - intros c t Hc. rewrite rmatch_Seq, rmatch_Lit.
    destruct (c =? d)%N eqn:E; [|reflexivity].
    apply N.eqb_eq in E. subst c. congruence.
Qed.

Lemma first_match_master s : first_match lexre s = master s.
Proof.
  unfold first_match, lexre, master.
  rewrite re_COMMENT_spec, re_newline_spec, re_VALUE_spec.
  unfold re_COMMA, re_SEMICOLON. rewrite !re_delimiter_spec by reflexivity.
  reflexivity.
Qed.

(** ** Every match consumes input *)

Section Consumption.
Variable A : Type.
Implicit Types (k : str -> option A) (s : str).

Lemma one_consuming p : consuming true (one (A:=A) p).
Proof.
  intros [|c t] k x; simpl; [discriminate|].
  destruct (p c); [|discriminate]. intros H.
  exists [c], t. repeat split; [assumption | discriminate].
Qed.

Lemma greedy_consuming (body : str -> (str -> option A) -> option A) :
  consuming false body -> forall n, consuming false (greedy body n).
Proof.
  intros Hb n. induction n as [|n IH]; intros s k x H.
  - exists [], s. repeat split; [exact H | discriminate].
  - cbn [greedy] in H.
    destruct (body s _) as [y|] eqn:E; cbn [orelse] in H.
    + injection H as ->. apply Hb in E as (m1 & s1 & -> & E & _).
      destruct (_ <? _)%nat; [|discriminate].
      apply IH in E as (m2 & s2 & -> & E & _).
      exists (m1 ++ m2), s2. rewrite app_assoc.
      repeat split; [exact E | discriminate].
    + exists [], s. repeat split; [exact H | discriminate].
Qed.

Lemma consuming_weaken b (body : str -> (str -> option A) -> option A) :
  consuming b body -> consuming false body.
Proof.
  intros Hb s k x H. apply Hb in H as (m & s' & -> & E & _).
  exists m, s'. repeat split; [exact E | discriminate].
Qed.

Lemma rmatch_consuming r :
  consuming (negb (nullable r)) (rmatch (A:=A) r).
Proof.
  induction r as [c|cs|cs| |r1 IH1 r2 IH2|r1 IH1 r2 IH2|r IH|r IH|r IH];
    cbn [nullable rmatch negb];
    try apply one_consuming.
  - intros s k x H. apply IH1 in H as (m1 & s1 & -> & H & N1).
    apply IH2 in H as (m2 & s2 & -> & H & N2).
    exists (m1 ++ m2), s2. rewrite app_assoc. repeat split; [exact H|].
    intros Hn Hm. apply app_eq_nil in Hm as [-> ->].
    rewrite negb_andb in Hn. apply orb_true_iff in Hn as [Hn|Hn];
      [now apply N1 | now apply N2].
  - intros s k x H. rewrite negb_orb.
    destruct (rmatch r1 s k) as [y|] eqn:E; cbn [orelse] in H.
    + injection H as ->. apply IH1 in E as (m & s' & -> & E & N1).
      exists m, s'. repeat split; [exact E|].
      intros Hn. apply andb_true_iff in Hn as [Hn _]. now apply N1.
    + apply IH2 in H as (m & s' & -> & E' & N2).
      exists m, s'. repeat split; [exact E'|].
      intros Hn. apply andb_true_iff in Hn as [_ Hn]. now apply N2.
  - intros s k x H.
    exact (greedy_consuming (consuming_weaken IH) _ _ _ H).
  - intros s k x H. apply IH in H as (m1 & s1 & -> & H & N1).
    apply (greedy_consuming (consuming_weaken IH)) in H
      as (m2 & s2 & -> & H & _).
    exists (m1 ++ m2), s2. rewrite app_assoc. repeat split; [exact H|].
    intros Hn Hm. apply app_eq_nil in Hm as [-> ->]. now apply N1.
  - intros s k x H.
    destruct (rmatch r s k) as [y|] eqn:E; cbn [orelse] in H.
    + injection H as ->. apply IH in E as (m & s' & -> & E & _).
      exists m, s'. repeat split; [exact E | discriminate].
    + exists [], s. repeat split; [exact H | discriminate].
Qed.
End Consumption.

Lemma matched_app m rest : matched (m ++ rest) rest = m.
Proof.
  unfold matched. rewrite length_app, Nat.add_sub.
  rewrite firstn_app, Nat.sub_diag, firstn_all. simpl. apply app_nil_r.
Qed.

Lemma re_match_consumes r s rest :
  nullable r = false -> re_match r s = Some rest ->
  exists m, m <> [] /\ s = m ++ rest.
Proof.
  intros Hn H. apply rmatch_consuming in H as (m & s' & -> & [= ->] & N).
  exists m. split; [apply N; now rewrite Hn | reflexivity].
Qed.

(** PLY's check on the rules holds: none matches the empty text, so each
    match of the master regex takes at least one character. *)
Lemma first_match_consumes s n rest :
  first_match lexre s = Some (n, rest) ->
  exists m, m <> [] /\ s = m ++ rest.
Proof.
  unfold first_match, lexre.
  repeat match goal with
         | |- context [re_match ?r s] =>
             let E := fresh "E" in
             destruct (re_match r s) eqn:E;
             [ intros H; injection H as <- <-; revert E;
               now apply re_match_consumes | ]
         end.
  discriminate.
Qed.

(** ** The lexer never fails *)

Lemma not_valuechar c :
  valuechar c = false ->
  c = BANG \/ c = COMMA_CHAR \/ c = SEMICOLON_CHAR \/ c = LF.
Proof.
  unfold valuechar, mem. simpl. rewrite negb_false_iff, !orb_true_iff.
  rewrite !N.eqb_eq. intuition discriminate.
Qed.

(** Every character starts a match of some rule: [!] a COMMENT, a line
    feed a newline run, [,] a COMMA, [;] a SEMICOLON, any other a VALUE. *)
Lemma master_total c t : master (c :: t) <> None.
Proof.
  unfold master.
  destruct (match_COMMENT (c :: t)) eqn:E1; [discriminate|].
  destruct (match_newline (c :: t)) eqn:E2; [discriminate|].
  destruct (match_VALUE (c :: t)) eqn:E3; [discriminate|].
  unfold match_VALUE in E3.
  destruct (valuechar c) eqn:Hv; [discriminate|].
  apply not_valuechar in Hv as [-> | [-> | [-> | ->]]].
  - discriminate E1.
  - discriminate.
  - discriminate.
  - discriminate E2.
Qed.

Lemma t_error_unreachable s : s <> [] -> first_match lexre s <> None.
Proof.
  destruct s as [|c t]; [congruence|]. intros _.
  rewrite first_match_master. apply master_total.
Qed.

(** ** [Lexer.token()] without its step bound *)

Lemma token_loop_fuel n1 : forall n2 lx,
  (length (lexdata lx) <= n1)%nat -> (length (lexdata lx) <= n2)%nat ->
  token_loop n1 lx = token_loop n2 lx.
Proof.
  induction n1 as [|n1 IH]; intros n2 [s l] H1 H2; simpl in H1, H2.
  - destruct s; [now destruct n2 | simpl in H1; lia].
  - destruct s as [|c t]; [now destruct n2|].
    destruct n2 as [|n2]; [simpl in H2; lia|].
    cbn [token_loop lexdata lexer_lineno].
    destruct (first_match lexre (c :: t)) as [[n rest]|] eqn:E; [|reflexivity].
    apply first_match_consumes in E as (m & Hm & E).
    assert (length rest < length (c :: t))%nat as Hl.
    { rewrite E, length_app. destruct m; [congruence | simpl; lia]. }
    simpl in H1, H2, Hl.
    destruct n; cbn [lexindexfunc t_COMMENT t_newline t_VALUE];
      try reflexivity; apply IH; simpl; lia.
Qed.

(** One scan step: a comment is dropped and leaves the line counter
    alone, a newline run is dropped and adds the length of its text to
    the counter, anything else is the next token. *)
Lemma token_step s l :
  token {| lexdata := s; lexer_lineno := l |} =
  match s with
  | [] => Eof
  | _ :: _ =>
      match master s with
      | Some (COMMENT, rest) => token {| lexdata := rest; lexer_lineno := l |}
      | Some (newline, rest) =>
          token {| lexdata := rest;
                   lexer_lineno := l + Z.of_nat (length (matched s rest)) |}
      | Some (n, rest) =>
          Token {| type := n; value := matched s rest; lineno := l |}
                {| lexdata := rest; lexer_lineno := l |}
      | None =>
          Raised (t_error {| type := error; value := s; lineno := l |}
                          {| lexdata := s; lexer_lineno := l |})
      end
  end.
Proof.
  unfold token. cbn [lexdata].
  destruct s as [|c t]; [reflexivity|].
  cbn [length token_loop lexdata lexer_lineno].
  rewrite <- first_match_master.
  destruct (first_match lexre (c :: t)) as [[n rest]|] eqn:E; [|reflexivity].
  apply first_match_consumes in E as (m & Hm & E).
  assert (length rest <= length t)%nat as Hl.
  { apply (f_equal (@length _)) in E. rewrite length_app in E.
    destruct m; [congruence | simpl in E; lia]. }
  destruct n; cbn [lexindexfunc t_COMMENT t_newline t_VALUE];
    try reflexivity; apply token_loop_fuel; simpl; lia.
Qed.

(** The lexer never raises: a call of [token] gives a token and moves
    on, or reports the end of the text. *)
Lemma token_total lx :
  token lx = Eof \/
  exists t lx', token lx = Token t lx' /\
                (length (lexdata lx') < length (lexdata lx))%nat.
Proof.
  remember (length (lexdata lx)) as n eqn:Hn.
  revert lx Hn. induction n as [n IH] using lt_wf_ind. intros [s l] Hn.
  rewrite token_step. destruct s as [|c t]; [now left|].
  destruct (master (c :: t)) as [[n' rest]|] eqn:E;
    [|now apply master_total in E].
  rewrite <- first_match_master in E.
  apply first_match_consumes in E as (m & Hm & E).
  assert (length rest < length (c :: t))%nat as Hl.
  { rewrite E, length_app. destruct m; [congruence | simpl; lia]. }
  cbn [lexdata] in *. subst n.
  destruct n';
    try (right; eexists; eexists; split; [reflexivity | exact Hl]).
  - destruct (IH (length rest)
                 ltac:(lia) {| lexdata := rest; lexer_lineno := l |} eq_refl)
      as [H|(t' & lx' & H & Hl')]; [now left|].
    right. exists t', lx'. split; [exact H | cbn [lexdata] in *; lia].
  - destruct (IH (length rest) ltac:(lia)
                 {| lexdata := rest;
                    lexer_lineno := l + Z.of_nat (length (matched (c :: t) rest)) |}
                 eq_refl)
      as [H|(t' & lx' & H & Hl')]; [now left|].
    right. exists t', lx'. split; [exact H | cbn [lexdata] in *; lia].
Qed.

Lemma token_empty l : token {| lexdata := []; lexer_lineno := l |} = Eof.
Proof. reflexivity. Qed.

Lemma tokens_from_fuel n1 : forall n2 lx,
  (length (lexdata lx) <= n1)%nat -> (length (lexdata lx) <= n2)%nat ->
  tokens_from n1 lx = tokens_from n2 lx.
Proof.
  induction n1 as [|n1 IH]; intros n2 lx H1 H2.
  - destruct lx as [[|c t] l]; [|simpl in H1; lia].
    destruct n2; [reflexivity|]. reflexivity.
  - destruct n2 as [|n2].
    + destruct lx as [[|c t] l]; [reflexivity | simpl in H2; lia].
    + cbn [tokens_from].
      destruct (token_total lx) as [H|(t & lx' & H & Hl)]; rewrite H;
        [reflexivity|].
      f_equal. apply IH; lia.
Qed.

Lemma tokens_of_step lx :
  tokens_of lx =
  match token lx with
  | Token t lx' => t :: tokens_of lx'
  | _ => []
  end.
Proof.
  unfold tokens_of at 1.
  destruct (token_total lx) as [H|(t & lx' & H & Hl)]; rewrite H.
  - destruct (length (lexdata lx)); [reflexivity|]. cbn [tokens_from].
    now rewrite H.
  - destruct (length (lexdata lx)) as [|n] eqn:En; [lia|].
    cbn [tokens_from]. rewrite H. f_equal.
    apply tokens_from_fuel; lia.
Qed.

Lemma tokens_of_length lx :
  (length (tokens_of lx) <= length (lexdata lx))%nat.
Proof.
  remember (length (lexdata lx)) as n eqn:Hn.
  revert lx Hn. induction n as [n IH] using lt_wf_ind. intros lx Hn.
  rewrite tokens_of_step.
  destruct (token_total lx) as [H|(t & lx' & H & Hl)]; rewrite H;
    [simpl; lia|].
  subst n.
  specialize (IH (length (lexdata lx')) Hl lx' eq_refl). simpl. lia.
Qed.

Lemma tokens_of_cons lx t ts :
  tokens_of lx = t :: ts ->
  exists lx', token lx = Token t lx' /\ tokens_of lx' = ts.
Proof.
  rewrite tokens_of_step.
  destruct (token lx) as [t' lx'| |e]; [|discriminate|discriminate].
  intros [= -> <-]. now exists lx'.
Qed.

Lemma tokens_of_nil lx : tokens_of lx = [] -> token lx = Eof.
Proof.
  rewrite tokens_of_step.
  destruct (token_total lx) as [H|(t & lx' & H & _)]; rewrite H;
    [reflexivity | discriminate].
Qed.

(** ** The shift/reduce loop follows [read] *)

Section Simulation.
Variable upper : str -> str.
#[local] Abbreviation run := (run upper).
#[local] Abbreviation step := (step upper).
#[local] Abbreviation reaches := (reaches upper).
#[local] Abbreviation finishes := (finishes upper).

Lemma reaches_step cfg cfg' : step cfg = inl cfg' -> reaches 1 cfg cfg'.
  Proof. intros H fuel. simpl. now rewrite H. Qed.

Lemma finishes_step cfg r : step cfg = inr r -> finishes 1 cfg r.
  Proof. intros H fuel. simpl. now rewrite H. Qed.

Lemma reaches_refl cfg : reaches 0 cfg cfg.
  Proof. intros fuel. reflexivity. Qed.

Lemma reaches_trans n m c1 c2 c3 :
    reaches n c1 c2 -> reaches m c2 c3 -> reaches (n + m) c1 c3.
  Proof.
    intros H1 H2 fuel. rewrite <- Nat.add_assoc, H1. apply H2.
  Qed.

Lemma reaches_finishes n m c1 c2 r :
    reaches n c1 c2 -> finishes m c2 r -> finishes (n + m) c1 r.
  Proof.
    intros H1 H2 fuel. rewrite <- Nat.add_assoc, H1. apply H2.
  Qed.

Lemma finishes_run n cfg r fuel :
    finishes n cfg r -> (n <= fuel)%nat -> run fuel cfg = r.
  Proof.
    intros H Hn. replace fuel with (n + (fuel - n))%nat by lia. apply H.
  Qed.

Lemma objects_stack_state done base :
    objects_stack done base -> state_of base = 0%nat \/ state_of base = 3%nat.
  Proof. intros []; [now left | now right]. Qed.

Lemma objects_stack_length done base :
    objects_stack done base -> length base = length done.
  Proof. induction 1; simpl; congruence. Qed.

Lemma values_stack_state n c0 base vs stk :
    values_stack n c0 base vs stk ->
    state_of stk = 8%nat \/ state_of stk = 12%nat.
  Proof. intros []; [now left | now right]. Qed.

Lemma values_stack_length n c0 base vs stk :
    values_stack n c0 base vs stk ->
    length stk = (2 * length vs + 2 + length base)%nat.
  Proof. induction 1; simpl; lia. Qed.

  (** The reductions of [valuelist] once the semicolon is in sight: one
      per value on the stack, the list growing at its front. *)
Lemma valuelist_cascade n c0 base lx la vs stk :
    values_stack n c0 base vs stk ->
    forall acc st,
      goto (state_of stk) valuelist = Some st ->
      reaches (length vs)
        {| lexer := lx; lookahead := Some la;
           stack := (st, PFields acc) :: stk |}
        {| lexer := lx; lookahead := Some la;
           stack := (9%nat, PFields (rev (map strip vs) ++ acc))
                      :: (8%nat, PStr c0) :: (4%nat, PStr (strip n)) :: base |}.
  Proof.
    induction 1 as [|c v vs stk Hs IH]; intros acc st Hg.
    - injection Hg as <-. apply reaches_refl.
    - injection Hg as <-.
      destruct (values_stack_state Hs) as [E|E].
      + change (length (v :: vs)) with (1 + length vs)%nat.
        eapply reaches_trans.
        * apply reaches_step. unfold step, reduce. cbn. rewrite E. cbn.
          reflexivity.
        * cbn [map rev]. rewrite <- app_assoc. apply IH. now rewrite E.
      + change (length (v :: vs)) with (1 + length vs)%nat.
        eapply reaches_trans.
        * apply reaches_step. unfold step, reduce. cbn. rewrite E. cbn.
          reflexivity.
        * cbn [map rev]. rewrite <- app_assoc. apply IH. now rewrite E.
  Qed.

(** The reductions of [idfobjectlist] at the end of the text: one per
    object on the stack, the list growing at its front. *)
Lemma idfobjectlist_cascade lx done base :
  objects_stack done base ->
  forall acc st,
    goto (state_of base) idfobjectlist = Some st ->
    reaches (length done)
      {| lexer := lx; lookahead := Some EndMarker;
         stack := (st, PObjects acc) :: base |}
      {| lexer := lx; lookahead := Some EndMarker;
         stack := [(2%nat, PObjects (rev done ++ acc))] |}.
Proof.
  induction 1 as [|o done base Hb IH]; intros acc st Hg.
  - injection Hg as <-. apply reaches_refl.
  - injection Hg as <-.
    change (length (o :: done)) with (1 + length done)%nat.
    destruct (objects_stack_state Hb) as [E|E].
    + eapply reaches_trans.
      * apply reaches_step. unfold step, reduce. cbn. rewrite E. cbn.
        reflexivity.
      * cbn [rev]. rewrite <- app_assoc. apply IH. now rewrite E.
    + eapply reaches_trans.
      * apply reaches_step. unfold step, reduce. cbn. rewrite E. cbn.
        reflexivity.
      * cbn [rev]. rewrite <- app_assoc. apply IH. now rewrite E.
Qed.

(** From a reduced object list to the answer: [p_idffile], then accept. *)
Lemma idffile_finish lx l :
  finishes 2
    {| lexer := lx; lookahead := Some EndMarker;
       stack := [(2%nat, PObjects l)] |}
    match p_idffile_loop upper l [] with
    | Some d => Returned d
    | None => Broken
    end.
Proof.
  destruct (p_idffile_loop upper l []) as [d|] eqn:E.
  - change 2%nat with (1 + 1)%nat. eapply reaches_finishes.
    + apply reaches_step. unfold step, reduce. cbn. rewrite E. cbn.
      reflexivity.
    + apply finishes_step. reflexivity.
  - intros fuel. cbn. unfold reduce. cbn. now rewrite E.
Qed.

(** The end of the text after a complete object. *)
Lemma finish_after_object lx done base o top :
  objects_stack done base ->
  reaches 1 {| lexer := lx; lookahead := None; stack := top |}
            {| lexer := lx; lookahead := Some EndMarker;
               stack := (3%nat, PFields o) :: base |} ->
  finishes (length done + 4)
    {| lexer := lx; lookahead := None; stack := top |}
    match p_idffile_loop upper (rev (o :: done)) [] with
    | Some d => Returned d
    | None => Broken
    end.
Proof.
  intros Hb H1.
  replace (length done + 4)%nat with (1 + (1 + (length done + 2)))%nat by lia.
  eapply reaches_finishes; [exact H1|].
  destruct (objects_stack_state Hb) as [E|E].
  - eapply reaches_finishes.
    + apply reaches_step. unfold step, reduce. cbn. rewrite E. cbn.
      reflexivity.
    + eapply reaches_finishes;
        [apply (idfobjectlist_cascade lx Hb); now rewrite E|].
      cbn [rev]. apply idffile_finish.
  - eapply reaches_finishes.
    + apply reaches_step. unfold step, reduce. cbn. rewrite E. cbn.
      reflexivity.
    + eapply reaches_finishes;
        [apply (idfobjectlist_cascade lx Hb); now rewrite E|].
      cbn [rev]. apply idffile_finish.
Qed.

(** Evaluate one iteration of the loop from the facts at hand. *)
Ltac lr_step :=
  unfold step, get_lookahead, reduce;
  repeat (cbn;
          match goal with
          | H : token _ = _ |- _ => rewrite H
          | H : type _ = _ |- _ => rewrite H
          | H : state_of _ = _ |- _ => rewrite H
          | H : goto _ _ = _ |- _ => rewrite H
          end);
  cbn; try reflexivity.

(** The loop on what is left of the text answers as [read] does on the
    tokens left, within a number of iterations bounded by the stack and
    the tokens. *)
Lemma run_read toks : forall pos done lx stk,
  at_position pos done stk ->
  tokens_of lx = toks ->
  exists n,
    (n <= 2 * length stk + 4 * length toks + 4)%nat /\
    finishes n {| lexer := lx; lookahead := None; stack := stk |}
             (read upper pos done toks).
Proof.
  induction toks as [|t toks IH]; intros pos done lx stk Hpos Htoks.
  - apply tokens_of_nil in Htoks.
    inversion Hpos; subst; cbn [read].
    + exists 1%nat. split; [lia|]. apply finishes_step.
      unfold step, get_lookahead. cbn. now rewrite Htoks.
    + exists 1%nat. split; [lia|]. apply finishes_step.
      unfold step, get_lookahead. cbn. now rewrite Htoks.
    + exists 1%nat. split; [lia|]. apply finishes_step.
      unfold step, get_lookahead. cbn [stack lookahead lexer].
      destruct (values_stack_state H0) as [E|E]; rewrite E; cbn;
        now rewrite Htoks.
    + exists 1%nat. split; [lia|]. apply finishes_step.
      unfold step, get_lookahead. cbn. now rewrite Htoks.
    + exists (length done + 4)%nat. split.
      { rewrite <- (objects_stack_length H). simpl. lia. }
      apply finish_after_object with (base := base); [assumption|].
      apply reaches_step. unfold step, get_lookahead, reduce. cbn.
      rewrite Htoks. cbn.
      destruct (objects_stack_state H) as [E|E]; rewrite E; reflexivity.
    + exists (length done + 4)%nat. split.
      { rewrite <- (objects_stack_length H). simpl. lia. }
      apply finish_after_object with (base := base); [assumption|].
      apply reaches_step. unfold step, get_lookahead, reduce. cbn.
      rewrite Htoks. cbn.
      destruct (objects_stack_state H) as [E|E]; rewrite E; reflexivity.
  - apply tokens_of_cons in Htoks as (lx' & Htok & Htoks).
    cbn [read]. unfold advance.
    inversion Hpos; subst.
    + (* at the start *)
      destruct (type t) eqn:Ety;
        try (exists 1%nat; split; [simpl; lia|]; apply finishes_step;
             unfold step, get_lookahead; cbn; rewrite Htok; cbn;
             now rewrite Ety).
      destruct (IH (AfterName (value t)) [] lx' [(5%nat, PStr (value t))])
        as (n & Hn & Hf); [apply at_name; constructor | reflexivity |].
      exists (1 + n)%nat. split; [simpl in *; lia|].
      eapply reaches_finishes; [|exact Hf]. apply reaches_step.
      unfold step, get_lookahead. cbn. rewrite Htok. cbn. now rewrite Ety.
    + (* after the name *)
      destruct (objects_stack_state H) as [E|E].
      all: destruct (type t) eqn:Ety;
        try (exists 1%nat; split; [simpl; lia|]; apply finishes_step;
             unfold step, get_lookahead; cbn; rewrite Htok; cbn;
             now rewrite Ety).
      all: match goal with
           | Hb : objects_stack ?d ?b |- context [AfterComma ?n0 []] =>
               destruct (IH (AfterComma n0 []) d lx'
                            ((8%nat, PStr (value t))
                               :: (4%nat, PStr (strip n0)) :: b))
                 as (k & Hk & Hf);
               [econstructor; [eassumption | constructor] | reflexivity |]
           | Hb : objects_stack ?d ?b
             |- context [AfterSemicolon (object_of ?n0 [])] =>
               destruct (IH (AfterSemicolon (object_of n0 [])) d lx'
                            ((7%nat, PStr (value t))
                               :: (4%nat, PStr (strip n0)) :: b))
                 as (k & Hk & Hf);
               [now constructor | reflexivity |]
           end.
      all: exists (1 + (1 + k))%nat; (split; [simpl in *; lia|]).
      all: eapply reaches_finishes; [apply reaches_step; lr_step|].
      all: eapply reaches_finishes; [apply reaches_step; lr_step | exact Hf].
    + (* after a comma *)
      destruct (values_stack_state H0) as [E|E].
      all: destruct (type t) eqn:Ety;
        try (exists 1%nat; split; [simpl; lia|]; apply finishes_step;
             unfold step, get_lookahead; cbn [stack lookahead lexer];
             rewrite E; cbn; rewrite Htok; cbn; now rewrite Ety).
      all: destruct (IH (AfterValue n vs (value t)) done lx'
                        ((10%nat, PStr (value t)) :: stk))
        as (k & Hk & Hf); [econstructor; eassumption | reflexivity |].
      all: exists (1 + k)%nat; (split; [simpl in *; lia|]).
      all: eapply reaches_finishes; [|exact Hf].
      all: apply reaches_step; unfold step, get_lookahead;
        cbn [stack lookahead lexer]; rewrite E; cbn; rewrite Htok; cbn;
        now rewrite Ety.
    + (* after a value *)
      pose proof (values_stack_length H0) as Hlen.
      destruct (type t) eqn:Ety;
        try (exists 1%nat; split; [simpl; lia|]; apply finishes_step;
             unfold step, get_lookahead; cbn; rewrite Htok; cbn;
             now rewrite Ety).
      * destruct (IH (AfterComma n (v :: vs)) done lx'
                     ((12%nat, PStr (value t)) :: (10%nat, PStr v) :: stk0))
          as (k & Hk & Hf);
          [econstructor; [eassumption | constructor; eassumption]
          | reflexivity |].
        exists (1 + k)%nat. split; [simpl in *; lia|].
        eapply reaches_finishes; [|exact Hf]. apply reaches_step.
        unfold step, get_lookahead. cbn. rewrite Htok. cbn. now rewrite Ety.
      * destruct (IH (AfterSemicolon (object_of n (v :: vs))) done lx'
                     ((11%nat, PStr (value t))
                        :: (9%nat, PFields (rev (map strip vs) ++ [strip v]))
                        :: (8%nat, PStr c0) :: (4%nat, PStr (strip n)) :: base))
          as (k & Hk & Hf); [now apply at_semicolon_values | reflexivity |].
        exists (1 + (length vs + (1 + k)))%nat. split; [simpl in *; lia|].
        assert (exists st, goto (state_of stk0) valuelist = Some st)
          as (st & Hst).
        { destruct (values_stack_state H0) as [E|E]; rewrite E;
            eexists; reflexivity. }
        eapply reaches_finishes;
          [|eapply reaches_finishes;
            [apply (valuelist_cascade lx' (Tok t) H0 [strip v] Hst)|]].
        { apply reaches_step. unfold step, get_lookahead, reduce. cbn.
          rewrite Htok. cbn. rewrite Ety. cbn. now rewrite Hst. }
        eapply reaches_finishes; [|exact Hf]. apply reaches_step.
        unfold step, get_lookahead. cbn. now rewrite Ety.
    + (* after the semicolon of an object without fields *)
      destruct (objects_stack_state H) as [E|E].
      all: destruct (type t) eqn:Ety;
        try (exists 1%nat; split; [simpl; lia|]; apply finishes_step;
             unfold step, get_lookahead; cbn; rewrite Htok; cbn;
             now rewrite Ety).
      all: destruct (IH (AfterName (value t)) ([name] :: done) lx'
                        ((5%nat, PStr (value t))
                           :: (3%nat, PFields [name]) :: base))
        as (k & Hk & Hf);
        [apply at_name; now constructor | reflexivity |].
      all: exists (1 + (1 + k))%nat; (split; [simpl in *; lia|]).
      all: eapply reaches_finishes; [apply reaches_step; lr_step|].
      all: eapply reaches_finishes; [apply reaches_step; lr_step | exact Hf].
    + (* after the semicolon of an object with fields *)
      destruct (objects_stack_state H) as [E|E].
      all: destruct (type t) eqn:Ety;
        try (exists 1%nat; split; [simpl; lia|]; apply finishes_step;
             unfold step, get_lookahead; cbn; rewrite Htok; cbn;
             now rewrite Ety).
      all: destruct (IH (AfterName (value t)) ((name :: l) :: done) lx'
                        ((5%nat, PStr (value t))
                           :: (3%nat, PFields (name :: l)) :: base))
        as (k & Hk & Hf);
        [apply at_name; now constructor | reflexivity |].
      all: exists (1 + (1 + k))%nat; (split; [simpl in *; lia|]).
      all: eapply reaches_finishes; [apply reaches_step; lr_step|].
      all: eapply reaches_finishes; [apply reaches_step; lr_step | exact Hf].
Qed.

(** [parse] is [read] on the token stream of the text: the lexer and
    the step bound never get in the way. *)
Theorem parse_reads text :
  parse upper text = read upper AtStart [] (tokens text).
Proof.
  destruct (@run_read (tokens text) AtStart [] (lex text) [])
    as (n & Hn & Hf); [constructor | reflexivity |].
  unfold parse. apply (finishes_run Hf).
  pose proof (tokens_of_length (lex text)) as Hl.
  change (lexdata (lex text)) with text in Hl.
  unfold tokens in Hn. cbn [length] in Hn. lia.
Qed.
End Simulation.

(** ** Reading token by token and the grammar *)

Lemma walk_app pos done pre rest :
  walk pos done (pre ++ rest) =
  match walk pos done pre with
  | Some (pos', done') => walk pos' done' rest
  | None => None
  end.
Proof.
  revert pos done. induction pre as [|t pre IH]; intros pos done;
    [reflexivity|].
  cbn [app walk]. destruct (advance pos done t) as [[pos' done']|];
    [apply IH | reflexivity].
Qed.

Lemma spans_valuelist_snoc ts l c v :
  spans_valuelist ts l -> type c = COMMA -> type v = VALUE ->
  spans_valuelist (ts ++ [c; v]) (l ++ [strip (value v)]).
Proof.
  intros H Hc Hv. induction H as [v0 H0|v0 c0 ts l H0 Hc0 H IH].
  - cbn [app]. apply valuelist_multiple; [assumption | assumption |].
    now apply valuelist_single.
  - cbn [app]. now apply valuelist_multiple.
Qed.

Lemma spans_idfobjectlist_snoc pre l ts o :
  spans_idfobjectlist pre l -> spans_idfobject ts o ->
  spans_idfobjectlist (pre ++ ts) (l ++ [o]).
Proof.
  intros H Ho. induction H as [ts0 o0 H0|ts1 o1 ts2 l H1 H2 IH].
  - apply idfobjectlist_multiple; [assumption|].
    now apply idfobjectlist_single.
  - rewrite <- !app_assoc. now apply idfobjectlist_multiple.
Qed.

Lemma complete_snoc pre done ts o :
  complete pre done -> spans_idfobject ts o ->
  spans_idfobjectlist (pre ++ ts) (rev (o :: done)).
Proof.
  intros [[-> ->]|H] Ho.
  - now apply idfobjectlist_single.
  - cbn [rev]. now apply spans_idfobjectlist_snoc.
Qed.

(** One more token keeps the description of what has been read. *)
Lemma walked_advance toks pos done t pos' done' :
  walked toks pos done -> advance pos done t = Some (pos', done') ->
  walked (toks ++ [t]) pos' done'.
Proof.
  unfold advance.
  destruct pos as [|n|n vs|n vs v|o]; destruct (type t) eqn:Ety;
    try discriminate; intros Hw [= <- <-].
  - destruct Hw as [-> ->]. exists [], [t]. repeat split.
    + now left.
    + now exists t.
  - destruct Hw as (pre & part & -> & Hc & t0 & -> & Ht0 & Hn).
    exists pre, [t0; t]. rewrite <- app_assoc. repeat split; [assumption|].
    exists t0, t. now repeat split.
  - destruct Hw as (pre & part & -> & Hc & t0 & -> & Ht0 & Hn).
    exists pre, [t0; t]. rewrite <- app_assoc. repeat split; [assumption|].
    cbn [current object_of map rev]. subst n. now apply idfobject_bare.
  - destruct Hw as (pre & part & -> & Hc & t0 & c & Ht0 & Hn & Hc0 & Hvs).
    destruct vs as [|v vs].
    + subst part. exists pre, [t0; c; t]. rewrite <- app_assoc.
      repeat split; [assumption|].
      exists t0, c, [t]. repeat split; try assumption.
      now apply valuelist_single.
    + destruct Hvs as (ts & c' & -> & Hc' & Hvl).
      exists pre, (t0 :: c :: (ts ++ [c'; t])). repeat split; [|assumption|].
      * rewrite <- !app_assoc. cbn [app]. now rewrite <- app_assoc.
      * exists t0, c, (ts ++ [c'; t]). repeat split; try assumption.
        change (rev (map strip (value t :: v :: vs)))
          with (rev (map strip (v :: vs)) ++ [strip (value t)]).
        now apply spans_valuelist_snoc.
  - destruct Hw as (pre & part & -> & Hc & t0 & c & ts & -> & Ht0 & Hn & Hc0 & Hvl).
    exists pre, (t0 :: c :: ts ++ [t]). repeat split; [|assumption|].
    + now rewrite <- !app_assoc.
    + exists t0, c. repeat split; try assumption.
      exists ts, t. now repeat split.
  - destruct Hw as (pre & part & -> & Hc & t0 & c & ts & -> & Ht0 & Hn & Hc0 & Hvl).
    exists pre, (t0 :: c :: ts ++ [t]). repeat split; [|assumption|].
    + now rewrite <- !app_assoc.
    + cbn [current]. subst n. unfold object_of.
      now apply idfobject_with_values.
  - destruct Hw as (pre & part & -> & Hc & Ho).
    exists (pre ++ part), [t]. repeat split.
    + right. now apply complete_snoc.
    + now exists t.
Qed.

Lemma walk_snoc pos done ts t :
  walk pos done (ts ++ [t]) =
  match walk pos done ts with
  | Some (pos', done') => advance pos' done' t
  | None => None
  end.
Proof.
  rewrite walk_app. destruct (walk pos done ts) as [[pos' done']|];
    [|reflexivity].
  cbn [walk]. now destruct (advance pos' done' t) as [[? ?]|].
Qed.

Lemma walk_walked ts : forall pos done,
  walk AtStart [] ts = Some (pos, done) -> walked ts pos done.
Proof.
  induction ts as [|t ts IH] using rev_ind; intros pos done.
  - intros [= <- <-]. now split.
  - rewrite walk_snoc.
    destruct (walk AtStart [] ts) as [[pos0 done0]|]; [|discriminate].
    intros H. eapply walked_advance; [apply IH; reflexivity | exact H].
Qed.

(** Soundness: a token sequence read through to the semicolon of an
    object is an [idfobjectlist], with the objects in reading order. *)
Lemma walk_sound ts o done :
  walk AtStart [] ts = Some (AfterSemicolon o, done) ->
  spans_idfobjectlist ts (rev (o :: done)).
Proof.
  intros H. apply walk_walked in H as (pre & part & -> & Hc & Ho).
  now apply complete_snoc.
Qed.

Lemma walk_valuelist ts l :
  spans_valuelist ts l ->
  forall n vs done s rest,
    type s = SEMICOLON ->
    walk (AfterComma n vs) done (ts ++ s :: rest) =
    walk (AfterSemicolon (strip n :: rev (map strip vs) ++ l)) done rest.
Proof.
  induction 1 as [v Hv|v c ts l Hv Hc H IH]; intros n vs done s rest Hs.
  - cbn [app walk]. unfold advance. rewrite Hv, Hs. reflexivity.
  - cbn [app walk]. unfold advance at 1. rewrite Hv.
    unfold advance at 1. rewrite Hc.
    rewrite IH by assumption. cbn [map rev]. now rewrite <- app_assoc.
Qed.

Lemma walk_idfobject ts o :
  spans_idfobject ts o ->
  forall pos done done' rest,
    boundary pos done done' ->
    walk pos done (ts ++ rest) = walk (AfterSemicolon o) done' rest.
Proof.
  intros H pos done done' rest Hb.
  assert (forall t, type t = VALUE ->
                    advance pos done t = Some (AfterName (value t), done'))
    as Hname.
  { intros t Ht. unfold advance. rewrite Ht.
    destruct Hb as [[-> ->]|(o0 & -> & ->)]; reflexivity. }
  destruct H as [n s Hn Hs|n c ts s l Hn Hc Hs Hl].
  - cbn [app walk]. rewrite (Hname n Hn).
    unfold advance. now rewrite Hs.
  - cbn [app walk]. rewrite (Hname n Hn).
    unfold advance at 1. rewrite Hc. rewrite <- app_assoc. cbn [app].
    now rewrite (walk_valuelist Hl).
Qed.

Lemma walk_idfobjectlist ts l :
  spans_idfobjectlist ts l ->
  forall pos done done',
    boundary pos done done' ->
    exists o d, walk pos done ts = Some (AfterSemicolon o, d) /\
                rev (o :: d) = rev done' ++ l.
Proof.
  induction 1 as [ts o Ho|ts1 o ts2 l Ho H IH]; intros pos done done' Hb.
  - exists o, done'. split; [|reflexivity].
    rewrite <- (app_nil_r ts). now rewrite (walk_idfobject Ho _ Hb).
  - rewrite (walk_idfobject Ho _ Hb).
    destruct (IH (AfterSemicolon o) done' (o :: done'))
      as (o' & d & Hw & Hr); [right; now exists o|].
    exists o', d. split; [exact Hw|].
    rewrite Hr. cbn [rev]. now rewrite <- app_assoc.
Qed.

(** Completeness: the tokens of an [idfobjectlist] read through to the
    semicolon of its last object. *)
Lemma walk_complete ts l :
  spans_idfobjectlist ts l ->
  exists o d, walk AtStart [] ts = Some (AfterSemicolon o, d) /\
              rev (o :: d) = l.
Proof.
  intros H.
  destruct (walk_idfobjectlist H (pos := AtStart) (done := []) (done' := []))
    as (o & d & Hw & Hr); [now left|].
  now exists o, d.
Qed.

(** The grammar accepts exactly the sequences read through to the
    semicolon of an object. *)
Lemma sentence_walk ts :
  sentence ts <-> exists o d, walk AtStart [] ts = Some (AfterSemicolon o, d).
Proof.
  split.
  - intros (l & H). apply walk_complete in H as (o & d & H & _).
    now exists o, d.
  - intros (o & d & H). exists (rev (o :: d)). now apply walk_sound.
Qed.

Section ReadFacts.
Variable upper : str -> str.

Lemma read_walk ts : forall pos done pos' done',
  walk pos done ts = Some (pos', done') ->
  read upper pos done ts = read upper pos' done' [].
Proof.
  induction ts as [|t ts IH]; intros pos done pos' done'.
  - now intros [= <- <-].
  - cbn [walk read]. destruct (advance pos done t) as [[p d]|];
      [apply IH | discriminate].
Qed.

Lemma read_reject pre : forall pos done p d t post,
  walk pos done pre = Some (p, d) -> advance p d t = None ->
  read upper pos done (pre ++ t :: post) = SyntaxErrorAt (value t) (lineno t).
Proof.
  induction pre as [|t0 pre IH]; intros pos done p d t post.
  - intros [= <- <-] H. cbn [app read]. now rewrite H.
  - cbn [walk app read]. destruct (advance pos done t0) as [[p0 d0]|];
      [apply IH | discriminate].
Qed.

(** A token sequence is read through, or stops at its first token that
    cannot follow. *)
Lemma walk_cases ts : forall pos done,
  (exists p d, walk pos done ts = Some (p, d)) \/
  (exists pre t post p d,
      ts = pre ++ t :: post /\ walk pos done pre = Some (p, d) /\
      advance p d t = None).
Proof.
  induction ts as [|t ts IH]; intros pos done.
  - left. now exists pos, done.
  - cbn [walk]. destruct (advance pos done t) as [[p0 d0]|] eqn:E.
    + destruct (IH p0 d0) as [H|(pre & t' & post & p & d & -> & Hw & Ha)];
        [now left|].
      right. exists (t :: pre), t', post, p, d. repeat split; [|exact Ha].
      cbn [walk]. now rewrite E.
    + right. exists [], t, ts, pos, done. now repeat split.
Qed.
End ReadFacts.

(** ** The aggregation loop of [p_idffile] *)

Lemma str_eqb_eq a : forall b, str_eqb a b = true <-> a = b.
Proof.
  induction a as [|x a IH]; intros [|y b]; cbn [str_eqb];
    try (split; [discriminate | discriminate]); [now split|].
  rewrite andb_true_iff, N.eqb_eq, IH. split.
  - now intros [-> ->].
  - now intros [= -> ->].
Qed.

Lemma str_eqb_refl a : str_eqb a a = true.
Proof. now apply str_eqb_eq. Qed.

Lemma str_eqb_neq a b : str_eqb a b = false <-> a <> b.
Proof.
  rewrite <- str_eqb_eq. now destruct (str_eqb a b).
Qed.

Lemma str_eqb_sym a b : str_eqb a b = str_eqb b a.
Proof.
  destruct (str_eqb a b) eqn:E.
  - apply str_eqb_eq in E. subst. now rewrite str_eqb_refl.
  - symmetry. apply str_eqb_neq. apply str_eqb_neq in E. congruence.
Qed.

Lemma get_setdefault_append k o d k' :
  get (setdefault_append k o d) k' =
  if str_eqb k k' then
    Some (match get d k with Some os => os ++ [o] | None => [o] end)
  else get d k'.
Proof.
  induction d as [|[k0 os] d IH]; cbn [setdefault_append get].
  - reflexivity.
  - destruct (str_eqb k0 k) eqn:E0; cbn [get].
    + apply str_eqb_eq in E0. subst k0.
      now destruct (str_eqb k k').
    + rewrite IH. destruct (str_eqb k k') eqn:E; [|reflexivity].
      apply str_eqb_eq in E. subst k'. now rewrite E0.
Qed.

Lemma keys_setdefault_append k o d :
  map fst (setdefault_append k o d) =
  if has_key d k then map fst d else map fst d ++ [k].
Proof.
  unfold has_key.
  induction d as [|[k0 os] d IH]; cbn [setdefault_append map fst existsb];
    [reflexivity|].
  destruct (str_eqb k0 k); cbn [orb map fst]; [reflexivity|].
  rewrite IH. now destruct (existsb _ _).
Qed.

Section Aggregation.
Variable upper : str -> str.
#[local] Abbreviation key := (key_of upper).
#[local] Abbreviation group := (grouped upper).

Lemma p_idffile_loop_grouped objs : forall d,
  Forall (fun o => o <> []) objs ->
  p_idffile_loop upper objs d = Some (group objs d).
Proof.
  induction objs as [|o objs IH]; intros d H; [reflexivity|].
  inversion H as [|? ? Ho Hobjs]; subst.
  destruct o as [|name fields]; [congruence|].
  cbn [p_idffile_loop]. now rewrite IH.
Qed.

(** What the loop stores under a key: the objects of that key, in the
    order of the list, after those already there. *)
Lemma get_grouped objs : forall d k,
  get (group objs d) k =
  match get d k, filter (fun o => str_eqb (key o) k) objs with
  | Some os, mine => Some (os ++ mine)
  | None, [] => None
  | None, mine => Some mine
  end.
Proof.
  induction objs as [|o objs IH]; intros d k.
  - cbn [filter]. unfold grouped. cbn [fold_left].
    destruct (get d k); [now rewrite app_nil_r | reflexivity].
  - unfold grouped. cbn [fold_left filter].
    fold (group objs (setdefault_append (key o) o d)).
    rewrite IH, get_setdefault_append.
    destruct (str_eqb (key o) k) eqn:E; [|reflexivity].
    apply str_eqb_eq in E. rewrite <- E.
    destruct (get d (key o)); [now rewrite <- app_assoc | reflexivity].
Qed.

Lemma filter_filter (A : Type) (p q : A -> bool) l :
  filter p (filter q l) = filter (fun x => q x && p x) l.
Proof.
  induction l as [|x l IH]; [reflexivity|]. cbn [filter].
  destruct (q x); cbn [filter andb]; [destruct (p x)|]; now rewrite IH.
Qed.

(** The keys after the loop: those already there, then the new ones in
    their order of first appearance. *)
Lemma keys_grouped objs : forall d,
  map fst (group objs d) =
  map fst d ++
  filter (fun k => negb (has_key d k)) (first_seen (map key objs)).
Proof.
  induction objs as [|o objs IH]; intros d.
  - cbn. now rewrite app_nil_r.
  - unfold grouped. cbn [fold_left map first_seen filter].
    fold (group objs (setdefault_append (key o) o d)).
    rewrite IH, keys_setdefault_append, filter_filter.
    assert (forall d' x,
               map fst d' = (if has_key d (key o) then map fst d
                             else map fst d ++ [key o]) ->
               negb (has_key d' x) =
               negb (str_eqb x (key o)) && negb (has_key d x)) as Hk.
    { intros d' x Hd'. unfold has_key at 1. rewrite Hd'.
      destruct (has_key d (key o)) eqn:E.
      - fold (has_key d x). destruct (has_key d x) eqn:Ex;
          [now rewrite andb_false_r|].
        rewrite andb_true_r. symmetry. apply negb_true_iff, str_eqb_neq.
        intros ->. congruence.
      - rewrite existsb_app. fold (has_key d x). cbn [existsb].
        rewrite orb_false_r, negb_orb, (str_eqb_sym (key o) x).
        apply andb_comm. }
    rewrite (filter_ext _ _ (fun x =>
               Hk (setdefault_append (key o) o d) x
                  (keys_setdefault_append _ _ _))).
    destruct (has_key d (key o)) eqn:E; cbn [negb]; [reflexivity|].
    now rewrite <- app_assoc.
Qed.

Lemma has_key_In d k : has_key d k = true <-> In k (map fst d).
Proof.
  unfold has_key. rewrite existsb_exists. split.
  - intros (x & Hx & E). apply str_eqb_eq in E. now subst.
  - intros H. exists k. split; [assumption | apply str_eqb_refl].
Qed.

Lemma has_key_app d1 d2 k :
  has_key (d1 ++ d2) k = has_key d1 k || has_key d2 k.
Proof. unfold has_key. now rewrite map_app, existsb_app. Qed.

Lemma setdefault_append_fresh k o d :
  has_key d k = false -> setdefault_append k o d = d ++ [(k, [o])].
Proof.
  unfold has_key.
  induction d as [|[k0 os] d IH]; cbn [setdefault_append map fst existsb app];
    [reflexivity|].
  intros H. apply orb_false_iff in H as [E H]. rewrite E. now rewrite IH.
Qed.

Lemma setdefault_append_last k o os d :
  has_key d k = false ->
  setdefault_append k o (d ++ [(k, os)]) = d ++ [(k, os ++ [o])].
Proof.
  unfold has_key.
  induction d as [|[k0 os0] d IH]; cbn [setdefault_append map fst existsb app].
  - now rewrite str_eqb_refl.
  - intros H. apply orb_false_iff in H as [E H]. rewrite E. now rewrite IH.
Qed.

Lemma grouped_same_key k os : forall d l,
  has_key d k = false -> Forall (fun o => key o = k) os ->
  group os (d ++ [(k, l)]) = d ++ [(k, l ++ os)].
Proof.
  induction os as [|o os IH]; intros d l Hk Hos.
  - cbn. now rewrite app_nil_r.
  - inversion Hos as [|? ? Ho Hos']; subst.
    unfold grouped. cbn [fold_left]. rewrite setdefault_append_last by assumption.
    fold (group os (d ++ [(key o, l ++ [o])])).
    rewrite IH by assumption. now rewrite <- app_assoc.
Qed.

Lemma grouped_app objs1 objs2 d :
  group (objs1 ++ objs2) d = group objs2 (group objs1 d).
Proof. unfold grouped. apply fold_left_app. Qed.

Lemma setdefault_append_groups o d :
  Forall (fun g => snd g <> [] /\ Forall (fun o => key o = fst g) (snd g)) d ->
  Forall (fun g => snd g <> [] /\ Forall (fun o => key o = fst g) (snd g))
         (setdefault_append (key o) o d).
Proof.
  induction 1 as [|[k0 os] d [Hne Hos] Hd IH]; cbn [setdefault_append].
  - repeat constructor. discriminate.
  - destruct (str_eqb k0 (key o)) eqn:E.
    + apply str_eqb_eq in E. constructor; [|assumption]. cbn [fst snd] in *.
      split; [now destruct os|].
      apply Forall_app. split; [assumption | now repeat constructor].
    + constructor; [now split | assumption].
Qed.

Lemma setdefault_append_well_grouped o d :
  well_grouped upper d -> well_grouped upper (setdefault_append (key o) o d).
Proof.
  intros [Hk Hg]. split; [|now apply setdefault_append_groups].
  rewrite keys_setdefault_append.
  destruct (has_key d (key o)) eqn:E; [assumption|].
  apply NoDup_app; [assumption | repeat constructor; intros [] |].
  intros x Hx [<-|[]]. apply has_key_In in Hx. congruence.
Qed.

Lemma grouped_well_grouped objs : forall d,
  well_grouped upper d -> well_grouped upper (group objs d).
Proof.
  induction objs as [|o objs IH]; intros d Hd; [exact Hd|].
  unfold grouped. cbn [fold_left]. apply IH.
  now apply setdefault_append_well_grouped.
Qed.

(** Running the loop again on the objects of a mapping it has left,
    key by key, rebuilds the mapping. *)
Lemma regroup d2 : forall d1,
  well_grouped upper (d1 ++ d2) ->
  group (concat (map snd d2)) d1 = d1 ++ d2.
Proof.
  induction d2 as [|[k os] d2 IH]; intros d1 [Hk Hg].
  - cbn. now rewrite app_nil_r.
  - cbn [map snd concat]. rewrite grouped_app.
    rewrite map_app in Hk. cbn [map fst] in Hk.
    apply NoDup_remove_2 in Hk as Hfresh.
    assert (has_key d1 k = false) as Hd1.
    { destruct (has_key d1 k) eqn:E; [|reflexivity].
      apply has_key_In in E. exfalso. apply Hfresh, in_or_app. now left. }
    apply Forall_app in Hg as Hg'. destruct Hg' as [_ Hg2].
    inversion Hg2 as [|? ? [Hne Hos] _]; subst. cbn [fst snd] in *.
    destruct os as [|o os]; [congruence|].
    inversion Hos as [|? ? Ho Hos']; subst.
    unfold grouped at 2. cbn [fold_left].
    rewrite setdefault_append_fresh by assumption.
    fold (group os (d1 ++ [(key o, [o])])).
    rewrite grouped_same_key by assumption. cbn [app].
    rewrite IH.
    + now rewrite <- app_assoc.
    + rewrite <- app_assoc. split; [|assumption].
      now rewrite map_app.
Qed.

Lemma regroup_grouped objs :
  group (concat (map snd (group objs []))) [] = group objs [].
Proof.
  apply (regroup (group objs []) []). cbn [app].
  apply grouped_well_grouped. split; constructor.
Qed.
End Aggregation.

(** ** The tokens of object text *)

Lemma skip_app_stop p w d rest :
  forallb p w = true -> p d = false -> skip p (w ++ d :: rest) = d :: rest.
Proof.
  intros Hw Hd. induction w as [|c w IH]; cbn [app skip].
  - now rewrite Hd.
  - cbn [forallb] in Hw. apply andb_true_iff in Hw as [-> Hw]. now apply IH.
Qed.

Lemma skip_all p w : forallb p w = true -> skip p w = [].
Proof.
  induction w as [|c w IH]; [reflexivity|]. cbn [forallb skip].
  intros H. apply andb_true_iff in H as [-> H]. now apply IH.
Qed.

(** Skipping inside a word that is followed by a character that stops
    the skipping leaves a suffix of the word. *)
Lemma skip_app_suffix q w d rest :
  q d = false ->
  exists w1 w2, w = w1 ++ w2 /\ skip q (w ++ d :: rest) = w2 ++ d :: rest.
Proof.
  intros Hd. induction w as [|c w (w1 & w2 & -> & IH)]; cbn [app skip].
  - exists [], []. now rewrite Hd.
  - destruct (q c).
    + exists (c :: w1), w2. now split.
    + exists [], (c :: w1 ++ w2). now split.
Qed.

Lemma skip_app_some p w x :
  forallb p w = false -> skip p (w ++ x) = skip p w ++ x /\ skip p w <> [].
Proof.
  induction w as [|c w IH]; [discriminate|]. cbn [forallb app skip].
  destruct (p c); cbn [andb]; [exact IH|]. intros _. split; [reflexivity|discriminate].
Qed.

Lemma forallb_skip p q w : forallb p w = true -> forallb p (skip q w) = true.
Proof.
  induction w as [|c w IH]; [reflexivity|]. cbn [forallb skip].
  intros H. destruct (q c); [|exact H].
  apply andb_true_iff in H as [_ H]. now apply IH.
Qed.

Lemma skip_stronger (p q : char -> bool) s :
  (forall c, q c = true -> p c = true) -> skip p (skip q s) = skip p s.
Proof.
  intros Hqp. induction s as [|c s IH]; [reflexivity|]. cbn [skip].
  destruct (q c) eqn:Hq; [|reflexivity].
  now rewrite (Hqp _ Hq).
Qed.

Lemma blank_isspace c : is_blank c = true -> isspace c = true.
Proof.
  unfold is_blank, mem, blank. simpl.
  rewrite !orb_true_iff, !N.eqb_eq.
  intros [->|[->|H]]; [reflexivity | reflexivity | discriminate H].
Qed.

Lemma strip_skip_blank w : strip (skip is_blank w) = strip w.
Proof.
  unfold strip, lstrip. f_equal. apply skip_stronger, blank_isspace.
Qed.

(** A word of value characters before a comma or a semicolon starts
    neither a comment nor a newline run. *)
Lemma word_not_comment w d rest :
  forallb valuechar w = true -> d <> BANG ->
  mem d [SPACE; TAB; CR; LF] = false ->
  match_COMMENT (w ++ d :: rest) = None.
Proof.
  intros Hw Hd Hd'. unfold match_COMMENT.
  destruct (@skip_app_suffix (fun c => mem c [SPACE; TAB; CR; LF]) w d rest Hd')
    as (w1 & w2 & -> & ->).
  rewrite forallb_app in Hw. apply andb_true_iff in Hw as [_ Hw].
  destruct w2 as [|c w2]; cbn [app].
  - apply N.eqb_neq in Hd. now rewrite Hd.
  - cbn [forallb] in Hw. apply andb_true_iff in Hw as [Hc _].
    destruct (c =? BANG)%N eqn:E; [|reflexivity].
    apply N.eqb_eq in E. subst c. discriminate Hc.
Qed.

Lemma word_no_newline w d rest :
  forallb valuechar w = true -> d <> LF -> d <> CR ->
  eat_newline (w ++ d :: rest) = None.
Proof.
  intros Hw Hd Hd'. unfold eat_newline.
  assert (forall c, valuechar c = true -> (c =? LF)%N = false) as Hlf.
  { intros c Hc. apply N.eqb_neq. intros ->. discriminate Hc. }
  apply N.eqb_neq in Hd, Hd'.
  destruct w as [|c w]; cbn [app].
  - now rewrite Hd, Hd'.
  - cbn [forallb] in Hw. apply andb_true_iff in Hw as [Hc Hw].
    rewrite (Hlf _ Hc). destruct (c =? CR)%N; [|reflexivity].
    destruct w as [|c2 w]; cbn [app]; [now rewrite Hd|].
    cbn [forallb] in Hw. apply andb_true_iff in Hw as [Hc2 _].
    now rewrite (Hlf _ Hc2).
Qed.

Lemma word_not_newline w d rest :
  forallb valuechar w = true -> d <> LF -> d <> CR -> is_blank d = false ->
  match_newline (w ++ d :: rest) = None.
Proof.
  intros Hw Hd Hd' Hb. unfold match_newline.
  destruct (@skip_app_suffix is_blank w d rest Hb) as (w1 & w2 & -> & ->).
  rewrite forallb_app in Hw. apply andb_true_iff in Hw as [_ Hw].
  now rewrite word_no_newline.
Qed.

(** A non-empty word of value characters before a delimiter is the
    next token, whole. *)
Lemma token_word w d rest l :
  w <> [] -> forallb valuechar w = true -> is_delimiter d ->
  token {| lexdata := w ++ d :: rest; lexer_lineno := l |} =
  Token {| type := VALUE; value := w; lineno := l |}
        {| lexdata := d :: rest; lexer_lineno := l |}.
Proof.
  intros Hne Hw Hd. rewrite token_step.
  assert (master (w ++ d :: rest) = Some (VALUE, d :: rest)) as ->.
  { unfold master.
    rewrite word_not_comment, word_not_newline;
      try assumption; try (destruct Hd as [-> | ->]; easy).
    destruct w as [|c w]; [congruence|]. cbn [app match_VALUE].
    cbn [forallb] in Hw. apply andb_true_iff in Hw as [-> Hw].
    rewrite skip_app_stop; [reflexivity | assumption |].
    destruct Hd as [-> | ->]; reflexivity. }
  rewrite matched_app.
  destruct w; [congruence | reflexivity].
Qed.

Lemma token_comma rest l :
  exists v,
    token {| lexdata := COMMA_CHAR :: rest; lexer_lineno := l |} =
    Token {| type := COMMA; value := v; lineno := l |}
          {| lexdata := skip is_blank rest; lexer_lineno := l |}.
Proof. eexists. rewrite token_step. reflexivity. Qed.

Lemma token_semicolon rest l :
  exists v,
    token {| lexdata := SEMICOLON_CHAR :: rest; lexer_lineno := l |} =
    Token {| type := SEMICOLON; value := v; lineno := l |}
          {| lexdata := skip is_blank rest; lexer_lineno := l |}.
Proof. eexists. rewrite token_step. reflexivity. Qed.

(** A line feed before a word is skipped and counts one line. *)
Lemma token_line_feed w d rest l :
  w <> [] -> forallb valuechar w = true -> is_delimiter d ->
  token {| lexdata := LF :: w ++ d :: rest; lexer_lineno := l |} =
  token {| lexdata := w ++ d :: rest; lexer_lineno := l + 1 |}.
Proof.
  intros Hne Hw Hd. rewrite token_step.
  assert (master (LF :: w ++ d :: rest) = Some (newline, w ++ d :: rest)) as ->.
  { unfold master.
    change (match_COMMENT (LF :: w ++ d :: rest))
      with (match_COMMENT (w ++ d :: rest)).
    rewrite word_not_comment;
      try assumption; try (destruct Hd as [-> | ->]; easy).
    change (match_newline (LF :: w ++ d :: rest))
      with (Some (skip_newlines (w ++ d :: rest))).
    rewrite skip_newlines_eat, word_no_newline;
      try assumption; try (destruct Hd as [-> | ->]; easy). }
  change (LF :: w ++ d :: rest) with ([LF] ++ (w ++ d :: rest)).
  now rewrite matched_app.
Qed.

Section Rendering.
Variable upper : str -> str.

#[local] Abbreviation reading pos done s l :=
  (read upper pos done (tokens_of {| lexdata := s; lexer_lineno := l |})).

Lemma reading_token pos done s l t s' l' :
  token {| lexdata := s; lexer_lineno := l |} =
  Token t {| lexdata := s'; lexer_lineno := l' |} ->
  reading pos done s l =
  match advance pos done t with
  | Some (pos', done') => reading pos' done' s' l'
  | None => SyntaxErrorAt (value t) (lineno t)
  end.
Proof. intros H. rewrite tokens_of_step, H. reflexivity. Qed.

Lemma is_field_skip f :
  is_field f ->
  skip is_blank f <> [] /\ forallb valuechar (skip is_blank f) = true /\
  forall x, skip is_blank (f ++ x) = skip is_blank f ++ x.
Proof.
  intros [Hv Hb]. destruct (skip_app_some is_blank f [] Hb) as [_ Hne].
  repeat split; [assumption | now apply forallb_skip |].
  intros x. now apply skip_app_some.
Qed.

(** The fields after a comma, up to the semicolon. *)
Lemma read_fields fs : forall f n vs done l after,
  Forall is_field (f :: fs) ->
  reading (AfterComma n vs) done
          (skip is_blank (join [COMMA_CHAR] (f :: fs) ++ SEMICOLON_CHAR :: after)) l
  = reading (AfterSemicolon (strip n :: rev (map strip vs) ++ map strip (f :: fs)))
            done (skip is_blank after) l.
Proof.
  induction fs as [|f' fs IH]; intros f n vs done l after Hf;
    inversion Hf as [|? ? Hf0 Hfs]; subst;
    destruct (is_field_skip Hf0) as (Hne & Hv & Hskip).
  - cbn [join]. rewrite Hskip.
    rewrite (@reading_token _ _ _ _ _ _ _ (token_word _ l Hne Hv (or_intror eq_refl))).
    cbn [advance type value].
    destruct (token_semicolon after l) as (v & Ht).
    rewrite (@reading_token _ _ _ _ _ _ _ Ht). cbn [advance type].
    unfold object_of. cbn [map rev]. now rewrite strip_skip_blank.
  - cbn [join]. rewrite <- !app_assoc. cbn [app]. rewrite Hskip.
    rewrite (@reading_token _ _ _ _ _ _ _ (token_word _ l Hne Hv (or_introl eq_refl))).
    cbn [advance type value].
    destruct (token_comma (join [COMMA_CHAR] (f' :: fs) ++ SEMICOLON_CHAR :: after) l)
      as (v & Ht).
    rewrite (@reading_token _ _ _ _ _ _ _ Ht). cbn [advance type].
    rewrite IH by assumption. cbn [map rev].
    now rewrite strip_skip_blank, <- app_assoc.
Qed.

Lemma is_field_word f :
  is_field f -> f <> [] /\ forallb valuechar f = true.
Proof. intros [Hv Hb]. split; [now destruct f | assumption]. Qed.

(** One object, from its name to what follows its semicolon. *)
Lemma read_object f0 fs pos done done' l after :
  boundary pos done done' -> Forall is_field (f0 :: fs) ->
  reading pos done (join [COMMA_CHAR] (f0 :: fs) ++ SEMICOLON_CHAR :: after) l
  = reading (AfterSemicolon (map strip (f0 :: fs))) done'
            (skip is_blank after) l.
Proof.
  intros Hb Hf. inversion Hf as [|? ? Hf0 Hfs]; subst.
  destruct (is_field_word Hf0) as [Hne Hv].
  assert (forall t, type t = VALUE ->
                    advance pos done t = Some (AfterName (value t), done'))
    as Hname.
  { intros t Ht. unfold advance. rewrite Ht.
    destruct Hb as [[-> ->]|(o0 & -> & ->)]; reflexivity. }
  destruct fs as [|f fs].
  - cbn [join].
    rewrite (@reading_token _ _ _ _ _ _ _ (token_word _ l Hne Hv (or_intror eq_refl))).
    rewrite Hname by reflexivity. cbn [value].
    destruct (token_semicolon after l) as (v & Ht).
    now rewrite (@reading_token _ _ _ _ _ _ _ Ht).
  - cbn [join]. rewrite <- !app_assoc. cbn [app].
    rewrite (@reading_token _ _ _ _ _ _ _ (token_word _ l Hne Hv (or_introl eq_refl))).
    rewrite Hname by reflexivity. cbn [value].
    destruct (token_comma (join [COMMA_CHAR] (f :: fs) ++ SEMICOLON_CHAR :: after) l)
      as (v & Ht).
    rewrite (@reading_token _ _ _ _ _ _ _ Ht). cbn [advance type].
    now rewrite read_fields.
Qed.

Lemma render_cons o os :
  render (o :: os) =
  join [COMMA_CHAR] (fst o) ++ SEMICOLON_CHAR ::
    (snd o ++ match os with [] => [] | _ :: _ => LF :: render os end).
Proof.
  unfold render, render_object. cbn [map join].
  destruct os as [|o' os]; cbn [map app].
  - now rewrite app_nil_r.
  - now rewrite <- !app_assoc.
Qed.

Lemma render_head o os :
  object_text o ->
  exists f d rest,
    render (o :: os) = f ++ d :: rest /\
    f <> [] /\ forallb valuechar f = true /\ is_delimiter d.
Proof.
  intros (Hne & Hf & _). rewrite render_cons.
  destruct (fst o) as [|f0 fs]; [congruence|].
  inversion Hf as [|? ? Hf0 _]; subst.
  destruct (is_field_word Hf0) as [Hn Hv].
  destruct fs as [|f fs]; cbn [join].
  - exists f0, SEMICOLON_CHAR. eexists. repeat split; try assumption.
    now right.
  - exists f0, COMMA_CHAR. eexists. rewrite <- !app_assoc. cbn [app].
    repeat split; try assumption. now left.
Qed.

(** A whole text of objects, one per line. *)
Lemma read_render objs : forall pos done done' l,
  objs <> [] -> Forall object_text objs -> boundary pos done done' ->
  reading pos done (render objs) l =
  match p_idffile_loop upper
          (rev done' ++ map (fun o => map strip (fst o)) objs) [] with
  | Some d => Returned d
  | None => Broken
  end.
Proof.
  induction objs as [|o objs IH]; intros pos done done' l Hne Hobjs Hb;
    [congruence|].
  inversion Hobjs as [|? ? Ho Hobjs']; subst.
  pose proof Ho as (Hfs & Hf & Htail).
  rewrite render_cons.
  destruct (fst o) as [|f0 fs] eqn:Efs; [congruence|].
  rewrite (@read_object _ _ _ _ _ _ _ Hb Hf).
  destruct objs as [|o' objs].
  - rewrite app_nil_r, skip_all by exact Htail.
    rewrite tokens_of_step, token_empty. cbn [read map rev].
    now rewrite Efs.
  - rewrite skip_app_stop by (exact Htail || reflexivity).
    inversion Hobjs' as [|? ? Ho' _]; subst.
    assert (tokens_of {| lexdata := LF :: render (o' :: objs);
                         lexer_lineno := l |}
            = tokens_of {| lexdata := render (o' :: objs);
                           lexer_lineno := l + 1 |}) as ->.
    { destruct (render_head objs Ho') as (f & d & rest & E & Hn & Hv & Hd).
      rewrite E, tokens_of_step, (token_line_feed rest l Hn Hv Hd).
      now rewrite <- tokens_of_step. }
    rewrite (IH (AfterSemicolon (map strip (f0 :: fs))) done'
                (map strip (f0 :: fs) :: done') (l + 1)%Z);
      [ | discriminate | assumption | right; eexists; split; reflexivity].
    cbn [rev map]. rewrite Efs. now rewrite <- app_assoc.
Qed.

(** Object text parses to the objects it spells, each field stripped. *)
Theorem parse_render objs :
  objs <> [] -> Forall object_text objs ->
  parse upper (render objs) =
  Returned (grouped upper (map (fun o => map strip (fst o)) objs) []).
Proof.
  intros Hne Hobjs. rewrite parse_reads. unfold tokens, lex.
  rewrite (@read_render objs AtStart [] [] 1 Hne Hobjs (or_introl (conj eq_refl eq_refl))).
  cbn [rev app]. rewrite p_idffile_loop_grouped; [reflexivity|].
  apply Forall_map. revert Hobjs. apply Forall_impl.
  intros o (Hfs & _). now destruct (fst o).
Qed.
End Rendering.

(** ** [str.strip] *)

Lemma skip_split p s : exists a, s = a ++ skip p s /\ forallb p a = true.
Proof.
  induction s as [|c s (a & IH & Ha)]; [now exists []|]. cbn [skip].
  destruct (p c) eqn:Hc.
  - exists (c :: a). cbn [app forallb]. rewrite Hc, Ha. now rewrite <- IH.
  - now exists [].
Qed.

Lemma skip_app_all p w x : forallb p w = true -> skip p (w ++ x) = skip p x.
Proof.
  induction w as [|c w IH]; [reflexivity|]. cbn [forallb app skip].
  intros H. apply andb_true_iff in H as [-> H]. now apply IH.
Qed.

Lemma skip_fixed p s : skip p s = s -> forall c t, s = c :: t -> p c = false.
Proof.
  intros H c t ->. cbn [skip] in H. destruct (p c) eqn:Hc; [|reflexivity].
  pose proof (skip_length p t) as Hl. rewrite H in Hl. simpl in Hl. lia.
Qed.

Lemma skip_fixed_iff p s :
  skip p s = s <-> match s with c :: _ => p c = false | [] => True end.
Proof.
  split.
  - intros H. destruct s as [|c t]; [exact I|]. exact (skip_fixed _ H eq_refl).
  - destruct s as [|c t]; [reflexivity|]. cbn [skip]. now intros ->.
Qed.

(** [rstrip] keeps a prefix. *)
Lemma rstrip_prefix s : exists b, s = rstrip s ++ b /\ forallb isspace b = true.
Proof.
  unfold rstrip, lstrip.
  destruct (skip_split isspace (rev s)) as (a & H & Ha).
  exists (rev a). split.
  - rewrite <- rev_app_distr, <- H. now rewrite rev_involutive.
  - rewrite forallb_forall in *. intros x Hx. apply Ha. now apply in_rev.
Qed.

Lemma rstrip_idem s : rstrip (rstrip s) = rstrip s.
Proof.
  unfold rstrip, lstrip. now rewrite rev_involutive, skip_idem.
Qed.

Lemma lstrip_rstrip s : lstrip s = s -> lstrip (rstrip s) = rstrip s.
Proof.
  intros H. destruct (rstrip_prefix s) as (b & Hs & _).
  unfold lstrip in *. apply skip_fixed_iff.
  destruct (rstrip s) as [|c t]; [exact I|].
  apply (skip_fixed _ H (c := c) (t := t ++ b)). exact Hs.
Qed.

Lemma lstrip_idem s : lstrip (lstrip s) = lstrip s.
Proof. apply skip_idem. Qed.

Lemma strip_idem s : strip (strip s) = strip s.
Proof.
  unfold strip. rewrite (lstrip_rstrip (lstrip_idem s)). apply rstrip_idem.
Qed.

Lemma rstrip_length s : (length (rstrip s) <= length s)%nat.
Proof.
  unfold rstrip, lstrip. rewrite length_rev.
  etransitivity; [apply skip_length|]. now rewrite length_rev.
Qed.

(** What [strip] returns starts and ends with no white space. *)
Lemma strip_first s c t : strip s = c :: t -> isspace c = false.
Proof.
  intros H. pose proof (lstrip_rstrip (lstrip_idem s)) as Hl.
  fold (strip s) in Hl. rewrite H in Hl.
  exact (skip_fixed _ Hl eq_refl).
Qed.

Lemma strip_last s c t : strip s = t ++ [c] -> isspace c = false.
Proof.
  intros H. pose proof (rstrip_idem (lstrip s)) as Hr.
  fold (strip s) in Hr. rewrite H in Hr. unfold rstrip, lstrip in Hr.
  apply (f_equal (@rev _)) in Hr. rewrite rev_involutive in Hr.
  rewrite rev_app_distr in Hr. cbn [rev app] in Hr.
  exact (skip_fixed _ Hr eq_refl).
Qed.

Lemma strip_fixed_first w c t :
  strip w = w -> w = c :: t -> isspace c = false.
Proof. intros H ->. exact (strip_first _ H). Qed.

Lemma strip_space_cons c v : isspace c = true -> strip (c :: v) = strip v.
Proof. intros H. unfold strip, lstrip. cbn [skip]. now rewrite H. Qed.

Lemma forallb_rstrip p s : forallb p s = true -> forallb p (rstrip s) = true.
Proof.
  intros H. destruct (rstrip_prefix s) as (b & Hs & _).
  rewrite Hs, forallb_app in H. now apply andb_true_iff in H as [H _].
Qed.

Lemma forallb_strip p s : forallb p s = true -> forallb p (strip s) = true.
Proof.
  intros H. unfold strip, lstrip. now apply forallb_rstrip, forallb_skip.
Qed.

Lemma rstrip_app_all s post :
  forallb isspace post = true -> rstrip (s ++ post) = rstrip s.
Proof.
  intros H. unfold rstrip, lstrip. rewrite rev_app_distr.
  rewrite skip_app_all; [reflexivity|].
  rewrite forallb_forall in *. intros x Hx. apply H. now apply in_rev.
Qed.

Lemma padding_isspace w : is_padding w -> forallb isspace w = true.
Proof.
  unfold is_padding. rewrite !forallb_forall. intros H x Hx.
  apply blank_isspace. unfold is_blank. now apply H.
Qed.

(** Spaces and tabs around a text do not change what [strip] returns. *)
Lemma strip_pad pre f post :
  is_padding pre -> is_padding post -> strip (pre ++ f ++ post) = strip f.
Proof.
  intros Hpre Hpost. apply padding_isspace in Hpre, Hpost.
  unfold strip, lstrip. rewrite skip_app_all by assumption.
  destruct (forallb isspace f) eqn:Hf.
  - rewrite skip_app_all, !skip_all by assumption. reflexivity.
  - destruct (skip_app_some isspace f post Hf) as [-> _].
    now apply rstrip_app_all.
Qed.

(** ** Where the strings of a document come from *)

Lemma master_VALUE s r : master s = Some (VALUE, r) -> match_VALUE s = Some r.
Proof.
  unfold master.
  destruct (match_COMMENT s); [discriminate|].
  destruct (match_newline s); [discriminate|].
  destruct (match_VALUE s); [now intros [= ->]|].
  destruct (match_delimiter COMMA_CHAR s); [discriminate|].
  destruct (match_delimiter SEMICOLON_CHAR s); discriminate.
Qed.

Lemma match_VALUE_chars s r :
  match_VALUE s = Some r ->
  matched s r <> [] /\ forallb valuechar (matched s r) = true.
Proof.
  unfold match_VALUE. destruct s as [|c t]; [discriminate|].
  destruct (valuechar c) eqn:Hc; [|discriminate]. intros [= <-].
  destruct (skip_split valuechar t) as (a & Ht & Ha).
  rewrite Ht at 1 3. change (c :: a ++ skip valuechar t)
    with ((c :: a) ++ skip valuechar t).
  rewrite matched_app. split; [discriminate|].
  cbn [forallb]. now rewrite Hc, Ha.
Qed.

(** A VALUE token is a non-empty run of value characters. *)
Lemma token_value_chars lx t lx' :
  token lx = Token t lx' -> type t = VALUE ->
  value t <> [] /\ forallb valuechar (value t) = true.
Proof.
  remember (length (lexdata lx)) as n eqn:Hn.
  revert lx Hn. induction n as [n IH] using lt_wf_ind. intros [s l] Hn.
  rewrite token_step. destruct s as [|c s0]; [discriminate|].
  destruct (master (c :: s0)) as [[k r]|] eqn:E; [|discriminate].
  pose proof E as E'. rewrite <- first_match_master in E'.
  apply first_match_consumes in E' as (m & Hm & Hs).
  assert (length r < n)%nat as Hl.
  { subst n. cbn [lexdata]. rewrite Hs, length_app.
    destruct m; [congruence | simpl; lia]. }
  destruct k; try (intros [= <- <-]; cbn [type]; discriminate).
  - apply (IH _ Hl). reflexivity.
  - apply (IH _ Hl). reflexivity.
  - intros [= <- <-] _. cbn [value]. now apply match_VALUE_chars, master_VALUE.
Qed.

(** The parser only ever sees VALUE, COMMA and SEMICOLON tokens. *)
Lemma token_type lx t lx' :
  token lx = Token t lx' ->
  type t = VALUE \/ type t = COMMA \/ type t = SEMICOLON.
Proof.
  remember (length (lexdata lx)) as n eqn:Hn.
  revert lx Hn. induction n as [n IH] using lt_wf_ind. intros [s l] Hn.
  rewrite token_step. destruct s as [|c s0]; [discriminate|].
  destruct (master (c :: s0)) as [[k r]|] eqn:E; [|discriminate].
  pose proof E as E'. rewrite <- first_match_master in E'.
  apply first_match_consumes in E' as (m & Hm & Hs).
  assert (length r < n)%nat as Hl.
  { subst n. cbn [lexdata]. rewrite Hs, length_app.
    destruct m; [congruence | simpl; lia]. }
  destruct k; try (intros [= <- <-]; cbn [type]; tauto).
  - apply (IH _ Hl). reflexivity.
  - apply (IH _ Hl). reflexivity.
  - exfalso. unfold master in E.
    repeat match type of E with
           | match ?x with _ => _ end = _ => destruct x
           end; discriminate.
Qed.

Lemma tokens_value_chars lx t :
  In t (tokens_of lx) -> type t = VALUE ->
  value t <> [] /\ forallb valuechar (value t) = true.
Proof.
  remember (length (lexdata lx)) as n eqn:Hn.
  revert lx Hn. induction n as [n IH] using lt_wf_ind. intros lx Hn.
  rewrite tokens_of_step.
  destruct (token_total lx) as [H|(t' & lx' & H & Hl)]; rewrite H;
    [intros []|].
  intros [<-|Hin] Ht.
  - exact (token_value_chars _ H Ht).
  - subst n. exact (IH _ Hl lx' eq_refl Hin Ht).
Qed.

Lemma from_tokens_incl ts ts' s :
  incl ts ts' -> from_tokens ts s -> from_tokens ts' s.
Proof. intros Hi (t & Ht & H). exists t. split; [now apply Hi | exact H]. Qed.

Lemma spans_valuelist_from ts l :
  spans_valuelist ts l -> Forall (from_tokens ts) l.
Proof.
  induction 1 as [v Hv|v c ts l Hv Hc H IH].
  - repeat constructor. exists v. repeat split; [now left | assumption].
  - cbn [app]. constructor.
    + exists v. repeat split; [now left | assumption].
    + revert IH. apply Forall_impl. intros s. apply from_tokens_incl.
      intros x Hx. now right; right.
Qed.

Lemma spans_idfobject_from ts o :
  spans_idfobject ts o -> o <> [] /\ Forall (from_tokens ts) o.
Proof.
  intros [n s Hn Hs|n c ts0 s l Hn Hc Hs Hl]; (split; [discriminate|]).
  - repeat constructor. exists n. repeat split; [now left | assumption].
  - cbn [app]. constructor.
    + exists n. repeat split; [now left | assumption].
    + apply spans_valuelist_from in Hl. revert Hl. apply Forall_impl.
      intros x. apply from_tokens_incl. intros y Hy.
      right; right. apply in_or_app. now left.
Qed.

Lemma spans_idfobjectlist_from ts l :
  spans_idfobjectlist ts l ->
  Forall (fun o => o <> [] /\ Forall (from_tokens ts) o) l.
Proof.
  induction 1 as [ts o Ho|ts1 o ts2 l Ho H IH].
  - constructor; [now apply spans_idfobject_from | constructor].
  - cbn [app]. constructor.
    + destruct (spans_idfobject_from Ho) as [Hne Hf]. split; [assumption|].
      revert Hf. apply Forall_impl. intros s. apply from_tokens_incl.
      intros x Hx. apply in_or_app. now left.
    + revert IH. apply Forall_impl. intros o' [Hne Hf]. split; [assumption|].
      revert Hf. apply Forall_impl. intros s. apply from_tokens_incl.
      intros x Hx. apply in_or_app. now right.
Qed.

Lemma setdefault_append_In k' o' d k os o :
  In (k, os) (setdefault_append k' o' d) -> In o os ->
  o = o' \/ exists os0, In (k, os0) d /\ In o os0.
Proof.
  induction d as [|[k0 os0] d IH]; cbn [setdefault_append].
  - intros [[= <- <-]|[]] [<-|[]]. now left.
  - destruct (str_eqb k0 k').
    + intros [[= <- <-]|Hin] Ho.
      * apply in_app_or in Ho as [Ho|[<-|[]]]; [|now left].
        right. exists os0. split; [now left | assumption].
      * right. exists os. split; [now right | assumption].
    + intros [[= <- <-]|Hin] Ho.
      * right. exists os0. split; [now left | assumption].
      * destruct (IH Hin Ho) as [->|(os1 & H1 & H2)]; [now left|].
        right. exists os1. split; [now right | assumption].
Qed.

Section Provenance.
Variable upper : str -> str.

(** Every object stored in the mapping is one of the objects given to
    the loop, as it was given. *)
Lemma grouped_In objs : forall d k os o,
  In (k, os) (grouped upper objs d) -> In o os ->
  In o objs \/ exists os0, In (k, os0) d /\ In o os0.
Proof.
  induction objs as [|o' objs IH]; intros d k os o Hin Ho.
  - right. now exists os.
  - unfold grouped in Hin. cbn [fold_left] in Hin.
    destruct (IH _ _ _ _ Hin Ho) as [H|(os0 & H1 & H2)]; [left; now right|].
    destruct (@setdefault_append_In _ _ _ _ _ _ H1 H2) as [->|H]; [left; now left|].
    now right.
Qed.

(** [parse] returns a document exactly for the texts whose tokens the
    grammar derives, and the document is the loop of [p_idffile] run on
    the derived objects. *)
Theorem parse_returns text d :
  parse upper text = Returned d <->
  exists objs, spans_idfobjectlist (tokens text) objs /\
               d = grouped upper objs [].
Proof.
  rewrite parse_reads. split.
  - intros H.
    destruct (walk_cases (tokens text) AtStart [])
      as [(p & d0 & Hw)|(pre & t & post & p & d0 & E & Hw & Ha)].
    + rewrite (read_walk upper _ _ _ Hw) in H. cbn [read] in H.
      destruct p as [| | | |o]; try discriminate.
      apply walk_sound in Hw. exists (rev (o :: d0)). split; [assumption|].
      rewrite p_idffile_loop_grouped in H; [now injection H as <-|].
      apply spans_idfobjectlist_from in Hw. revert Hw. apply Forall_impl.
      now intros o' [Hne _].
    + rewrite E in H.
      erewrite read_reject in H; [discriminate | eassumption | eassumption].
  - intros (objs & Hs & ->).
    destruct (walk_complete Hs) as (o & d0 & Hw & Hr).
    rewrite (read_walk upper _ _ _ Hw). cbn [read]. rewrite Hr.
    rewrite p_idffile_loop_grouped; [reflexivity|].
    apply spans_idfobjectlist_from in Hs. revert Hs. apply Forall_impl.
    now intros o' [Hne _].
Qed.
End Provenance.

(** ** The serialisation [name, v1, ..., vn;] *)

Lemma join_cons_head sep c v rest :
  join sep ((c :: v) :: rest) = c :: join sep (v :: rest).
Proof. destruct rest; reflexivity. Qed.

Lemma join_comma_space vs : forall n,
  join [COMMA_CHAR; SPACE] (n :: vs) = join [COMMA_CHAR] (n :: map (cons SPACE) vs).
Proof.
  induction vs as [|v vs IH]; intros n; [reflexivity|].
  cbn [map]. change (join [COMMA_CHAR; SPACE] (n :: v :: vs))
    with (n ++ [COMMA_CHAR; SPACE] ++ join [COMMA_CHAR; SPACE] (v :: vs)).
  change (join [COMMA_CHAR] (n :: (SPACE :: v) :: map (cons SPACE) vs))
    with (n ++ [COMMA_CHAR] ++ join [COMMA_CHAR] ((SPACE :: v) :: map (cons SPACE) vs)).
  now rewrite IH, join_cons_head.
Qed.

Lemma serialize_object_render o :
  o <> [] -> serialize_object o = render_object (as_line o).
Proof.
  destruct o as [|n vs]; [congruence|]. intros _.
  unfold serialize_object, render_object, as_line. cbn [fst snd].
  now rewrite join_comma_space, app_nil_r.
Qed.

Lemma serialize_objects_render objs :
  Forall (fun o => o <> []) objs ->
  join [LF] (map serialize_object objs) = render (map as_line objs).
Proof.
  intros H. unfold render. rewrite map_map. f_equal.
  apply map_ext_in. intros o Ho. apply serialize_object_render.
  rewrite Forall_forall in H. now apply H.
Qed.

Lemma well_formed_first w :
  well_formed w -> exists c t, w = c :: t /\ isspace c = false.
Proof.
  intros (Hne & _ & Hs). destruct w as [|c t]; [congruence|].
  exists c, t. split; [reflexivity|]. exact (strip_fixed_first Hs eq_refl).
Qed.

Lemma well_formed_field w : well_formed w -> is_field w.
Proof.
  intros H. destruct (well_formed_first H) as (c & t & -> & Hc).
  destruct H as (_ & Hv & _). split; [assumption|]. cbn [forallb].
  destruct (mem c blank) eqn:Hb; [|reflexivity].
  apply blank_isspace in Hb. congruence.
Qed.

Lemma well_formed_spaced v : well_formed v -> is_field (SPACE :: v).
Proof.
  intros H. destruct (well_formed_field H) as [Hv Hb]. split.
  - cbn [forallb]. now rewrite Hv.
  - cbn [forallb]. now rewrite Hb.
Qed.

Lemma as_line_text o :
  o <> [] -> Forall well_formed o ->
  object_text (as_line o) /\ map strip (fst (as_line o)) = o.
Proof.
  destruct o as [|n vs]; [congruence|]. intros _ H.
  inversion H as [|? ? Hn Hvs]; subst. unfold as_line. cbn [fst snd].
  split; [repeat split|].
  - discriminate.
  - constructor; [now apply well_formed_field|].
    apply Forall_map. revert Hvs. apply Forall_impl.
    exact well_formed_spaced.
  - cbn [map]. destruct Hn as (_ & _ & ->). f_equal.
    rewrite map_map. rewrite <- (map_id vs) at 2.
    apply map_ext_in. intros v Hv. rewrite Forall_forall in Hvs.
    destruct (Hvs v Hv) as (_ & _ & Hs).
    now rewrite strip_space_cons.
Qed.

Lemma as_lines_text objs :
  Forall (fun o => o <> [] /\ Forall well_formed o) objs ->
  Forall object_text (map as_line objs) /\
  map (fun o => map strip (fst o)) (map as_line objs) = objs.
Proof.
  induction 1 as [|o objs [Hne Ho] H [IH1 IH2]]; [now split|].
  destruct (as_line_text Hne Ho) as [H1 H2]. cbn [map]. split.
  - now constructor.
  - now rewrite H2, IH2.
Qed.

Section Claims.
Variable upper : str -> str.

(** C1. The text [name, v1, ..., vn;] of a well-formed object parses to
    the document that maps the upper-cased name to the single object
    [[name; v1; ...; vn]]: the name as written, the values in the order
    of the text.  The text [name;] of an object without fields gives the
    one-element object [[name]]. *)
Theorem parse_object_text name vs :
  well_formed name -> Forall well_formed vs ->
  parse upper (serialize_object (name :: vs))
  = Returned [(upper name, [name :: vs])]
  /\ parse upper (name ++ [SEMICOLON_CHAR])
     = Returned [(upper name, [[name]])].
Proof.
  intros Hn Hvs.
  assert (forall o, o <> [] -> Forall well_formed o ->
                    parse upper (serialize_object o)
                    = Returned (grouped upper [o] [])) as Hparse.
  { intros o Hne Ho. rewrite serialize_object_render by assumption.
    destruct (as_line_text Hne Ho) as [Ht Hs].
    change (render_object (as_line o)) with (render [as_line o]).
    rewrite parse_render; [|discriminate | constructor; [assumption | constructor]].
    cbn [map]. now rewrite Hs. }
  split.
  - apply Hparse; [discriminate | now constructor].
  - apply (Hparse [name]); [discriminate | constructor; [assumption | constructor]].
Qed.

Lemma grouped_nonempty o objs : grouped upper (o :: objs) [] <> [].
Proof.
  intros H. pose proof (get_grouped upper (o :: objs) [] (key_of upper o)) as G.
  rewrite H in G. cbn [get filter] in G. rewrite str_eqb_refl in G.
  discriminate G.
Qed.

Lemma spans_idfobjectlist_nonempty ts l : spans_idfobjectlist ts l -> l <> [].
Proof. intros []; discriminate. Qed.

(** The strings of a returned document: stripped texts of VALUE tokens,
    so free of [!], [,], [;] and line feeds, with nothing left for
    [strip] to remove. *)
Lemma returned_strings text d k os o s :
  parse upper text = Returned d ->
  In (k, os) d -> In o os -> In s o ->
  o <> [] /\ forallb valuechar s = true /\ strip s = s.
Proof.
  intros H Hk Ho Hs. apply parse_returns in H as (objs & Hobjs & ->).
  destruct (@grouped_In upper _ _ _ _ _ Hk Ho) as [Hin|(os0 & [] & _)].
  apply spans_idfobjectlist_from in Hobjs. rewrite Forall_forall in Hobjs.
  destruct (Hobjs o Hin) as [Hne Hf]. split; [assumption|].
  rewrite Forall_forall in Hf. destruct (Hf s Hs) as (t & Ht & Hty & ->).
  split; [|apply strip_idem].
  apply forallb_strip. now apply (@tokens_value_chars (lex text) t).
Qed.

(** C4 (amended). Round trip on documents without empty strings: when
    [parse] returns a document none of whose names and values is empty,
    writing each object as [name, v1, ..., vn;], joining the lines with
    line feeds and parsing the result returns the same document. *)
Theorem serialize_parse_roundtrip text d :
  parse upper text = Returned d ->
  (forall k os o s, In (k, os) d -> In o os -> In s o -> s <> []) ->
  parse upper (serialize d) = Returned d.
Proof.
  intros H Hfull.
  assert (Forall (fun o => o <> [] /\ Forall well_formed o)
                 (concat (map snd d))) as Hwf.
  { apply Forall_forall. intros o Ho.
    apply in_concat in Ho as (os & Hos & Ho).
    apply in_map_iff in Hos as ([k os'] & <- & Hk). cbn [snd] in Ho.
    split.
    - destruct o as [|s o']; [|discriminate].
      apply parse_returns in H as (objs & Hobjs & ->).
      destruct (@grouped_In upper _ _ _ _ _ Hk Ho) as [Hin|(os0 & [] & _)].
      apply spans_idfobjectlist_from in Hobjs. rewrite Forall_forall in Hobjs.
      now destruct (Hobjs [] Hin).
    - apply Forall_forall. intros s Hs.
      destruct (@returned_strings _ _ _ _ _ _ H Hk Ho Hs) as (_ & Hv & Hst).
      repeat split; [exact (Hfull _ _ _ _ Hk Ho Hs) | assumption..]. }
  apply parse_returns in H as (objs & Hobjs & ->).
  destruct (as_lines_text Hwf) as [Htext Hstrip].
  unfold serialize. rewrite serialize_objects_render.
  - rewrite parse_render; [now rewrite Hstrip, regroup_grouped | | assumption].
    intros E. apply map_eq_nil in E.
    pose proof (regroup_grouped upper objs) as R. rewrite E in R.
    apply spans_idfobjectlist_nonempty in Hobjs.
    destruct objs as [|o objs]; [congruence|].
    symmetry in R. now apply grouped_nonempty in R.
  - revert Hwf. apply Forall_impl. now intros o [Hne _].
Qed.

Lemma padded_field_text f :
  padded_field f -> is_field (pad f) /\ strip (pad f) = strip (core f).
Proof.
  destruct f as [[pre w] post]. unfold padded_field, pad, core. cbn [fst snd].
  intros (Hpre & [Hv Hb] & Hpost). split; [split|].
  - rewrite !forallb_app, Hv.
    unfold is_padding in *. rewrite forallb_forall in Hpre, Hpost.
    assert (forall p, (forall x, In x p -> mem x blank = true) ->
                      forallb valuechar p = true) as Hp.
    { intros p Hp. apply forallb_forall. intros x Hx.
      apply blank_valuechar. now apply Hp. }
    now rewrite (Hp _ Hpre), (Hp _ Hpost).
  - rewrite !forallb_app, Hb. now rewrite andb_false_r.
  - now apply strip_pad.
Qed.

Lemma padded_objects_text (objs : list (list (str * str * str) * str)) :
  Forall padded_object objs ->
  Forall object_text (map padded objs) /\
  Forall object_text (map unpadded objs) /\
  map (fun o => map strip (fst o))
      (map padded objs)
  = map (fun o => map strip (fst o))
        (map unpadded objs).
Proof.
  induction 1 as [|[fs tail] objs (Hne & Hfs & Htail) H (IH1 & IH2 & IH3)];
    [now repeat split|].
  cbn [fst snd] in *. unfold padded, unpadded. cbn [map fst snd].
  fold padded unpadded. repeat split.
  - constructor; [|assumption]. repeat split; cbn [fst snd].
    + now destruct fs.
    + apply Forall_map. revert Hfs. apply Forall_impl.
      intros f Hf. now apply padded_field_text.
    + assumption.
  - constructor; [|assumption]. repeat split; cbn [fst snd].
    + now destruct fs.
    + apply Forall_map. revert Hfs. apply Forall_impl.
      now intros f (_ & Hf & _).
  - f_equal; [|assumption]. rewrite !map_map.
    apply map_ext_in. intros f Hf. rewrite Forall_forall in Hfs.
    now apply padded_field_text, Hfs.
Qed.

(** C9. No name or value of a returned document starts or ends with a
    space or a tab; and object text whose names and values are written
    with spaces and tabs around them (before and after each field, and
    after the semicolon) parses to the same result as the text without
    that padding. *)
Theorem padding_is_stripped text d (objs : list (list (str * str * str) * str)) :
  (parse upper text = Returned d ->
   forall k os o s, In (k, os) d -> In o os -> In s o -> no_outer_blank s)
  /\
  (objs <> [] -> Forall padded_object objs ->
   parse upper (render (map padded objs))
   = parse upper (render (map unpadded objs))).
Proof.
  split.
  - intros H k os o s Hk Ho Hs.
    destruct (@returned_strings _ _ _ _ _ _ H Hk Ho Hs) as (_ & _ & Hst).
    split; intros c t E; rewrite E in Hst.
    + apply strip_first in Hst.
      destruct (is_blank c) eqn:Hb; [|reflexivity].
      apply blank_isspace in Hb. congruence.
    + apply strip_last in Hst.
      destruct (is_blank c) eqn:Hb; [|reflexivity].
      apply blank_isspace in Hb. congruence.
  - intros Hne Hobjs.
    destruct (padded_objects_text Hobjs) as (H1 & H2 & H3).
    rewrite !parse_render; try assumption.
    + now rewrite H3.
    + intros E. now apply map_eq_nil in E.
    + intros E. now apply map_eq_nil in E.
Qed.

Lemma walk_viable ts p d : walk AtStart [] ts = Some (p, d) -> viable ts.
Proof.
  intros H. exists (completion p). apply sentence_walk.
  rewrite walk_app, H. destruct p; cbn; eexists; eexists; reflexivity.
Qed.

Lemma viable_walk ts :
  viable ts -> exists p d, walk AtStart [] ts = Some (p, d).
Proof.
  intros (rest & H). apply sentence_walk in H as (o & d & H).
  rewrite walk_app in H.
  destruct (walk AtStart [] ts) as [[p0 d0]|]; [|discriminate].
  now exists p0, d0.
Qed.

Lemma advance_done pos done t pos' done' :
  advance pos done t = Some (pos', done') ->
  (length done <= length done')%nat /\
  (forall o, pos = AfterSemicolon o -> (length done < length done')%nat).
Proof.
  unfold advance.
  destruct pos; destruct (type t); try discriminate; intros [= <- <-];
    (split; [simpl; lia | intros ? [=]; simpl; lia]).
Qed.

Lemma walk_done ts : forall pos done pos' done',
  walk pos done ts = Some (pos', done') ->
  (length done <= length done')%nat.
Proof.
  induction ts as [|t ts IH]; intros pos done pos' done'.
  - intros [= <- <-]. lia.
  - cbn [walk]. destruct (advance pos done t) as [[p d]|] eqn:E;
      [|discriminate].
    intros H. apply IH in H. apply advance_done in E as [E _]. lia.
Qed.

(** A sequence that stops inside an object is read through, to a
    position inside an object. *)
Lemma ends_mid_object_walk ts :
  ends_mid_object ts ->
  exists p d, walk AtStart [] ts = Some (p, d) /\
              forall o, p <> AfterSemicolon o.
Proof.
  intros (done & part & rest & o & -> & Hdone & Hpart & Hrest & Hobj).
  assert (exists pos0 d0 d0',
             walk AtStart [] done = Some (pos0, d0) /\
             boundary pos0 d0 d0') as (pos0 & d0 & d0' & Hw0 & Hb).
  { destruct Hdone as [->|Hs].
    - exists AtStart, [], []. split; [reflexivity | now left].
    - apply sentence_walk in Hs as (o' & d1 & Hs).
      exists (AfterSemicolon o'), d1, (o' :: d1). split; [assumption|].
      right. now exists o'. }
  pose proof (walk_idfobject Hobj [] Hb) as Hw.
  rewrite app_nil_r, walk_app in Hw. cbn [walk] in Hw.
  destruct (walk pos0 d0 part) as [[p d]|] eqn:Hp; [|discriminate].
  exists p, d. split; [now rewrite walk_app, Hw0|].
  intros o1 ->.
  destruct part as [|t0 part]; [congruence|].
  destruct rest as [|t1 rest]; [congruence|].
  cbn [walk] in Hp, Hw.
  destruct (advance pos0 d0 t0) as [[p1 d1]|] eqn:E0; [|discriminate].
  destruct (advance (AfterSemicolon o1) d t1) as [[p2 d2]|] eqn:E1;
    [|discriminate].
  apply walk_done in Hp, Hw.
  apply advance_done in E1 as [_ E1]. specialize (E1 o1 eq_refl).
  assert (d1 = d0') as ->.
  { unfold advance in E0.
    destruct Hb as [[-> ->]|(o' & -> & ->)]; destruct (type t0);
      try discriminate; now injection E0 as _ <-. }
  lia.
Qed.

(** C5. A text without tokens (empty, or comments only), and a text
    whose tokens stop inside an object (such as one without its final
    semicolon), make [parse] raise the end-of-input syntax error; a text
    whose tokens are rejected at a token makes it raise the syntax error
    that carries that token's text and line number.  A document is only
    returned for a token sequence the grammar accepts. *)
Theorem syntax_errors text :
  (tokens text = [] \/ ends_mid_object (tokens text) ->
   parse upper text = SyntaxErrorAtEOF)
  /\
  (forall pre t post,
      tokens text = pre ++ t :: post ->
      viable pre -> ~ viable (pre ++ [t]) ->
      parse upper text = SyntaxErrorAt (value t) (lineno t))
  /\
  (forall d, parse upper text = Returned d -> sentence (tokens text)).
Proof.
  split; [|split].
  - rewrite parse_reads. intros [->|H]; [reflexivity|].
    apply ends_mid_object_walk in H as (p & d & Hw & Hp).
    rewrite (@read_walk upper _ _ _ _ _ Hw). cbn [read].
    destruct p; try reflexivity. now destruct (Hp o).
  - intros pre t post E Hv Hn. rewrite parse_reads, E.
    apply viable_walk in Hv as (p & d & Hw).
    eapply read_reject; [exact Hw|].
    destruct (advance p d t) as [[p' d']|] eqn:Ha; [|reflexivity].
    exfalso. apply Hn. apply (@walk_viable _ p' d').
    now rewrite walk_snoc, Hw.
  - intros d H. apply parse_returns in H as (objs & H & _). now exists objs.
Qed.


Lemma read_not_illegal ts : forall pos done c l,
  read upper pos done ts <> IllegalCharacter c l.
Proof.
  induction ts as [|t ts IH]; intros pos done c l; cbn [read].
  - destruct pos; try discriminate.
    destruct (p_idffile_loop upper _ _); discriminate.
  - destruct (advance pos done t) as [[p d]|]; [apply IH | discriminate].
Qed.

(** C6 (amended). No character is left unmatched by the lexer rules: at
    every position with text left one of the five rules matches ([!]
    starts a COMMENT, a line feed a newline run, [,] a COMMA, [;] a
    SEMICOLON, any other character, [$] included, a VALUE).  So [parse]
    never raises the illegal-character error; on
    ["Material, Brick, 0.5, 0.8; $"] it raises the end-of-input syntax
    error and returns no document. *)
Theorem lexer_never_fails text :
  (forall c rest, first_match lexre (c :: rest) <> None)
  /\ (forall c l, parse upper text <> IllegalCharacter c l)
  /\ parse upper (txt "Material, Brick, 0.5, 0.8; $") = SyntaxErrorAtEOF.
Proof.
  split; [|split].
  - intros c rest. now apply t_error_unreachable.
  - intros c l. rewrite parse_reads. apply read_not_illegal.
  - rewrite parse_reads. vm_compute. reflexivity.
Qed.

(** C10. A field value can be the empty string: in ["Material,\r,0.5;"]
    the carriage return between the commas is a VALUE token, which
    [strip] empties, and the text parses. *)
Theorem empty_field_value :
  parse upper (txt "Material," ++ [CR] ++ txt ",0.5;")
  = Returned [(upper (txt "Material"), [[txt "Material"; []; txt "0.5"]])].
Proof. rewrite parse_reads. vm_compute. reflexivity. Qed.

(** C2. [t_COMMENT] adds the line feeds of a comment to the [lineno] of
    the token it then drops, and leaves the lexer's line counter as it
    was: in a text of two comment lines followed by [, x;] the comma is
    on line 3 and the syntax error says line 2. *)
Theorem comment_line_feeds_not_counted :
  (forall t lexer, t_COMMENT t lexer = (None, lexer))
  /\ parse upper (txt "! one" ++ [LF] ++ txt "! two" ++ [LF] ++ txt ", x;")
     = SyntaxErrorAt (txt ", ") 2.
Proof.
  split; [reflexivity|]. rewrite parse_reads. vm_compute. reflexivity.
Qed.

(** C3. [t_newline] adds the length of the matched text to the line
    counter, carriage returns, spaces and tabs included: after the one
    line break of ["Zone;\r\n, x;"] the comma is on line 2 and the syntax
    error says line 3. *)
Theorem newline_counts_characters :
  (forall t lexer,
      t_newline t lexer
      = (None, {| lexdata := lexdata lexer;
                  lexer_lineno := lexer_lineno lexer
                                  + Z.of_nat (length (value t)) |}))
  /\ parse upper (txt "Zone;" ++ [CR; LF] ++ txt ", x;")
     = SyntaxErrorAt (txt ", ") 3.
Proof.
  split; [reflexivity|]. rewrite parse_reads. vm_compute. reflexivity.
Qed.

Lemma get_grouped_all objs k :
  get (grouped upper objs []) k =
  match filter (fun o => str_eqb (key_of upper o) k) objs with
  | [] => None
  | os => Some os
  end.
Proof. now rewrite get_grouped. Qed.

Lemma keys_grouped_all objs :
  map fst (grouped upper objs []) = first_seen (map (key_of upper) objs).
Proof.
  rewrite keys_grouped. cbn [map app].
  generalize (first_seen (map (key_of upper) objs)). intros l.
  induction l as [|k l IH]; [reflexivity|].
  cbn [filter]. unfold has_key at 1. cbn [map existsb negb]. now f_equal.
Qed.

Lemma document_by_keys (d : Document) :
  NoDup (map fst d) ->
  d = map (fun k => (k, match get d k with Some os => os | None => [] end))
          (map fst d).
Proof.
  induction d as [|[k os] d IH]; [reflexivity|]. cbn [map fst].
  intros H. inversion H as [|? ? Hk Hd]; subst.
  cbn [get]. rewrite str_eqb_refl. f_equal.
  rewrite (IH Hd) at 1. apply map_ext_in. intros k' Hk'.
  destruct (str_eqb k k') eqn:E; [|reflexivity].
  apply str_eqb_eq in E. now subst.
Qed.

(** The mapping of a list of objects, spelled out: the distinct keys in
    their order of first appearance, each with the objects of that key
    in the order of the list. *)
Lemma grouped_shape objs :
  grouped upper objs [] =
  map (fun k => (k, filter (fun o => str_eqb (key_of upper o) k) objs))
      (first_seen (map (key_of upper) objs)).
Proof.
  assert (NoDup (map fst (grouped upper objs []))) as Hk.
  { apply (@grouped_well_grouped upper objs []). split; constructor. }
  rewrite (@document_by_keys _ Hk) at 1. rewrite keys_grouped_all.
  apply map_ext. intros k. rewrite get_grouped_all.
  now destruct (filter _ objs).
Qed.

(** C7. Objects whose type names are equal up to case are stored under
    their common upper-cased key in the order in which they stand in the
    text: the list under the key is the list of the objects of the text
    with that key, in text order, so that of two such objects the one
    that comes first in the text comes first under the key. *)
Theorem same_type_objects_keep_source_order text d :
  parse upper text = Returned d ->
  exists objs,
    spans_idfobjectlist (tokens text) objs /\
    forall before o1 between o2 after,
      objs = before ++ o1 :: between ++ o2 :: after ->
      key_of upper o1 = key_of upper o2 ->
      let same := fun o => str_eqb (key_of upper o) (key_of upper o1) in
      get d (key_of upper o1) = Some (filter same objs) /\
      filter same objs
      = filter same before ++ o1 :: filter same between
          ++ o2 :: filter same after.
Proof.
  intros H. apply parse_returns in H as (objs & Hobjs & ->).
  exists objs. split; [assumption|].
  intros before o1 between o2 after -> Hkey same.
  assert (filter same (before ++ o1 :: between ++ o2 :: after)
          = filter same before ++ o1 :: filter same between
              ++ o2 :: filter same after) as E.
  { rewrite filter_app. cbn [filter]. rewrite filter_app. cbn [filter].
    unfold same at 2 4. now rewrite <- Hkey, !str_eqb_refl. }
  split; [|exact E].
  rewrite get_grouped_all. fold same. rewrite E.
  now destruct (filter same before).
Qed.

(** C8. The keys of a returned document are the distinct upper-cased
    type names of the objects of the text in the order of their first
    appearance, and under each key stand exactly the objects of the text
    with that key, unchanged and in text order: nothing is dropped,
    merged, reordered or rewritten. *)
Theorem keys_in_order_of_first_appearance text d :
  parse upper text = Returned d ->
  exists objs,
    spans_idfobjectlist (tokens text) objs /\
    map fst d = first_seen (map (key_of upper) objs) /\
    d = map (fun k => (k, filter (fun o => str_eqb (key_of upper o) k) objs))
            (first_seen (map (key_of upper) objs)).
Proof.
  intros H. apply parse_returns in H as (objs & Hobjs & ->).
  exists objs. repeat split; [assumption | apply keys_grouped_all |].
  apply grouped_shape.
Qed.
End Claims.

(** * Worked examples *)

Lemma walk_single_object ts o :
  walk AtStart [] ts = Some (AfterSemicolon o, []) -> spans_idfobject ts o.
Proof.
  intros H. apply walk_walked in H as (pre & part & -> & [[-> _]|Hc] & Ho).
  - exact Ho.
  - apply spans_idfobjectlist_nonempty in Hc. now destruct Hc.
Qed.

(** C1 at ["Material, Brick, 0.5, 0.8;"] and ["Material;"]. *)
Lemma parse_object_text_witness :
  (well_formed (txt "Material") /\
   Forall well_formed [txt "Brick"; txt "0.5"; txt "0.8"]) /\
  parse upper_ascii (txt "Material, Brick, 0.5, 0.8;")
  = Returned [(txt "MATERIAL",
               [[txt "Material"; txt "Brick"; txt "0.5"; txt "0.8"]])] /\
  parse upper_ascii (txt "Material;")
  = Returned [(txt "MATERIAL", [[txt "Material"]])].
Proof.
  assert (forall w, (w <> []) -> forallb valuechar w = true -> strip w = w ->
                    well_formed w) as Hwf by (intros w H1 H2 H3; now repeat split).
  assert (well_formed (txt "Material")) as H1
      by (apply Hwf; [discriminate | reflexivity | reflexivity]).
  assert (Forall well_formed [txt "Brick"; txt "0.5"; txt "0.8"]) as H2
      by (repeat constructor; apply Hwf; (discriminate || reflexivity)).
  split; [now split|].
  exact (parse_object_text upper_ascii H1 H2).
Defined.

(** C4 on an input with an empty field value: the document that
    ["Material,\r,0.5;"] parses to is written back as
    ["Material, , 0.5;"], which is a syntax error at the second comma. *)
Lemma roundtrip_breaks_on_empty_value :
  parse upper_ascii empty_value_text = Returned empty_value_document
  /\ serialize empty_value_document = txt "Material, , 0.5;"
  /\ parse upper_ascii (serialize empty_value_document)
     = SyntaxErrorAt (txt ", ") 1.
Proof. repeat split; vm_compute; reflexivity. Qed.

(** C4 (amended) at the two Zone objects. *)
Lemma serialize_parse_roundtrip_witness :
  (parse upper_ascii zone_text = Returned zone_document /\
   forall k os o s,
     In (k, os) zone_document -> In o os -> In s o -> s <> []) /\
  parse upper_ascii (serialize zone_document) = Returned zone_document.
Proof.
  assert (parse upper_ascii zone_text = Returned zone_document) as H1
      by (vm_compute; reflexivity).
  assert (forall k os o s,
             In (k, os) zone_document -> In o os -> In s o -> s <> []) as H2.
  { intros k os o s [[= <- <-]|[]] Ho Hs.
    cbn [In] in Ho.
    destruct Ho as [<-|[<-|[]]]; cbn [In] in Hs;
      destruct Hs as [<-|[<-|[<-|[]]]]; discriminate. }
  split; [now split|].
  exact (serialize_parse_roundtrip upper_ascii zone_text H1 H2).
Defined.

(** C5 at the empty text, at a text that is one comment, at a text
    without its final semicolon, and at a text with a comma where a
    value should stand. *)
Lemma syntax_errors_witness :
  (tokens [] = [] /\ parse upper_ascii [] = SyntaxErrorAtEOF) /\
  (tokens (txt "! only a comment") = [] /\
   parse upper_ascii (txt "! only a comment") = SyntaxErrorAtEOF) /\
  (ends_mid_object (tokens (txt "Material, Brick, 0.5, 0.8")) /\
   parse upper_ascii (txt "Material, Brick, 0.5, 0.8") = SyntaxErrorAtEOF) /\
  (exists pre t post,
      tokens (txt "Zone, , x;") = pre ++ t :: post /\
      viable pre /\ ~ viable (pre ++ [t]) /\
      value t = txt ", " /\ lineno t = 1%Z /\
      parse upper_ascii (txt "Zone, , x;") = SyntaxErrorAt (txt ", ") 1).
Proof.
  split; [|split; [|split]].
  - split; [reflexivity|].
    exact (proj1 (syntax_errors upper_ascii []) (or_introl eq_refl)).
  - split; [reflexivity|].
    exact (proj1 (syntax_errors upper_ascii (txt "! only a comment"))
                 (or_introl eq_refl)).
  - assert (ends_mid_object (tokens (txt "Material, Brick, 0.5, 0.8"))) as H.
    { exists [], (tokens (txt "Material, Brick, 0.5, 0.8")),
        [{| type := SEMICOLON; value := txt ";"; lineno := 1 |}],
        [txt "Material"; txt "Brick"; txt "0.5"; txt "0.8"].
      repeat split; [now left | discriminate | discriminate |].
      apply walk_single_object. reflexivity. }
    split; [exact H|].
    exact (proj1 (syntax_errors upper_ascii _) (or_intror H)).
  - pose (pre := [{| type := VALUE; value := txt "Zone"; lineno := 1 |};
                  {| type := COMMA; value := txt ", "; lineno := 1 |}]).
    pose (t := {| type := COMMA; value := txt ", "; lineno := 1 |}).
    pose (post := [{| type := VALUE; value := txt "x"; lineno := 1 |};
                   {| type := SEMICOLON; value := txt ";"; lineno := 1 |}]).
    exists pre, t, post.
    assert (viable pre) as Hv by (eapply walk_viable; reflexivity).
    assert (~ viable (pre ++ [t])) as Hn.
    { intros Hx. apply viable_walk in Hx as (p & d & Hx). discriminate Hx. }
    split; [reflexivity|]. split; [exact Hv|]. split; [exact Hn|].
    split; [reflexivity|]. split; [reflexivity|].
    exact (proj1 (proj2 (syntax_errors upper_ascii (txt "Zone, , x;")))
                 pre t post eq_refl Hv Hn).
Defined.

(** C6 on texts with a [$]: the character is matched by the VALUE rule,
    ["$;"] parses, and ["Material, Brick, 0.5, 0.8; $"] fails with the
    end-of-input syntax error, not with an illegal-character error. *)
Lemma dollar_is_a_value_character :
  first_match lexre (txt "$") = Some (VALUE, [])
  /\ parse upper_ascii (txt "$;") = Returned [(txt "$", [[txt "$"]])]
  /\ parse upper_ascii (txt "Material, Brick, 0.5, 0.8; $") = SyntaxErrorAtEOF
  /\ parse upper_ascii (txt "Material, Brick, 0.5, 0.8; $")
     <> IllegalCharacter 36%N 1.
Proof.
  assert (parse upper_ascii (txt "Material, Brick, 0.5, 0.8; $")
          = SyntaxErrorAtEOF) as H by (vm_compute; reflexivity).
  split; [vm_compute; reflexivity|]. split; [vm_compute; reflexivity|].
  split; [exact H|]. rewrite H. discriminate.
Qed.

(** C7 at ["Zone, LivingRoom, 20;\nZone, Kitchen, 15;"]. *)
Lemma same_type_objects_keep_source_order_witness :
  parse upper_ascii zone_text = Returned zone_document /\
  exists objs,
    spans_idfobjectlist (tokens zone_text) objs /\
    forall before o1 between o2 after,
      objs = before ++ o1 :: between ++ o2 :: after ->
      key_of upper_ascii o1 = key_of upper_ascii o2 ->
      let same := fun o => str_eqb (key_of upper_ascii o) (key_of upper_ascii o1) in
      get zone_document (key_of upper_ascii o1) = Some (filter same objs) /\
      filter same objs
      = filter same before ++ o1 :: filter same between
          ++ o2 :: filter same after.
Proof.
  assert (parse upper_ascii zone_text = Returned zone_document) as H
      by (vm_compute; reflexivity).
  split; [exact H|].
  exact (same_type_objects_keep_source_order upper_ascii zone_text H).
Defined.

(** C8 at a text with the types Zone, Building, zone, in that order. *)
Lemma keys_in_order_of_first_appearance_witness :
  parse upper_ascii building_text = Returned building_document /\
  map fst building_document = [txt "ZONE"; txt "BUILDING"] /\
  exists objs,
    spans_idfobjectlist (tokens building_text) objs /\
    map fst building_document = first_seen (map (key_of upper_ascii) objs) /\
    building_document
    = map (fun k => (k, filter (fun o => str_eqb (key_of upper_ascii o) k) objs))
          (first_seen (map (key_of upper_ascii) objs)).
Proof.
  assert (parse upper_ascii building_text = Returned building_document) as H
      by (vm_compute; reflexivity).
  split; [exact H|]. split; [reflexivity|].
  exact (keys_in_order_of_first_appearance upper_ascii building_text H).
Defined.

(** C9 at ["  Material ,  Wood , 0.3 , 0.6 ;"]. *)
Lemma padding_is_stripped_witness :
  (render (map padded material_padded) = txt "  Material ,  Wood , 0.3 , 0.6 ;" /\
   render (map unpadded material_padded) = txt "Material,Wood,0.3,0.6;" /\
   parse upper_ascii (txt "  Material ,  Wood , 0.3 , 0.6 ;")
   = Returned material_document /\
   material_padded <> [] /\ Forall padded_object material_padded) /\
  (forall k os o s,
      In (k, os) material_document -> In o os -> In s o -> no_outer_blank s) /\
  parse upper_ascii (render (map padded material_padded))
  = parse upper_ascii (render (map unpadded material_padded)).
Proof.
  assert (parse upper_ascii (txt "  Material ,  Wood , 0.3 , 0.6 ;")
          = Returned material_document) as H1 by (vm_compute; reflexivity).
  assert (material_padded <> []) as H2 by discriminate.
  assert (Forall padded_object material_padded) as H3.
  { repeat constructor; cbn; try discriminate. }
  pose proof (padding_is_stripped upper_ascii
                (txt "  Material ,  Wood , 0.3 , 0.6 ;")
                material_document material_padded) as [P1 P2].
  split; [repeat split; try assumption; reflexivity|].
  split; [exact (P1 H1) | exact (P2 H2 H3)].
Defined.

(** The cases of the repository's test suite, run on the model. *)
Lemma repository_tests :
  parse upper_ascii (txt "Version;")
  = Returned [(txt "VERSION", [[txt "Version"]])]
  /\ parse upper_ascii (txt "Material, Brick, 0.5, 0.8;")
     = Returned [(txt "MATERIAL",
                  [[txt "Material"; txt "Brick"; txt "0.5"; txt "0.8"]])]
  /\ parse upper_ascii zone_text = Returned zone_document
  /\ parse upper_ascii (txt "Building, MyHouse;" ++ [LF] ++ txt "Zone, Bedroom, 12;")
     = Returned [(txt "BUILDING", [[txt "Building"; txt "MyHouse"]]);
                 (txt "ZONE", [[txt "Zone"; txt "Bedroom"; txt "12"]])]
  /\ parse upper_ascii (txt "! This is a comment" ++ [LF]
                          ++ txt "Material, Wood, 0.3, 0.6; ! Another comment")
     = Returned material_document
  /\ parse upper_ascii (txt "  Material ,  Wood , 0.3 , 0.6 ;" ++ [LF; LF]
                          ++ txt "Zone , Bedroom , 12 ;")
     = Returned [(txt "MATERIAL",
                  [[txt "Material"; txt "Wood"; txt "0.3"; txt "0.6"]]);
                 (txt "ZONE", [[txt "Zone"; txt "Bedroom"; txt "12"]])]
  /\ parse upper_ascii (txt "Schedule, *, *, *;")
     = Returned [(txt "SCHEDULE", [[txt "Schedule"; txt "*"; txt "*"; txt "*"]])]
  /\ parse upper_ascii (txt "Material, Brick, 0.5, 0.8") = SyntaxErrorAtEOF
  /\ parse upper_ascii (txt "Material, Brick, 0.5, 0.8; $") = SyntaxErrorAtEOF
  /\ parse upper_ascii [] = SyntaxErrorAtEOF
  /\ parse upper_ascii (txt "Building;")
     = Returned [(txt "BUILDING", [[txt "Building"]])].
Proof. repeat split; vm_compute; reflexivity. Qed.

(** * The answers of [parse], in full *)

Lemma list_sum_cons a l : list_sum (a :: l) = (a + list_sum l)%nat.
Proof. reflexivity. Qed.

Lemma list_sum_nil : list_sum [] = 0%nat.
Proof. reflexivity. Qed.

Lemma count_type_app n a b :
  count_type n (a ++ b) = (count_type n a + count_type n b)%nat.
Proof. unfold count_type. now rewrite filter_app, length_app. Qed.

Lemma count_type_cons n t ts :
  count_type n (t :: ts) =
  ((if tokname_eqb (type t) n then 1 else 0) + count_type n ts)%nat.
Proof. unfold count_type. cbn [filter]. now destruct (tokname_eqb _ _). Qed.

Lemma spans_valuelist_counts ts l :
  spans_valuelist ts l ->
  count_type VALUE ts = length l /\
  (count_type COMMA ts + 1 = length l)%nat /\
  count_type SEMICOLON ts = 0%nat.
Proof.
  induction 1 as [v Hv|v c ts l Hv Hc H (IH1 & IH2 & IH3)].
  - rewrite !count_type_cons, Hv. now cbn.
  - rewrite !count_type_cons, Hv, Hc. cbn [tokname_eqb app length].
    repeat split; lia.
Qed.

Lemma spans_idfobject_counts ts o :
  spans_idfobject ts o ->
  count_type VALUE ts = length o /\
  (count_type COMMA ts + 1 = length o)%nat /\
  count_type SEMICOLON ts = 1%nat.
Proof.
  intros [n s Hn Hs|n c ts0 s l Hn Hc Hs Hl].
  - rewrite !count_type_cons, Hn, Hs. now cbn.
  - apply spans_valuelist_counts in Hl as (H1 & H2 & H3).
    rewrite !count_type_cons, !count_type_app, !count_type_cons, Hn, Hc, Hs.
    cbn [tokname_eqb app length count_type filter].
    repeat split; lia.
Qed.

Lemma spans_idfobjectlist_counts ts l :
  spans_idfobjectlist ts l ->
  count_type VALUE ts = list_sum (map (@length str) l) /\
  (count_type COMMA ts + length l = list_sum (map (@length str) l))%nat /\
  count_type SEMICOLON ts = length l.
Proof.
  induction 1 as [ts o Ho|ts1 o ts2 l Ho H (IH1 & IH2 & IH3)].
  - apply spans_idfobject_counts in Ho as (H1 & H2 & H3).
    cbn [map length]; rewrite ?list_sum_cons, ?list_sum_nil. repeat split; lia.
  - apply spans_idfobject_counts in Ho as (H1 & H2 & H3).
    rewrite !count_type_app. cbn [app map length]; rewrite ?list_sum_cons, ?list_sum_nil.
    repeat split; lia.
Qed.

Lemma total_objects_setdefault_append k o d :
  total_objects (setdefault_append k o d) = S (total_objects d).
Proof.
  unfold total_objects.
  induction d as [|[k0 os] d IH]; cbn [setdefault_append]; [reflexivity|].
  destruct (str_eqb k0 k); cbn [map snd]; rewrite ?list_sum_cons, ?list_sum_nil.
  - rewrite length_app. cbn [length]. lia.
  - rewrite IH. lia.
Qed.

Lemma total_strings_setdefault_append k o d :
  total_strings (setdefault_append k o d) = (total_strings d + length o)%nat.
Proof.
  unfold total_strings.
  induction d as [|[k0 os] d IH]; cbn [setdefault_append].
  - cbn. lia.
  - destruct (str_eqb k0 k); cbn [map concat snd].
    + rewrite !map_app, !list_sum_app. cbn [map]; rewrite ?list_sum_cons, ?list_sum_nil. lia.
    + unfold IdfObject in *. rewrite !map_app, !list_sum_app, IH. lia.
Qed.

Lemma totals_grouped upper objs : forall d,
  total_objects (grouped upper objs d) = (total_objects d + length objs)%nat /\
  total_strings (grouped upper objs d)
  = (total_strings d + list_sum (map (@length str) objs))%nat.
Proof.
  induction objs as [|o objs IH]; intros d.
  - cbn [grouped fold_left length map]. rewrite list_sum_nil. split; lia.
  - change (grouped upper (o :: objs) d)
      with (grouped upper objs (setdefault_append (key_of upper o) o d)).
    destruct (IH (setdefault_append (key_of upper o) o d)) as [-> ->].
    rewrite total_objects_setdefault_append, total_strings_setdefault_append.
    cbn [length map]; rewrite ?list_sum_cons, ?list_sum_nil. split; lia.
Qed.

Section Answers.
Variable upper : str -> str.

(** X1. The grammar is unambiguous, and [parse] is complete for it: a text
    whose tokens the grammar derives as a list of objects is parsed to
    the grouping of exactly these objects, and the tokens have no other
    derivation. *)
Theorem grammar_complete_unambiguous text objs :
  spans_idfobjectlist (tokens text) objs ->
  parse upper text = Returned (grouped upper objs []) /\
  forall objs', spans_idfobjectlist (tokens text) objs' -> objs' = objs.
Proof.
  intros H. split.
  - apply parse_returns. now exists objs.
  - intros objs' H'.
    destruct (walk_complete H) as (o & d & Hw & <-).
    destruct (walk_complete H') as (o' & d' & Hw' & <-).
    rewrite Hw in Hw'. now injection Hw' as <- <-.
Qed.

(** X2. The three ways a call of [parse] ends, each by the token sequence:
    the end-of-input error exactly when the tokens are a prefix of a
    sentence but no sentence; the error at a token exactly for the
    first token that no sentence continues through, with that token's
    text and line; and a document otherwise.  No call ends in another
    way. *)
Theorem parse_outcomes text :
  (parse upper text = SyntaxErrorAtEOF <->
   viable (tokens text) /\ ~ sentence (tokens text))
  /\
  (forall v l,
      parse upper text = SyntaxErrorAt v l <->
      exists pre t post,
        tokens text = pre ++ t :: post /\
        viable pre /\ ~ viable (pre ++ [t]) /\
        v = value t /\ l = lineno t)
  /\
  ((exists d, parse upper text = Returned d) \/
   parse upper text = SyntaxErrorAtEOF \/
   exists v l, parse upper text = SyntaxErrorAt v l).
Proof.
  assert (forall pre t p d,
             walk AtStart [] pre = Some (p, d) -> advance p d t = None ->
             ~ viable (pre ++ [t])) as Hstuck.
  { intros pre t p d Hw Ha Hv. apply viable_walk in Hv as (p' & d' & Hv).
    rewrite walk_snoc, Hw, Ha in Hv. discriminate Hv. }
  rewrite parse_reads.
  destruct (walk_cases (tokens text) AtStart [])
    as [(p & d0 & Hw)|(pre & t & post & p & d0 & E & Hw & Ha)].
  - rewrite (@read_walk upper _ _ _ _ _ Hw).
    assert (forall v l, ~ exists pre t post,
                 tokens text = pre ++ t :: post /\
                 viable pre /\ ~ viable (pre ++ [t]) /\
                 v = value t /\ l = lineno t) as Hno.
    { intros v l (pre & t & post & E & _ & Hn & _). apply Hn.
      rewrite E, walk_app in Hw.
      destruct (walk AtStart [] pre) as [[p1 d1]|] eqn:E1; [|discriminate].
      cbn [walk] in Hw.
      destruct (advance p1 d1 t) as [[p2 d2]|] eqn:E2; [|discriminate].
      apply (@walk_viable _ p2 d2). now rewrite walk_snoc, E1. }
    assert (forall o, p = AfterSemicolon o ->
                      exists d, read upper p d0 [] = Returned d) as Hret.
    { intros o ->.
      assert (sentence (tokens text)) as (objs & Hs)
          by (apply sentence_walk; now exists o, d0).
      exists (grouped upper objs []).
      rewrite <- (@read_walk upper _ _ _ _ _ Hw), <- parse_reads.
      apply parse_returns. now exists objs. }
    assert (sentence (tokens text) -> exists o, p = AfterSemicolon o) as Hsen.
    { intros Hs. apply sentence_walk in Hs as (o & d & Hs).
      rewrite Hw in Hs. injection Hs as -> ->. now exists o. }
    split; [|split].
    + split.
      * intros H. split; [now apply (@walk_viable _ p d0)|].
        intros Hs. apply Hsen in Hs as (o & ->).
        destruct (Hret o eq_refl) as (d & Hd). rewrite Hd in H. discriminate H.
      * intros [_ Hn]. destruct p as [| | | |o]; try reflexivity.
        exfalso. apply Hn. apply sentence_walk. now exists o, d0.
    + intros v l. split.
      * intros H. exfalso. destruct p as [| | | |o]; try discriminate H.
        destruct (Hret o eq_refl) as (d & Hd). rewrite Hd in H. discriminate H.
      * intros H. now destruct (Hno v l).
    + destruct p as [| | | |o];
        try (right; left; reflexivity).
      left. now apply (Hret o).
  - pose proof (@read_reject upper _ _ _ _ _ _ post Hw Ha) as R0.
    rewrite <- E in R0. rewrite R0.
    split; [|split].
    + split; [discriminate|].
      intros [Hv _]. exfalso. apply viable_walk in Hv as (p' & d' & Hv).
      rewrite E, walk_app, Hw in Hv. cbn [walk] in Hv. rewrite Ha in Hv.
      discriminate Hv.
    + intros v l. split.
      * intros [= <- <-]. exists pre, t, post.
        repeat split; [assumption | now apply (@walk_viable _ p d0) |].
        now apply (Hstuck _ _ _ _ Hw Ha).
      * intros (pre' & t' & post' & E' & Hv & Hn & -> & ->).
        apply viable_walk in Hv as (p' & d' & Hv).
        assert (advance p' d' t' = None) as Ha'.
        { destruct (advance p' d' t') as [[p2 d2]|] eqn:E2; [|reflexivity].
          exfalso. apply Hn. apply (@walk_viable _ p2 d2).
          now rewrite walk_snoc, Hv. }
        pose proof (@read_reject upper _ _ _ _ _ _ post' Hv Ha') as R'.
        pose proof (@read_reject upper _ _ _ _ _ _ post Hw Ha) as R.
        rewrite <- E' in R'. rewrite <- E in R. rewrite R in R'.
        now injection R' as <- <-.
    + right; right. now exists (value t), (lineno t).
Qed.

(** X3. The returned mapping is never empty, has each key once, and holds
    under each key at least one object; every object has its type name
    first, and it stands under the upper-cased type name. *)
Theorem returned_document_shape text d :
  parse upper text = Returned d ->
  d <> [] /\ NoDup (map fst d) /\
  forall k os, In (k, os) d ->
    os <> [] /\
    forall o, In o os -> exists name vs, o = name :: vs /\ k = upper name.
Proof.
  intros H. apply parse_returns in H as (objs & Hobjs & ->).
  destruct (@grouped_well_grouped upper objs []) as [Hnd Hall];
    [split; constructor|].
  split; [|split; [exact Hnd|]].
  - pose proof (spans_idfobjectlist_nonempty Hobjs) as Hne.
    destruct objs as [|o objs]; [congruence|]. apply grouped_nonempty.
  - intros k os Hk. rewrite Forall_forall in Hall.
    destruct (Hall _ Hk) as [Hne Hkey]. cbn [fst snd] in Hne, Hkey.
    split; [exact Hne|]. intros o Ho.
    rewrite Forall_forall in Hkey. specialize (Hkey o Ho).
    destruct (@grouped_In upper _ _ _ _ _ Hk Ho) as [Hin|(os0 & [] & _)].
    apply spans_idfobjectlist_from in Hobjs. rewrite Forall_forall in Hobjs.
    destruct (Hobjs o Hin) as [Hno _].
    destruct o as [|name vs]; [congruence|].
    exists name, vs. split; [reflexivity|]. now rewrite <- Hkey.
Qed.

(** X4. Every name and value of a returned document is the [strip()] of a
    VALUE token of the text: it holds no [!], [,], [;] or line feed, so
    no comment text, and no white space of any kind at either end. *)
Theorem returned_strings_from_values text d :
  parse upper text = Returned d ->
  forall k os o s, In (k, os) d -> In o os -> In s o ->
    from_tokens (tokens text) s /\
    (forall c, In c s ->
               c <> BANG /\ c <> COMMA_CHAR /\ c <> SEMICOLON_CHAR /\ c <> LF) /\
    strip s = s /\
    (forall c t, s = c :: t -> isspace c = false) /\
    (forall c t, s = t ++ [c] -> isspace c = false).
Proof.
  intros H k os o s Hk Ho Hs.
  destruct (@returned_strings upper _ _ _ _ _ _ H Hk Ho Hs) as (_ & Hv & Hst).
  apply parse_returns in H as (objs & Hobjs & ->).
  destruct (@grouped_In upper _ _ _ _ _ Hk Ho) as [Hin|(os0 & [] & _)].
  apply spans_idfobjectlist_from in Hobjs. rewrite Forall_forall in Hobjs.
  destruct (Hobjs o Hin) as [_ Hf]. rewrite Forall_forall in Hf.
  split; [exact (Hf s Hs)|]. split; [|split; [exact Hst|split]].
  - intros c Hc. rewrite forallb_forall in Hv. specialize (Hv c Hc).
    repeat split; intros ->; discriminate Hv.
  - intros c t E. rewrite <- Hst in E. now apply strip_first in E.
  - intros c t E. rewrite <- Hst in E. now apply strip_last in E.
Qed.

(** X5. A returned document holds one object for each SEMICOLON token and
    one string for each VALUE token of the text; the COMMA tokens are
    the strings that are not type names. *)
Theorem document_counts text d :
  parse upper text = Returned d ->
  total_objects d = count_type SEMICOLON (tokens text) /\
  total_strings d = count_type VALUE (tokens text) /\
  (count_type COMMA (tokens text) + total_objects d = total_strings d)%nat.
Proof.
  intros H. apply parse_returns in H as (objs & Hobjs & ->).
  apply spans_idfobjectlist_counts in Hobjs as (H1 & H2 & H3).
  destruct (totals_grouped upper objs []) as [-> ->].
  change (total_objects []) with 0%nat. change (total_strings []) with 0%nat.
  repeat split; lia.
Qed.

(** X6. The loop of [p_idffile] run on the objects of a returned document,
    taken key by key, builds the same document again. *)
Theorem regrouping_returns_the_document text d :
  parse upper text = Returned d ->
  p_idffile upper [PObjects (concat (map snd d))] = Some (PDoc d).
Proof.
  intros H. apply parse_returns in H as (objs & Hobjs & ->).
  cbn [p_idffile]. rewrite p_idffile_loop_grouped.
  - now rewrite regroup_grouped.
  - apply Forall_forall. intros o Ho.
    apply in_concat in Ho as (os & Hos & Ho).
    apply in_map_iff in Hos as ([k os'] & <- & Hk). cbn [snd] in Ho.
    destruct (@grouped_In upper _ _ _ _ _ Hk Ho) as [Hin|(os0 & [] & _)].
    apply spans_idfobjectlist_from in Hobjs. rewrite Forall_forall in Hobjs.
    now destruct (Hobjs o Hin).
Qed.
End Answers.

(** * The lexer, call by call *)

(** ** What a rule match consumes *)

Lemma skip_newlines_split s :
  exists n, s = n ++ skip_newlines s /\
            forallb (fun c => mem c [CR; LF]) n = true.
Proof.
  remember (length s) as k eqn:Hk. revert s Hk.
  induction k as [k IH] using lt_wf_ind. intros s Hk.
  destruct s as [|c t]; [now exists []|]. cbn [skip_newlines].
  destruct (c =? LF)%N eqn:E1.
  - apply N.eqb_eq in E1. subst c.
    destruct (IH (length t) ltac:(subst k; simpl; lia) t eq_refl)
      as (n & Hn & Hf).
    exists (LF :: n). cbn [app forallb]. rewrite Hf. now rewrite <- Hn.
  - destruct (c =? CR)%N eqn:E2; [|now exists []].
    apply N.eqb_eq in E2. subst c.
    destruct t as [|c2 t2]; [now exists []|].
    destruct (c2 =? LF)%N eqn:E3; [|now exists []].
    apply N.eqb_eq in E3. subst c2.
    destruct (IH (length t2) ltac:(subst k; simpl; lia) t2 eq_refl)
      as (n & Hn & Hf).
    exists (CR :: LF :: n). cbn [app forallb]. rewrite Hf. now rewrite <- Hn.
Qed.

Lemma blank_ws4 c : is_blank c = true -> ws4 c = true.
Proof.
  unfold is_blank, ws4, mem, blank. cbn [existsb].
  rewrite !orb_true_iff. intros [H|[H|H]]; [now left | right; now left |].
  discriminate H.
Qed.

Lemma forallb_impl (A : Type) (p q : A -> bool) l :
  (forall x, p x = true -> q x = true) ->
  forallb p l = true -> forallb q l = true.
Proof.
  intros Hpq. induction l as [|x l IH]; [reflexivity|]. cbn [forallb].
  rewrite !andb_true_iff. intros [H1 H2]. split; [now apply Hpq | now apply IH].
Qed.

Lemma match_delimiter_takes d s r :
  match_VALUE s = None -> match_delimiter d s = Some r ->
  exists b, s = (d :: b) ++ r /\ is_padding b /\
            match r with c :: _ => is_blank c = false | [] => True end.
Proof.
  unfold match_VALUE, match_delimiter.
  destruct s as [|c t]; [discriminate|].
  destruct (valuechar c) eqn:Hc; [discriminate|]. intros _.
  assert (is_blank c = false) as Hb.
  { destruct (is_blank c) eqn:E; [|reflexivity].
    apply blank_valuechar in E. congruence. }
  cbn [skip]. rewrite Hb.
  destruct (c =? d)%N eqn:E; [|discriminate]. apply N.eqb_eq in E. subst c.
  intros [= <-].
  destruct (skip_split is_blank t) as (b & Ht & Hf).
  exists b. split; [cbn [app]; now rewrite <- Ht|]. split; [exact Hf|].
  apply skip_head.
Qed.

Lemma master_takes s n r :
  master s = Some (n, r) ->
  exists m, s = m ++ r /\ m <> [] /\ takes n m r.
Proof.
  intros H. pose proof H as H0. rewrite <- first_match_master in H0.
  apply first_match_consumes in H0 as (m & Hm & Hs).
  exists m. split; [exact Hs|]. split; [exact Hm|].
  unfold master in H.
  destruct (match_COMMENT s) as [r1|] eqn:E1.
  { injection H as <- <-. cbn [takes].
    unfold match_COMMENT in E1.
    destruct (skip_split ws4 s) as (a & Ha & _). fold ws4 in E1.
    destruct (skip ws4 s) as [|c r'] eqn:E; [discriminate|].
    destruct (c =? BANG)%N eqn:Ec; [|discriminate].
    apply N.eqb_eq in Ec. subst c. injection E1 as E1.
    destruct (skip_split (fun x => negb (x =? LF)%N) r') as (b & Hb & _).
    rewrite E1 in Hb. rewrite Hb in Ha.
    assert (m = a ++ BANG :: b) as ->.
    { apply (app_inv_tail r1). rewrite <- Hs, Ha.
      now rewrite <- app_assoc. }
    apply in_or_app. right. now left. }
  destruct (match_newline s) as [r2|] eqn:E2.
  { injection H as <- <-. cbn [takes].
    unfold match_newline in E2.
    destruct (skip_split is_blank s) as (a & Ha & Hfa).
    destruct (eat_newline (skip is_blank s)) as [r'|] eqn:E; [|discriminate].
    injection E2 as E2.
    destruct (skip_newlines_split r') as (b & Hb & Hfb). rewrite E2 in Hb.
    assert (exists e, skip is_blank s = e ++ r' /\ e <> [] /\
                      forallb (fun c => mem c [CR; LF]) e = true)
      as (e & He & Hne & Hfe).
    { unfold eat_newline in E. destruct (skip is_blank s) as [|c t];
        [discriminate|].
      destruct (c =? LF)%N eqn:Ec.
      - apply N.eqb_eq in Ec. subst c. injection E as <-.
        exists [LF]. now repeat split.
      - destruct (c =? CR)%N eqn:Ec2; [|discriminate].
        apply N.eqb_eq in Ec2. subst c.
        destruct t as [|c2 t2]; [discriminate|].
        destruct (c2 =? LF)%N eqn:Ec3; [|discriminate].
        apply N.eqb_eq in Ec3. subst c2. injection E as <-.
        exists [CR; LF]. now repeat split. }
    assert (m = a ++ e ++ b) as ->.
    { apply (app_inv_tail r2). rewrite <- Hs, Ha, He, Hb.
      now rewrite <- !app_assoc. }
    exists a, (e ++ b). repeat split; [exact Hfa | |].
    - destruct e; [congruence | discriminate].
    - now rewrite forallb_app, Hfe, Hfb. }
  destruct (match_VALUE s) as [r3|] eqn:E3.
  { injection H as <- <-. cbn [takes].
    pose proof (match_VALUE_chars _ E3) as [_ Hv].
    rewrite Hs, matched_app in Hv. split; [exact Hv|].
    unfold match_VALUE in E3. destruct s as [|c t]; [discriminate|].
    destruct (valuechar c); [|discriminate]. injection E3 as <-.
    apply skip_head. }
  destruct (match_delimiter COMMA_CHAR s) as [r4|] eqn:E4.
  { injection H as <- <-. cbn [takes].
    destruct (match_delimiter_takes _ _ E3 E4) as (b & Hb & Hp & Hr).
    split; [|exact Hr]. exists b. split; [|exact Hp].
    apply (app_inv_tail r4). now rewrite <- Hs. }
  destruct (match_delimiter SEMICOLON_CHAR s) as [r5|] eqn:E5; [|discriminate].
  injection H as <- <-. cbn [takes].
  destruct (match_delimiter_takes _ _ E3 E5) as (b & Hb & Hp & Hr).
  split; [|exact Hr]. exists b. split; [|exact Hp].
  apply (app_inv_tail r5). now rewrite <- Hs.
Qed.

Lemma newline_ws4 m r : takes newline m r -> forallb ws4 m = true.
Proof.
  intros (a & e & -> & Ha & _ & He). rewrite forallb_app.
  rewrite (forallb_impl _ _ _ blank_ws4 Ha). cbn [andb].
  revert He. apply forallb_impl. intros c. unfold ws4, mem. cbn [existsb].
  rewrite !orb_true_iff. intros [H|[H|H]]; [| |discriminate H].
  - right; right; now left.
  - right; right; right; now left.
Qed.

(** ** Induction over the matches of one call of [token] *)

Lemma token_scan (P : Lexer -> LexToken -> Lexer -> Prop) :
  (forall s l n r,
      master s = Some (n, r) -> n <> COMMENT -> n <> newline ->
      P {| lexdata := s; lexer_lineno := l |}
        {| type := n; value := matched s r; lineno := l |}
        {| lexdata := r; lexer_lineno := l |}) ->
  (forall s l r t lx',
      master s = Some (COMMENT, r) ->
      P {| lexdata := r; lexer_lineno := l |} t lx' ->
      P {| lexdata := s; lexer_lineno := l |} t lx') ->
  (forall s l r t lx',
      master s = Some (newline, r) ->
      P {| lexdata := r;
           lexer_lineno := l + Z.of_nat (length (matched s r)) |} t lx' ->
      P {| lexdata := s; lexer_lineno := l |} t lx') ->
  forall lx t lx', token lx = Token t lx' -> P lx t lx'.
Proof.
  intros Htok Hcom Hnl lx.
  remember (length (lexdata lx)) as k eqn:Hk. revert lx Hk.
  induction k as [k IH] using lt_wf_ind. intros [s l] Hk t lx'.
  rewrite token_step. destruct s as [|c s0]; [discriminate|].
  destruct (master (c :: s0)) as [[n r]|] eqn:E; [|discriminate].
  destruct (master_takes _ E) as (m & Hs & Hm & _).
  assert (length r < k)%nat as Hl.
  { subst k. cbn [lexdata]. rewrite Hs, length_app.
    destruct m; [congruence | simpl; lia]. }
  destruct n.
  - intros H. apply (Hcom _ _ _ _ _ E). now apply (IH _ Hl).
  - intros H. apply (Hnl _ _ _ _ _ E). now apply (IH _ Hl).
  - intros [= <- <-]. now apply Htok.
  - intros [= <- <-]. now apply Htok.
  - intros [= <- <-]. now apply Htok.
  - intros [= <- <-]. now apply Htok.
Qed.

(** A property of every token a call can return holds of all the
    tokens of a text. *)
Lemma tokens_of_Forall (P : LexToken -> Prop) :
  (forall lx t lx', token lx = Token t lx' -> P t) ->
  forall lx, Forall P (tokens_of lx).
Proof.
  intros HP lx.
  remember (length (lexdata lx)) as k eqn:Hk. revert lx Hk.
  induction k as [k IH] using lt_wf_ind. intros lx Hk.
  rewrite tokens_of_step.
  destruct (token_total lx) as [H|(t & lx' & H & Hl)]; rewrite H;
    [constructor|].
  constructor; [now apply (HP _ _ _ H)|].
  subst k. now apply (IH _ Hl).
Qed.

Lemma token_takes lx t lx' :
  token lx = Token t lx' ->
  exists skipped,
    lexdata lx = skipped ++ value t ++ lexdata lx' /\
    value t <> [] /\ takes (type t) (value t) (lexdata lx') /\
    type t <> COMMENT /\ type t <> newline /\
    lineno t = lexer_lineno lx' /\
    (lexer_lineno lx <= lineno t
     <= lexer_lineno lx + Z.of_nat (length skipped))%Z /\
    ((forall c, In c skipped -> ws4 c = true) \/ In BANG skipped).
Proof.
  revert lx t lx'. apply token_scan.
  - intros s l n r E Hc Hn.
    destruct (master_takes _ E) as (m & Hs & Hm & Ht).
    exists []. cbn [lexdata lexer_lineno type value lineno app length].
    rewrite Hs, matched_app.
    repeat split; try assumption; try lia.
    left. intros c [].
  - intros s l r t lx' E (sk & Hs & Hv & Ht & Hc & Hn & Hl & Hb & Hw).
    destruct (master_takes _ E) as (m & Hs' & Hm & Hbang).
    cbn [takes] in Hbang. cbn [lexdata lexer_lineno] in *.
    exists (m ++ sk). rewrite <- app_assoc, <- Hs.
    repeat split; try assumption; try lia.
    + rewrite length_app. lia.
    + right. apply in_or_app. now left.
  - intros s l r t lx' E (sk & Hs & Hv & Ht & Hc & Hn & Hl & Hb & Hw).
    destruct (master_takes _ E) as (m & Hs' & Hm & Hall).
    apply newline_ws4 in Hall. cbn [lexdata lexer_lineno] in *.
    assert (matched s r = m) as Hmm by (rewrite Hs'; apply matched_app).
    rewrite Hmm in Hb.
    exists (m ++ sk). rewrite <- app_assoc, <- Hs.
    repeat split; try assumption; try lia.
    + rewrite length_app. lia.
    + destruct Hw as [Hw|Hw].
      * left. intros c Hc'. apply in_app_or in Hc' as [Hc'|Hc'];
          [|now apply Hw].
        rewrite forallb_forall in Hall. now apply Hall.
      * right. apply in_or_app. now right.
Qed.

(** X7. The text of every token: a VALUE is a non-empty run of characters
    other than [!], [,], [;] and the line feed; a COMMA or SEMICOLON
    token starts with its delimiter, which only spaces and tabs follow.
    As the VALUE rule is tried first and takes spaces and tabs, the
    leading [[ \t]*] of the two delimiter rules never matches a
    character.  No other type of token reaches the parser. *)
Theorem token_shapes text t :
  In t (tokens text) ->
  value t <> [] /\
  match type t with
  | VALUE => forallb valuechar (value t) = true
  | COMMA => exists b, value t = COMMA_CHAR :: b /\ is_padding b
  | SEMICOLON => exists b, value t = SEMICOLON_CHAR :: b /\ is_padding b
  | _ => False
  end.
Proof.
  revert t. apply Forall_forall. apply tokens_of_Forall.
  intros lx t lx' H.
  destruct (token_takes _ H) as (sk & _ & Hv & Ht & Hc & Hn & _).
  split; [exact Hv|].
  destruct (type t); cbn [takes] in Ht; try congruence; try tauto.
Qed.

(** X8. One call of [token]: the text it consumes is what it skips, then
    the token's text; what it skips is white space unless a comment is
    in it; the token ends where its rule can take no more; its line
    number is the line counter after the call, which has advanced by at
    most one for each skipped character. *)
Theorem token_call lx t lx' :
  token lx = Token t lx' ->
  exists skipped,
    lexdata lx = skipped ++ value t ++ lexdata lx' /\
    ((forall c, In c skipped -> ws4 c = true) \/ In BANG skipped) /\
    match lexdata lx' with
    | [] => True
    | c :: _ => if tokname_eqb (type t) VALUE then valuechar c = false
                else is_blank c = false
    end /\
    lineno t = lexer_lineno lx' /\
    (lexer_lineno lx <= lineno t
     <= lexer_lineno lx + Z.of_nat (length skipped))%Z.
Proof.
  intros H.
  destruct (token_takes _ H) as (sk & Hs & _ & Ht & Hc & Hn & Hl & Hb & Hw).
  exists sk. repeat split; try assumption; try lia.
  destruct (lexdata lx') as [|c r]; [exact I|].
  destruct (type t); cbn [takes tokname_eqb] in *; try congruence; tauto.
Qed.

(** ** The line counter *)

Lemma token_lineno lx t lx' :
  token lx = Token t lx' ->
  (lexer_lineno lx <= lineno t)%Z /\ lineno t = lexer_lineno lx'.
Proof.
  intros H.
  destruct (token_takes _ H) as (sk & _ & _ & _ & _ & _ & Hl & Hb & _).
  split; [lia | exact Hl].
Qed.

Lemma tokens_of_sorted lx :
  Forall (fun t => (lexer_lineno lx <= lineno t)%Z) (tokens_of lx) /\
  StronglySorted (fun a b => (lineno a <= lineno b)%Z) (tokens_of lx).
Proof.
  remember (length (lexdata lx)) as k eqn:Hk. revert lx Hk.
  induction k as [k IH] using lt_wf_ind. intros lx Hk.
  rewrite tokens_of_step.
  destruct (token_total lx) as [H|(t & lx' & H & Hl)]; rewrite H;
    [split; constructor|].
  destruct (token_lineno _ H) as [H1 H2].
  destruct (IH _ ltac:(subst k; exact Hl) lx' eq_refl) as [F S].
  split.
  - constructor; [exact H1|]. revert F. apply Forall_impl. intros a. lia.
  - constructor; [exact S|]. revert F. apply Forall_impl. intros a. lia.
Qed.

(** X9. The line numbers of the tokens start at 1 and never decrease along
    the text. *)
Theorem line_numbers_never_decrease text pre t1 mid t2 post :
  tokens text = pre ++ t1 :: mid ++ t2 :: post ->
  (1 <= lineno t1 <= lineno t2)%Z.
Proof.
  intros E. destruct (tokens_of_sorted (lex text)) as [F S].
  fold (tokens text) in F, S. rewrite E in F, S. split.
  - rewrite Forall_forall in F. apply (F t1).
    apply in_or_app. right. now left.
  - clear F E. induction pre as [|p pre IH]; cbn [app] in S.
    + apply StronglySorted_inv in S as [_ F].
      rewrite Forall_forall in F. apply F.
      apply in_or_app. right. now left.
    + apply StronglySorted_inv in S as [S _]. now apply IH.
Qed.

Lemma count_lf_app a b : count_lf (a ++ b) = (count_lf a + count_lf b)%nat.
Proof. unfold count_lf. now rewrite filter_app, length_app. Qed.

Lemma count_lf_none m : (forall c, In c m -> c <> LF) -> count_lf m = 0%nat.
Proof.
  unfold count_lf. induction m as [|c m IH]; [reflexivity|]. intros H.
  cbn [filter]. destruct (LF =? c)%N eqn:E.
  - apply N.eqb_eq in E. exfalso. apply (H c); [now left | now symmetry].
  - apply IH. intros x Hx. apply H. now right.
Qed.

Lemma count_lf_all m : (forall c, In c m -> c = LF) -> count_lf m = length m.
Proof.
  unfold count_lf. induction m as [|c m IH]; [reflexivity|]. intros H.
  cbn [filter]. rewrite (H c (or_introl eq_refl)).
  change (LF =? LF)%N with true. cbn [length]. f_equal.
  apply IH. intros x Hx. apply H. now right.
Qed.

Lemma plain_app_r a b : plain (a ++ b) = true -> plain b = true.
Proof.
  induction a as [|c a IH]; [trivial|]. cbn [app plain].
  rewrite !andb_true_iff. intros [_ H]. now apply IH.
Qed.

Lemma plain_chars s c : plain s = true -> In c s -> c <> BANG /\ c <> CR.
Proof.
  induction s as [|x s IH]; [intros _ []|]. cbn [plain].
  rewrite !andb_true_iff, !negb_true_iff. intros [[[H1 H2] _] H] [<-|Hc].
  - split; intros ->; discriminate.
  - now apply IH.
Qed.

Lemma plain_blank_lf a c b :
  plain (a ++ c :: LF :: b) = true -> is_blank c = false.
Proof.
  intros H. apply plain_app_r in H. cbn [plain] in H.
  rewrite !andb_true_iff, !negb_true_iff in H.
  destruct H as [[[_ _] H] _]. change (LF =? LF)%N with true in H.
  now rewrite andb_true_r in H.
Qed.

Lemma token_no_lf n m r :
  n <> COMMENT -> n <> newline -> takes n m r -> count_lf m = 0%nat.
Proof.
  intros Hc Hn Ht. apply count_lf_none. intros c Hin ->.
  assert (forall b, is_padding b -> ~ In LF b) as Hpad.
  { intros b Hb Hx. unfold is_padding in Hb. rewrite forallb_forall in Hb.
    now apply Hb in Hx. }
  destruct n; cbn [takes] in Ht; try congruence.
  - destruct Ht as [Hv _]. rewrite forallb_forall in Hv.
    now apply Hv in Hin.
  - destruct Ht as [(b & -> & Hb) _]. destruct Hin as [E|Hin];
      [discriminate E | now apply (Hpad b)].
  - destruct Ht as [(b & -> & Hb) _]. destruct Hin as [E|Hin];
      [discriminate E | now apply (Hpad b)].
Qed.

(** On plain text a newline match is made of line feeds only. *)
Lemma plain_newline m r :
  plain (m ++ r) = true -> takes newline m r -> count_lf m = length m.
Proof.
  intros Hp (a & e & -> & Ha & Hne & He).
  assert (forall c, In c e -> c = LF) as Hlf.
  { intros c Hc. rewrite forallb_forall in He. pose proof (He c Hc) as H.
    unfold mem in H. cbn [existsb] in H. rewrite !orb_true_iff in H.
    destruct H as [H|[H|H]]; [|now apply N.eqb_eq in H | discriminate H].
    apply N.eqb_eq in H. subst c. exfalso.
    destruct (@plain_chars _ CR Hp) as [_ Hx]; [|now apply Hx].
    apply in_or_app. left. apply in_or_app. now right. }
  assert (a = []) as ->.
  { destruct a as [|c0 a0]; [reflexivity|].
    destruct (@exists_last _ (c0 :: a0)) as (a' & c & E); [discriminate|].
    exfalso. rewrite E in Hp, Ha.
    unfold is_padding in Ha. rewrite forallb_app in Ha.
    apply andb_true_iff in Ha as [_ Ha]. cbn [forallb] in Ha.
    rewrite andb_true_r in Ha.
    destruct e as [|c1 e]; [congruence|].
    rewrite (Hlf c1 (or_introl eq_refl)) in Hp.
    rewrite <- !app_assoc in Hp. cbn [app] in Hp.
    apply plain_blank_lf in Hp. unfold is_blank in Hp. congruence. }
  cbn [app]. now apply count_lf_all.
Qed.

Lemma plain_token lx t lx' :
  token lx = Token t lx' ->
  plain (lexdata lx) = true ->
  exists skipped,
    lexdata lx = skipped ++ value t ++ lexdata lx' /\
    lineno t = (lexer_lineno lx + Z.of_nat (count_lf skipped))%Z /\
    lexer_lineno lx' = lineno t /\
    count_lf (value t) = 0%nat /\
    plain (lexdata lx') = true.
Proof.
  revert lx t lx'.
  apply (@token_scan (fun lx t lx' =>
    plain (lexdata lx) = true ->
    exists skipped,
      lexdata lx = skipped ++ value t ++ lexdata lx' /\
      lineno t = (lexer_lineno lx + Z.of_nat (count_lf skipped))%Z /\
      lexer_lineno lx' = lineno t /\
      count_lf (value t) = 0%nat /\
      plain (lexdata lx') = true)).
  - intros s l n r E Hc Hn Hp. cbn [lexdata lexer_lineno value lineno] in *.
    destruct (master_takes _ E) as (m & Hs & Hm & Ht).
    exists []. rewrite Hs, matched_app. cbn [app count_lf filter length].
    repeat split; try lia.
    + eapply token_no_lf; eassumption.
    + rewrite Hs in Hp. now apply plain_app_r in Hp.
  - intros s l r t lx' E _ Hp. exfalso. cbn [lexdata] in Hp.
    destruct (master_takes _ E) as (m & Hs & _ & Ht). cbn [takes] in Ht.
    destruct (@plain_chars _ BANG Hp) as [Hx _]; [|now apply Hx].
    rewrite Hs. apply in_or_app. now left.
  - intros s l r t lx' E IH Hp. cbn [lexdata lexer_lineno] in *.
    destruct (master_takes _ E) as (m & Hs & Hm & Ht).
    assert (matched s r = m) as Hmm by (rewrite Hs; apply matched_app).
    rewrite Hmm in IH. rewrite Hs in Hp.
    destruct (IH (plain_app_r _ _ Hp)) as (sk & Hr & Hl & Hl' & Hv & Hp').
    exists (m ++ sk). rewrite <- app_assoc, <- Hr.
    repeat split; try assumption.
    rewrite count_lf_app, (@plain_newline _ _ Hp Ht). lia.
Qed.

Lemma plain_tokens pre : forall s l t post,
  plain s = true ->
  tokens_of {| lexdata := s; lexer_lineno := l |} = pre ++ t :: post ->
  exists before after,
    s = before ++ value t ++ after /\
    lineno t = (l + Z.of_nat (count_lf before))%Z /\
    tokens_of {| lexdata := after; lexer_lineno := lineno t |} = post.
Proof.
  induction pre as [|t0 pre IH]; intros s l t post Hp E; cbn [app] in E;
    apply tokens_of_cons in E as ([s' l'] & H & E);
    destruct (plain_token _ H Hp) as (sk & Hs & Hl & Hl' & Hv & Hp');
    cbn [lexdata lexer_lineno] in *.
  - exists sk, s'. subst l'. now repeat split.
  - destruct (IH _ _ _ _ Hp' E) as (before & after & Hs' & Hl2 & E2).
    exists (sk ++ value t0 ++ before), after.
    rewrite <- !app_assoc, <- Hs'. split; [exact Hs|]. split; [|exact E2].
    rewrite !count_lf_app, Hv. lia.
Qed.

(** X10. On text without [!] and carriage return, and without a space or
    tab directly before a line feed, the line number of every token is
    the line on which its text starts: one more than the number of line
    feeds before the token. *)
Theorem line_numbers_exact text pre t post :
  plain text = true ->
  tokens text = pre ++ t :: post ->
  exists before after,
    text = before ++ value t ++ after /\
    lineno t = (1 + Z.of_nat (count_lf before))%Z /\
    tokens_of {| lexdata := after; lexer_lineno := lineno t |} = post.
Proof. intros Hp E. exact (@plain_tokens pre text 1 t post Hp E). Qed.

(** * Free layout: spacing and comments between the fields *)

Lemma spacing_end_app st a b :
  spacing_end st (a ++ b) =
  match spacing_end st a with
  | Some st' => spacing_end st' b
  | None => None
  end.
Proof.
  revert st. induction a as [|c a IH]; intros st; cbn [app spacing_end];
    [reflexivity|].
  destruct (spacing_next st c); [apply IH | reflexivity].
Qed.

Lemma ws4_cases c :
  ws4 c = true -> is_blank c = true \/ c = CR \/ c = LF.
Proof.
  unfold ws4, is_blank, mem, blank. cbn [existsb].
  rewrite !orb_true_iff, !N.eqb_eq. intros [H|[H|[H|[H|H]]]]; subst;
    try (left; cbn; tauto); try tauto.
Qed.

Lemma spacing_next_cases st c st2 :
  spacing_next st c = Some st2 -> st <> InComment ->
  (ws4 c = true /\ st2 <> InComment) \/
  (c = BANG /\ st2 = InComment /\ st <> AfterCR).
Proof.
  intros H Hst. destruct st; cbn [spacing_next] in H; try congruence.
  - destruct (is_blank c) eqn:Eb.
    { injection H as <-. left. split; [now apply blank_ws4 | discriminate]. }
    destruct (c =? LF)%N eqn:E1.
    { apply N.eqb_eq in E1. subst c. injection H as <-.
      left. split; [reflexivity | discriminate]. }
    destruct (c =? CR)%N eqn:E2.
    { apply N.eqb_eq in E2. subst c. injection H as <-.
      left. split; [reflexivity | discriminate]. }
    destruct (c =? BANG)%N eqn:E3; [|discriminate].
    apply N.eqb_eq in E3. subst c. injection H as <-.
    right. repeat split; discriminate.
  - destruct (is_blank c) eqn:Eb.
    { injection H as <-. left. split; [now apply blank_ws4 | discriminate]. }
    destruct (c =? LF)%N eqn:E1.
    { apply N.eqb_eq in E1. subst c. injection H as <-.
      left. split; [reflexivity | discriminate]. }
    destruct (c =? CR)%N eqn:E2.
    { apply N.eqb_eq in E2. subst c. injection H as <-.
      left. split; [reflexivity | discriminate]. }
    destruct (c =? BANG)%N eqn:E3; [|discriminate].
    apply N.eqb_eq in E3. subst c. injection H as <-.
    right. repeat split; discriminate.
  - destruct (c =? LF)%N eqn:E1; [|discriminate].
    apply N.eqb_eq in E1. subst c. injection H as <-.
    left. split; [reflexivity | discriminate].
Qed.

(** White space alone never opens a comment. *)
Lemma spacing_ws4 w : forall st st',
  forallb ws4 w = true -> st <> InComment ->
  spacing_end st w = Some st' -> st' <> InComment.
Proof.
  induction w as [|c w IH]; intros st st' Hw Hst; cbn [spacing_end].
  - now intros [= <-].
  - cbn [forallb] in Hw. apply andb_true_iff in Hw as [Hc Hw].
    destruct (spacing_next st c) as [st1|] eqn:E; [|discriminate].
    destruct (@spacing_next_cases _ _ _ E Hst) as [[_ H1]|[-> _]].
    + now apply IH.
    + discriminate Hc.
Qed.

Lemma spacing_end_blanks a : forall st,
  forallb is_blank a = true -> st = Fresh \/ st = InBlanks ->
  spacing_end st a = Some (match a with [] => st | _ :: _ => InBlanks end).
Proof.
  induction a as [|c a IH]; intros st Ha Hst; [reflexivity|].
  cbn [forallb] in Ha. apply andb_true_iff in Ha as [Hc Ha].
  cbn [spacing_end].
  assert (spacing_next st c = Some InBlanks) as ->.
  { destruct Hst as [-> | ->]; cbn [spacing_next]; now rewrite Hc. }
  rewrite IH by (assumption || now right). now destruct a.
Qed.

(** After spaces and tabs a scan goes on as from a fresh start. *)
Lemma spacing_end_after_blanks a g st :
  forallb is_blank a = true ->
  spacing_end Fresh (a ++ g) = Some st -> g <> [] ->
  spacing_end Fresh g = Some st.
Proof.
  intros Ha H Hg. rewrite spacing_end_app in H.
  rewrite (@spacing_end_blanks a Fresh Ha (or_introl eq_refl)) in H.
  destruct g as [|c g]; [congruence|]. now destruct a.
Qed.

(** Inside a comment: up to its line feed, or to the end. *)
Lemma comment_scan rest g : forall st,
  spacing_end InComment g = Some st ->
  (exists g', skip (fun x => negb (x =? LF)%N) (g ++ rest) = LF :: g' ++ rest /\
              (length g' < length g)%nat /\
              spacing_end Fresh g' = Some st) \/
  (st = InComment /\
   skip (fun x => negb (x =? LF)%N) (g ++ rest)
   = skip (fun x => negb (x =? LF)%N) rest).
Proof.
  induction g as [|c g IH]; intros st; cbn [spacing_end app].
  - intros [= <-]. now right.
  - cbn [spacing_next skip]. destruct (c =? LF)%N eqn:E; cbn [negb].
    + apply N.eqb_eq in E. subst c. intros H. left. exists g.
      repeat split; [simpl; lia | exact H].
    + intros H. destruct (IH _ H) as [(g' & H1 & H2 & H3)|[-> H1]].
      * left. exists g'. repeat split; [exact H1 | simpl; lia | exact H3].
      * now right.
Qed.

Lemma token_step_master s l n r :
  s <> [] -> master s = Some (n, r) ->
  token {| lexdata := s; lexer_lineno := l |} =
  match n with
  | COMMENT => token {| lexdata := r; lexer_lineno := l |}
  | newline =>
      token {| lexdata := r;
               lexer_lineno := l + Z.of_nat (length (matched s r)) |}
  | _ => Token {| type := n; value := matched s r; lineno := l |}
               {| lexdata := r; lexer_lineno := l |}
  end.
Proof.
  intros Hs E. rewrite token_step. destruct s; [congruence|]. now rewrite E.
Qed.

Section Silent.
Variable rest : str.
Hypothesis no_comment : match_COMMENT rest = None.
Hypothesis no_newline : eat_newline rest = None.

(** A newline run stops inside the spacing or at its end. *)
Lemma newlines_scan k : forall x st,
  (length x <= k)%nat ->
  spacing_end Fresh x = Some st -> st <> AfterCR ->
  exists y, skip_newlines (x ++ rest) = y ++ rest /\
            (length y <= length x)%nat /\
            spacing_end Fresh y = Some st.
Proof.
  induction k as [k IH] using lt_wf_ind. intros x st Hk Hx Hst.
  destruct x as [|c x].
  - exists []. cbn [app]. rewrite skip_newlines_eat, no_newline.
    now repeat split.
  - cbn [app skip_newlines]. destruct (c =? LF)%N eqn:E1.
    + apply N.eqb_eq in E1. subst c.
      change (spacing_end Fresh (LF :: x)) with (spacing_end Fresh x) in Hx.
      destruct (IH (length x) ltac:(simpl in Hk; lia) x st (le_n _) Hx Hst)
        as (y & H1 & H2 & H3).
      exists y. repeat split; [exact H1 | simpl; lia | exact H3].
    + destruct (c =? CR)%N eqn:E2.
      * apply N.eqb_eq in E2. subst c.
        destruct x as [|c2 x2].
        { cbn in Hx. injection Hx as <-. congruence. }
        cbn [app]. destruct (c2 =? LF)%N eqn:E3.
        -- apply N.eqb_eq in E3. subst c2.
           change (spacing_end Fresh (CR :: LF :: x2))
             with (spacing_end Fresh x2) in Hx.
           destruct (IH (length x2) ltac:(simpl in Hk; lia) x2 st
                        (le_n _) Hx Hst) as (y & H1 & H2 & H3).
           exists y. repeat split; [exact H1 | simpl; lia | exact H3].
        -- exfalso. change (spacing_end Fresh (CR :: c2 :: x2))
             with (match spacing_next AfterCR c2 with
                   | Some st' => spacing_end st' x2
                   | None => None
                   end) in Hx.
           cbn [spacing_next] in Hx. rewrite E3 in Hx. discriminate Hx.
      * exists (c :: x). now repeat split.
Qed.

Hypothesis no_newline' : eat_newline (skip is_blank rest) = None.

(** Spacing is skipped by the lexer, up to the spaces and tabs at its
    end, whatever the line counter becomes. *)
Lemma silent_run k : forall g st l,
  (length g <= k)%nat ->
  spacing_end Fresh g = Some st -> st <> AfterCR ->
  (st = InComment -> rest = []) ->
  exists b l',
    token {| lexdata := g ++ rest; lexer_lineno := l |}
    = token {| lexdata := b ++ rest; lexer_lineno := l' |} /\
    is_padding b /\ (st <> InBlanks -> b = []) /\ (st = InBlanks -> b <> []).
Proof.
  induction k as [k IH] using lt_wf_ind. intros g st l Hk Hg Hst Hopen.
  destruct (forallb is_blank g) eqn:Hb.
  { exists g, l. split; [reflexivity|]. split; [exact Hb|].
    rewrite (@spacing_end_blanks g Fresh Hb (or_introl eq_refl)) in Hg.
    destruct g as [|c g]; injection Hg as <-.
    - split; [reflexivity | discriminate].
    - split; [congruence | discriminate]. }
  assert (g <> []) as Hne by (intros ->; discriminate Hb).
  assert (g ++ rest <> []) as Hne'.
  { destruct g; [congruence | discriminate]. }
  destruct (skip_split ws4 g) as (w & Hgw & Hw).
  destruct (skip ws4 g) as [|c g2] eqn:Eskip.
  - (* white space only: a newline run *)
    rewrite app_nil_r in Hgw. subst w.
    destruct (skip_app_some is_blank g rest Hb) as [Hsk Hsk'].
    destruct (skip_split is_blank g) as (a & Hga & Ha).
    destruct (skip is_blank g) as [|c g1] eqn:Eg1; [congruence|].
    pose proof (skip_head is_blank g) as Hc. rewrite Eg1 in Hc.
    assert (spacing_end Fresh (c :: g1) = Some st) as Hg1.
    { rewrite Hga in Hg.
      apply (spacing_end_after_blanks a); [exact Ha | exact Hg | discriminate]. }
    assert (exists x, eat_newline (c :: g1 ++ rest) = Some (x ++ rest) /\
                      (length x < length g)%nat /\
                      spacing_end Fresh x = Some st) as (x & Hx1 & Hx2 & Hx3).
    { assert (ws4 c = true) as Hc4.
      { rewrite Hga, forallb_app in Hw. apply andb_true_iff in Hw as [_ Hw].
        cbn [forallb] in Hw. now apply andb_true_iff in Hw as [Hw _]. }
      assert (length g1 < length g)%nat as Hl.
      { rewrite Hga, length_app. simpl. lia. }
      destruct (@ws4_cases _ Hc4) as [H|[-> | ->]]; [congruence | |].
      - destruct g1 as [|c2 g1'].
        { cbn in Hg1. injection Hg1 as <-. congruence. }
        change (spacing_end Fresh (CR :: c2 :: g1'))
          with (match spacing_next AfterCR c2 with
                | Some st' => spacing_end st' g1'
                | None => None
                end) in Hg1.
        cbn [spacing_next] in Hg1.
        destruct (c2 =? LF)%N eqn:E2; [|discriminate Hg1].
        apply N.eqb_eq in E2. subst c2.
        exists g1'. repeat split; [simpl in Hl; lia | exact Hg1].
      - exists g1. repeat split; [exact Hl | exact Hg1]. }
    destruct (@newlines_scan (length x) x st (le_n _) Hx3 Hst)
      as (y & Hy1 & Hy2 & Hy3).
    assert (master (g ++ rest) = Some (newline, y ++ rest)) as Hm.
    { unfold master.
      assert (match_COMMENT (g ++ rest) = None) as ->.
      { unfold match_COMMENT. fold ws4. rewrite skip_app_all by exact Hw.
        exact no_comment. }
      unfold match_newline. rewrite Hsk. cbn [app]. rewrite Hx1.
      now rewrite Hy1. }
    rewrite (token_step_master l Hne' Hm).
    destruct (IH (length y) ltac:(lia) y st
                 (l + Z.of_nat (length (matched (g ++ rest) (y ++ rest))))%Z
                 (le_n _) Hy3 Hst Hopen) as (b & l' & H1 & H2 & H3 & H4).
    exists b, l'. repeat split; assumption.
  - (* a comment ahead *)
    pose proof (skip_head ws4 g) as Hc. rewrite Eskip in Hc.
    rewrite Hgw, spacing_end_app in Hg.
    destruct (spacing_end Fresh w) as [st1|] eqn:Ew; [|discriminate].
    assert (st1 <> InComment) as Hst1
        by (apply (@spacing_ws4 w Fresh st1 Hw); [discriminate | exact Ew]).
    cbn [spacing_end] in Hg.
    destruct (spacing_next st1 c) as [st2|] eqn:En; [|discriminate].
    destruct (@spacing_next_cases _ _ _ En Hst1) as [[H _]|(-> & -> & _)];
      [congruence|].
    assert (length g2 < length g)%nat as Hl.
    { rewrite Hgw, length_app. simpl. lia. }
    assert (forall r, skip (fun x => negb (x =? LF)%N) (g2 ++ rest) = r ->
                      master (g ++ rest) = Some (COMMENT, r)) as Hm.
    { intros r Hr. unfold master, match_COMMENT. fold ws4.
      rewrite Hgw, <- app_assoc. cbn [app].
      rewrite skip_app_stop by (exact Hw || reflexivity).
      change (BANG =? BANG)%N with true. cbv iota. now rewrite Hr. }
    destruct (comment_scan rest g2 Hg) as [(g' & H1 & H2 & H3)|[-> H1]].
    + rewrite (token_step_master l Hne' (Hm _ H1)).
      change (LF :: g' ++ rest) with ((LF :: g') ++ rest).
      destruct (IH (length (LF :: g')) ltac:(simpl; lia) (LF :: g') st l
                   (le_n _) H3 Hst Hopen) as (b & l' & H4 & H5 & H6 & H7).
      exists b, l'. repeat split; assumption.
    + rewrite (Hopen eq_refl) in *. cbn [skip] in H1.
      rewrite (token_step_master l Hne' (Hm _ H1)).
      exists [], l. repeat split; discriminate.
Qed.
End Silent.

Lemma join_more sep (p q : str) rest :
  join sep (p :: q :: rest) = p ++ sep ++ join sep (q :: rest).
Proof. reflexivity. Qed.

Lemma word_follows w d more :
  forallb valuechar w = true -> is_delimiter d ->
  match_COMMENT (w ++ d :: more) = None /\
  eat_newline (w ++ d :: more) = None /\
  eat_newline (skip is_blank (w ++ d :: more)) = None.
Proof.
  intros Hw Hd.
  assert (d <> BANG /\ d <> LF /\ d <> CR /\ is_blank d = false /\
          mem d [SPACE; TAB; CR; LF] = false) as (H1 & H2 & H3 & H4 & H5)
      by (destruct Hd as [-> | ->]; repeat split; discriminate).
  split; [now apply word_not_comment|]. split; [now apply word_no_newline|].
  destruct (@skip_app_suffix is_blank w d more H4) as (w1 & w2 & -> & ->).
  rewrite forallb_app in Hw. apply andb_true_iff in Hw as [_ Hw].
  now apply word_no_newline.
Qed.

Lemma strip_blank_prefix b w : is_padding b -> strip (b ++ w) = strip w.
Proof.
  intros Hb. rewrite <- (app_nil_r w) at 1.
  now apply strip_pad.
Qed.

(** The field after spacing is the next token; the spaces and tabs
    that end the spacing go into its text and are stripped later. *)
Lemma token_after_gap g w d more l :
  is_gap g -> w <> [] -> forallb valuechar w = true -> is_delimiter d ->
  exists v l',
    token {| lexdata := g ++ w ++ d :: more; lexer_lineno := l |}
    = Token {| type := VALUE; value := v; lineno := l' |}
            {| lexdata := d :: more; lexer_lineno := l' |} /\
    strip v = strip w.
Proof.
  intros Hg Hne Hw Hd.
  destruct (@word_follows w d more Hw Hd) as (F1 & F2 & F3).
  assert (exists st, spacing_end Fresh g = Some st /\ st <> AfterCR /\
                     st <> InComment) as (st & Hst & H1 & H2).
  { destruct Hg as [H|H]; eexists; (split; [exact H|]); split; discriminate. }
  destruct (@silent_run (w ++ d :: more) F1 F2 F3 (length g) g st l (le_n _)
                        Hst H1 ltac:(congruence)) as (b & l' & Ht & Hb & _).
  exists (b ++ w), l'. split; [|now apply strip_blank_prefix].
  rewrite Ht, app_assoc. apply token_word; [| |exact Hd].
  - destruct b; [exact Hne | discriminate].
  - rewrite forallb_app, Hw, andb_true_r.
    revert Hb. apply forallb_impl, blank_valuechar.
Qed.

Lemma token_after_gap_skipped g f d more l :
  is_gap g -> is_field f -> is_delimiter d ->
  exists v l',
    token {| lexdata := skip is_blank (g ++ f ++ d :: more);
             lexer_lineno := l |}
    = Token {| type := VALUE; value := v; lineno := l' |}
            {| lexdata := d :: more; lexer_lineno := l' |} /\
    strip v = strip f.
Proof.
  intros Hg Hf Hd. destruct (forallb is_blank g) eqn:Hb.
  - rewrite skip_app_all by exact Hb.
    destruct (is_field_skip Hf) as (Hne & Hv & Hskip). rewrite Hskip.
    exists (skip is_blank f), l. split; [now apply token_word|].
    apply strip_skip_blank.
  - destruct (skip_app_some is_blank g (f ++ d :: more) Hb) as [-> Hne].
    destruct (is_field_word Hf) as [Hfn Hfv].
    apply token_after_gap; try assumption.
    destruct (skip_split is_blank g) as (a & Ha & Hfa).
    destruct Hg as [H|H]; rewrite Ha in H;
      apply (@spacing_end_after_blanks a _ _ Hfa) in H; try assumption;
      [now left | now right].
Qed.

(** Spacing that ends the text after a semicolon gives no token. *)
Lemma ending_silent e l :
  is_ending e ->
  tokens_of {| lexdata := skip is_blank e; lexer_lineno := l |} = [].
Proof.
  intros He.
  assert (exists st, spacing_end Fresh (skip is_blank e) = Some st /\
                     st <> AfterCR /\ st <> InBlanks) as (st & Hst & H1 & H2).
  { destruct He as [H|H]; eexists; (split; [exact H|]); split; discriminate. }
  destruct (@silent_run [] eq_refl eq_refl eq_refl _ _ st l (le_n _)
                        Hst H1 ltac:(reflexivity)) as (b & l' & Ht & _ & Hb & _).
  rewrite (Hb H2), !app_nil_r in Ht. cbn [app] in Ht.
  now rewrite tokens_of_step, Ht.
Qed.

(** Spaces and tabs left on a last line of their own are a token. *)
Lemma dangling_token e l :
  is_dangling e ->
  exists t, type t = VALUE /\
            tokens_of {| lexdata := skip is_blank e; lexer_lineno := l |} = [t].
Proof.
  intros He.
  destruct (@silent_run [] eq_refl eq_refl eq_refl _ _ InBlanks l (le_n _)
                        He ltac:(discriminate) ltac:(discriminate))
    as (b & l' & Ht & Hb & _ & Hne).
  specialize (Hne eq_refl). rewrite !app_nil_r in Ht.
  assert (master b = Some (VALUE, [])) as Hm.
  { unfold master.
    assert (match_COMMENT b = None) as ->.
    { unfold match_COMMENT. fold ws4.
      rewrite skip_all; [reflexivity|].
      revert Hb. apply forallb_impl, blank_ws4. }
    assert (match_newline b = None) as ->.
    { unfold match_newline. now rewrite skip_all. }
    destruct b as [|c b]; [congruence|]. cbn [match_VALUE].
    unfold is_padding in Hb. cbn [forallb] in Hb.
    apply andb_true_iff in Hb as [Hc Hb].
    rewrite (blank_valuechar _ Hc), skip_all; [reflexivity|].
    revert Hb. apply forallb_impl, blank_valuechar. }
  eexists. split; [|rewrite tokens_of_step, Ht,
                      (token_step_master l' Hne Hm), tokens_of_step,
                      token_empty; reflexivity].
  reflexivity.
Qed.

Section Layout.
Variable upper : str -> str.

#[local] Abbreviation scanning pos done s l :=
  (read upper pos done (tokens_of {| lexdata := s; lexer_lineno := l |})).

#[local] Abbreviation spelled :=
  (fun gf : str * str => is_gap (fst gf) /\ is_field (snd gf)).

#[local] Abbreviation written :=
  (fun gf : str * str => fst gf ++ snd gf).

(** The fields after a comma, up to the semicolon. *)
Lemma read_spread_fields fs : forall gf n vs done l after R,
  Forall spelled (gf :: fs) ->
  (forall l',
      scanning (AfterSemicolon (strip n :: rev (map strip vs)
                                  ++ fields_of (gf :: fs)))
               done (skip is_blank after) l' = R) ->
  scanning (AfterComma n vs) done
           (skip is_blank (join [COMMA_CHAR] (map written (gf :: fs))
                             ++ SEMICOLON_CHAR :: after)) l = R.
Proof.
  induction fs as [|gf' fs IH]; intros [g f] n vs done l after R Hall HR;
    inversion Hall as [|? ? [Hg Hf] Hall']; subst; cbn [fst snd] in Hg, Hf.
  - cbn [map join fst snd]. rewrite <- app_assoc.
    destruct (token_after_gap_skipped after l Hg Hf (or_intror eq_refl))
      as (v & l' & Ht & Hs).
    rewrite (@reading_token upper _ _ _ _ _ _ _ Ht). cbn [advance type value].
    destruct (token_semicolon after l') as (v2 & Ht2).
    rewrite (@reading_token upper _ _ _ _ _ _ _ Ht2). cbn [advance type].
    unfold object_of. cbn [map rev]. rewrite Hs. apply HR.
  - cbn [map]. rewrite join_more. cbn [fst snd]. rewrite <- !app_assoc.
    cbn [app]. change (?x :: map written fs) with (map written (gf' :: fs)).
    destruct (token_after_gap_skipped
                (join [COMMA_CHAR] (map written (gf' :: fs))
                   ++ SEMICOLON_CHAR :: after) l Hg Hf (or_introl eq_refl))
      as (v & l' & Ht & Hs).
    rewrite (@reading_token upper _ _ _ _ _ _ _ Ht). cbn [advance type value].
    destruct (token_comma (join [COMMA_CHAR] (map written (gf' :: fs))
                             ++ SEMICOLON_CHAR :: after) l') as (v2 & Ht2).
    rewrite (@reading_token upper _ _ _ _ _ _ _ Ht2). cbn [advance type].
    apply IH; [exact Hall'|]. intros l2.
    cbn [map rev]. rewrite Hs, <- app_assoc. apply HR.
Qed.

(** One object, from the spacing before its name to what follows its
    semicolon. *)
Lemma read_spread_object gf fs pos done done' l after R (b : bool) :
  boundary pos done done' ->
  Forall spelled (gf :: fs) ->
  (forall l',
      scanning (AfterSemicolon (fields_of (gf :: fs))) done'
               (skip is_blank after) l' = R) ->
  scanning pos done
           (if b then skip is_blank (spread_object (gf :: fs) ++ after)
            else spread_object (gf :: fs) ++ after) l = R.
Proof.
  intros Hb Hall HR. destruct gf as [g f].
  inversion Hall as [|? ? [Hg Hf] Hall']; subst; cbn [fst snd] in Hg, Hf.
  assert (forall t, type t = VALUE ->
                    advance pos done t = Some (AfterName (value t), done'))
    as Hname.
  { intros t Ht. unfold advance. rewrite Ht.
    destruct Hb as [[-> ->]|(o0 & -> & ->)]; reflexivity. }
  assert (forall d more, is_delimiter d ->
            spread_object ((g, f) :: fs) ++ after = g ++ f ++ d :: more ->
            exists v l',
              token {| lexdata :=
                         if b
                         then skip is_blank (spread_object ((g, f) :: fs) ++ after)
                         else spread_object ((g, f) :: fs) ++ after;
                       lexer_lineno := l |}
              = Token {| type := VALUE; value := v; lineno := l' |}
                      {| lexdata := d :: more; lexer_lineno := l' |} /\
              strip v = strip f) as Hfirst.
  { intros d more Hd ->. destruct b.
    - now apply token_after_gap_skipped.
    - destruct (is_field_word Hf). now apply token_after_gap. }
  unfold spread_object in *. destruct fs as [|gf' fs].
  - cbn [map join fst snd] in *.
    destruct (Hfirst SEMICOLON_CHAR after (or_intror eq_refl))
      as (v & l' & Ht & Hs); [now rewrite <- !app_assoc|].
    rewrite (@reading_token upper _ _ _ _ _ _ _ Ht).
    rewrite Hname by reflexivity. cbn [value].
    destruct (token_semicolon after l') as (v2 & Ht2).
    rewrite (@reading_token upper _ _ _ _ _ _ _ Ht2). cbn [advance type].
    unfold object_of. cbn [map rev app]. rewrite Hs. apply HR.
  - destruct (Hfirst COMMA_CHAR
                (join [COMMA_CHAR] (map written (gf' :: fs))
                   ++ SEMICOLON_CHAR :: after) (or_introl eq_refl))
      as (v & l' & Ht & Hs).
    { cbn [map]. rewrite join_more. cbn [fst snd]. now rewrite <- !app_assoc. }
    rewrite (@reading_token upper _ _ _ _ _ _ _ Ht).
    rewrite Hname by reflexivity. cbn [value].
    destruct (token_comma (join [COMMA_CHAR] (map written (gf' :: fs))
                             ++ SEMICOLON_CHAR :: after) l') as (v2 & Ht2).
    rewrite (@reading_token upper _ _ _ _ _ _ _ Ht2). cbn [advance type].
    apply read_spread_fields; [exact Hall'|]. intros l2.
    cbn [map rev app]. rewrite Hs. apply HR.
Qed.

(** A whole text of freely laid out objects. *)
Lemma read_spread objs : forall pos done done' l (b : bool) ending,
  objs <> [] ->
  Forall (fun o => o <> [] /\ Forall spelled o) objs ->
  is_ending ending -> boundary pos done done' ->
  scanning pos done
           (if b then skip is_blank (spread objs ending)
            else spread objs ending) l =
  match p_idffile_loop upper (rev done' ++ map fields_of objs) [] with
  | Some d => Returned d
  | None => Broken
  end.
Proof.
  induction objs as [|o objs IH]; intros pos done done' l b ending Hne Hall He Hb;
    [congruence|].
  inversion Hall as [|? ? [Ho Hfs] Hall']; subst.
  destruct o as [|gf fs]; [congruence|].
  unfold spread. cbn [map concat]. rewrite <- app_assoc.
  fold (spread objs ending).
  apply read_spread_object with (done' := done'); [exact Hb | exact Hfs|].
  intros l'. destruct objs as [|o' objs].
  - unfold spread. cbn [map concat app].
    rewrite ending_silent by exact He. reflexivity.
  - rewrite (IH (AfterSemicolon (fields_of (gf :: fs))) done'
                (fields_of (gf :: fs) :: done') l' true ending);
      [ | discriminate | exact Hall' | exact He
        | right; eexists; split; reflexivity].
    cbn [rev map]. now rewrite <- app_assoc.
Qed.

(** X11. Spacing and comments change nothing: a text of objects, each field
    with spaces, tabs, line ends (LF or CR LF) and whole comment lines
    before it, the text ended by spacing or a last comment, is parsed to
    the grouping of the objects its fields spell, each field stripped. *)
Theorem free_layout objs ending :
  laid_out objs ending ->
  parse upper (spread objs ending)
  = Returned (grouped upper (map fields_of objs) []).
Proof.
  intros (Hne & Hall & He). rewrite parse_reads. unfold tokens, lex.
  rewrite (@read_spread objs AtStart [] [] 1 false ending Hne Hall He
                        (or_introl (conj eq_refl eq_refl))).
  cbn [rev app]. rewrite p_idffile_loop_grouped; [reflexivity|].
  apply Forall_map. revert Hall. apply Forall_impl.
  intros o (Ho & _). unfold fields_of. now destruct o.
Qed.

Lemma read_spread_gen objs : forall pos done done' l (b : bool) ending
                                    (F : list IdfObject -> outcome),
  objs <> [] ->
  Forall (fun o => o <> [] /\ Forall spelled o) objs ->
  boundary pos done done' ->
  (forall o dn l',
      scanning (AfterSemicolon o) dn (skip is_blank ending) l' = F (o :: dn)) ->
  scanning pos done
           (if b then skip is_blank (spread objs ending)
            else spread objs ending) l
  = F (rev (map fields_of objs) ++ done').
Proof.
  induction objs as [|o objs IH]; intros pos done done' l b ending F Hne Hall Hb HF;
    [congruence|].
  inversion Hall as [|? ? [Ho Hfs] Hall']; subst.
  destruct o as [|gf fs]; [congruence|].
  unfold spread. cbn [map concat]. rewrite <- app_assoc.
  fold (spread objs ending).
  apply read_spread_object with (done' := done'); [exact Hb | exact Hfs|].
  intros l'. destruct objs as [|o' objs].
  - unfold spread. cbn [map concat app rev]. apply HF.
  - rewrite (IH (AfterSemicolon (fields_of (gf :: fs))) done'
                (fields_of (gf :: fs) :: done') l' true ending F);
      [ | discriminate | exact Hall'
        | right; eexists; split; reflexivity | exact HF].
    cbn [rev map]. now rewrite <- !app_assoc.
Qed.

(** X12. Spaces or tabs on a last line of their own, after the last
    semicolon, are read as the name of one more object, which the end
    of the text cuts short: the parse fails with the end-of-input
    syntax error, however well the objects before are written. *)
Theorem dangling_blanks_fail objs ending :
  objs <> [] ->
  Forall (fun o => o <> [] /\
                   Forall (fun gf => is_gap (fst gf) /\ is_field (snd gf)) o)
         objs ->
  is_dangling ending ->
  parse upper (spread objs ending) = SyntaxErrorAtEOF.
Proof.
  intros Hne Hall He. rewrite parse_reads. unfold tokens, lex.
  apply (@read_spread_gen objs AtStart [] [] 1 false ending
                          (fun _ => SyntaxErrorAtEOF) Hne Hall
                          (or_introl (conj eq_refl eq_refl))).
  intros o dn l'. destruct (dangling_token l' He) as (t & Ht & ->).
  cbn [read advance]. now rewrite Ht.
Qed.
End Layout.

(** * Reading a file and the command line *)

(** ** Universal newlines *)

Lemma universal_newlines_no_cr s : ~ In CR (universal_newlines s).
Proof.
  remember (length s) as k eqn:Hk. revert s Hk.
  induction k as [k IH] using lt_wf_ind. intros s Hk.
  destruct s as [|c t]; [intros []|]. cbn [universal_newlines].
  destruct (c =? CR)%N eqn:E.
  - intros [H|H]; [discriminate H|]. revert H.
    destruct t as [|c2 t2]; [intros []|].
    destruct (c2 =? LF)%N.
    + apply (IH (length t2)); [subst k; simpl; lia | reflexivity].
    + apply (IH (length (c2 :: t2))); [subst k; simpl; lia | reflexivity].
  - intros [H|H].
    + subst c. now rewrite N.eqb_refl in E.
    + revert H. apply (IH (length t)); [subst k; simpl; lia | reflexivity].
Qed.

Lemma universal_newlines_id s : ~ In CR s -> universal_newlines s = s.
Proof.
  induction s as [|c t IH]; [reflexivity|]. intros H.
  cbn [universal_newlines]. destruct (c =? CR)%N eqn:E.
  - apply N.eqb_eq in E. subst c. exfalso. apply H. now left.
  - f_equal. apply IH. intros Hin. apply H. now right.
Qed.

Lemma universal_newlines_crlf s :
  ~ In CR s -> universal_newlines (crlf s) = s.
Proof.
  induction s as [|c t IH]; [reflexivity|]. intros H.
  assert (universal_newlines (crlf t) = t) as IH'
      by (apply IH; intros Hin; apply H; now right).
  unfold crlf in *. cbn [flat_map]. destruct (c =? LF)%N eqn:E.
  - apply N.eqb_eq in E. subst c. cbn [app universal_newlines].
    change (CR =? CR)%N with true. change (LF =? LF)%N with true.
    cbv iota. now rewrite IH'.
  - cbn [app universal_newlines]. destruct (c =? CR)%N eqn:E2.
    + apply N.eqb_eq in E2. subst c. exfalso. apply H. now left.
    + now rewrite IH'.
Qed.

(** ** The order of [sorted] *)

Lemma str_ltb_irrefl a : str_ltb a a = false.
Proof.
  induction a as [|x a IH]; [reflexivity|]. cbn [str_ltb].
  now rewrite N.ltb_irrefl.
Qed.

Lemma str_ltb_trans a : forall b c,
  str_ltb a b = true -> str_ltb b c = true -> str_ltb a c = true.
Proof.
  induction a as [|x a IH]; intros [|y b] [|z c]; cbn [str_ltb];
    try discriminate; try reflexivity.
  destruct (x <? y)%N eqn:E1; destruct (y <? x)%N eqn:E2;
    destruct (y <? z)%N eqn:E3; destruct (z <? y)%N eqn:E4;
    destruct (x <? z)%N eqn:E5; destruct (z <? x)%N eqn:E6;
    rewrite ?N.ltb_lt, ?N.ltb_ge in *; try discriminate; try reflexivity;
    try lia.
  apply IH.
Qed.

Lemma str_ltb_total a : forall b,
  str_ltb a b = false -> a <> b -> str_ltb b a = true.
Proof.
  induction a as [|x a IH]; intros [|y b]; cbn [str_ltb];
    try discriminate; try reflexivity; try congruence.
  destruct (x <? y)%N eqn:E1; [discriminate|].
  destruct (y <? x)%N eqn:E2; [reflexivity|].
  rewrite N.ltb_ge in E1, E2. assert (x = y) as -> by lia.
  intros H Hne. apply IH; [exact H | congruence].
Qed.

Lemma insert_item_perm g l : Permutation (insert_item g l) (g :: l).
Proof.
  induction l as [|h t IH]; cbn [insert_item]; [reflexivity|].
  destruct (str_ltb (fst g) (fst h)); [reflexivity|].
  rewrite IH. apply perm_swap.
Qed.

Lemma sorted_perm d : Permutation (sorted d) d.
Proof.
  induction d as [|g d IH]; [reflexivity|]. unfold sorted in *.
  cbn [fold_right]. rewrite insert_item_perm. now constructor.
Qed.

Lemma insert_item_sorted g l :
  StronglySorted (fun a b => str_ltb (fst a) (fst b) = true) l ->
  (forall h, In h l -> fst h <> fst g) ->
  StronglySorted (fun a b => str_ltb (fst a) (fst b) = true)
                 (insert_item g l).
Proof.
  induction l as [|h t IH]; intros Hs Hne; cbn [insert_item].
  - repeat constructor.
  - apply StronglySorted_inv in Hs as [Hs Hall].
    destruct (str_ltb (fst g) (fst h)) eqn:E.
    + constructor; [now constructor|]. constructor; [exact E|].
      revert Hall. apply Forall_impl. intros x. now apply str_ltb_trans.
    + constructor.
      * apply IH; [exact Hs|]. intros x Hx. apply Hne. now right.
      * apply Forall_forall. intros x Hx.
        apply (Permutation_in _ (insert_item_perm g t)) in Hx.
        destruct Hx as [<-|Hx].
        -- apply str_ltb_total; [exact E|].
           intros Heq. apply (Hne h); [now left | now symmetry].
        -- rewrite Forall_forall in Hall. now apply Hall.
Qed.

Lemma sorted_sorted d :
  NoDup (map fst d) ->
  StronglySorted (fun a b => str_ltb (fst a) (fst b) = true) (sorted d).
Proof.
  induction d as [|g d IH]; [constructor|]. cbn [map]. intros Hnd.
  apply NoDup_cons_iff in Hnd as [Hin Hnd].
  change (sorted (g :: d)) with (insert_item g (sorted d)).
  apply insert_item_sorted; [now apply IH|].
  intros h Hh Heq. apply Hin. rewrite <- Heq.
  apply in_map. now apply (Permutation_in _ (sorted_perm d)).
Qed.

Section CommandLineFacts.
Variable upper : str -> str.


(** X13. [parse_file] hands the text of the file to [parse] with every line
    end read as a line feed: no carriage return reaches the lexer, and
    a file written with CR LF line ends is parsed as the same file
    written with LF line ends. *)
Theorem parse_file_line_ends fs path chars :
  fs path = Holds chars ->
  exists text,
    parse_file upper fs path = ([], Parsed (parse upper text)) /\
    ~ In CR text /\
    (~ In CR chars -> text = chars) /\
    (forall lines, ~ In CR lines -> chars = crlf lines -> text = lines).
Proof.
  intros H. exists (universal_newlines chars).
  unfold parse_file, read_text. rewrite H.
  split; [reflexivity|]. split; [apply universal_newlines_no_cr|].
  split; [apply universal_newlines_id|].
  intros lines Hl ->. now apply universal_newlines_crlf.
Qed.


(** X15. The summary of a successful run: the total is the number of
    SEMICOLON tokens of the text; after it comes one line for each key
    of the document, the keys in strictly increasing order, each with
    the number of its objects, which is at least one; the numbers add
    up to the total. *)
Theorem main_summary fs args chars d :
  debug args = false -> tables args = false ->
  fs (file args) = Holds chars ->
  parse upper (universal_newlines chars) = Returned d ->
  main upper fs args
  = Some ([(stdout, txt "Parsing file: " ++ file args ++ txt "...");
           (stdout, LF :: txt "--- Parse Successful ---");
           (stdout, txt "Total objects parsed: "
                      ++ decimal (Z.of_nat
                           (count_type SEMICOLON
                              (tokens (universal_newlines chars)))));
           (stdout, txt "Object counts by type:")]
            ++ map (fun g => (stdout, count_line g)) (sorted d),
          0%Z) /\
  Permutation (sorted d) d /\
  StronglySorted (fun a b => str_ltb (fst a) (fst b) = true) (sorted d) /\
  Forall (fun g => (1 <= length (snd g))%nat) (sorted d) /\
  list_sum (map (fun g => length (snd g)) (sorted d))
  = count_type SEMICOLON (tokens (universal_newlines chars)).
Proof.
  intros Hd Ht Hfs Hp.
  assert (total_objects d
          = count_type SEMICOLON (tokens (universal_newlines chars))) as Htot.
  { pose proof Hp as H. apply parse_returns in H as (objs & Hobjs & ->).
    apply spans_idfobjectlist_counts in Hobjs as (_ & _ & H3).
    destruct (totals_grouped upper objs []) as [-> _]. rewrite H3.
    reflexivity. }
  assert (well_grouped upper d) as [Hnd Hall].
  { pose proof Hp as H. apply parse_returns in H as (objs & _ & ->).
    apply grouped_well_grouped. split; constructor. }
  split; [|split; [apply sorted_perm|split; [now apply sorted_sorted|split]]].
  - unfold main, parse_file, read_text. rewrite Hd, Ht, Hfs, Hp, Htot.
    reflexivity.
  - apply Forall_forall. intros g Hg.
    apply (Permutation_in _ (sorted_perm d)) in Hg.
    rewrite Forall_forall in Hall. destruct (Hall g Hg) as [Hne _].
    destruct (snd g); [congruence | simpl; lia].
  - rewrite <- Htot. unfold total_objects.
    assert (forall l1 l2 : list nat,
               Permutation l1 l2 -> list_sum l1 = list_sum l2) as Hsum.
    { induction 1; rewrite ?list_sum_cons; cbn [list_sum fold_right]; lia. }
    apply Hsum. apply Permutation_map. apply sorted_perm.
Qed.
End CommandLineFacts.

(** * More worked examples *)

(** The two Zone objects: the derivation of the tokens, the document,
    and no other derivation. *)
Lemma grammar_complete_unambiguous_witness :
  spans_idfobjectlist (tokens zone_text)
    [[txt "Zone"; txt "LivingRoom"; txt "20"];
     [txt "Zone"; txt "Kitchen"; txt "15"]] /\
  parse upper_ascii zone_text = Returned zone_document /\
  forall objs',
    spans_idfobjectlist (tokens zone_text) objs' ->
    objs' = [[txt "Zone"; txt "LivingRoom"; txt "20"];
             [txt "Zone"; txt "Kitchen"; txt "15"]].
Proof.
  assert (spans_idfobjectlist (tokens zone_text)
            [[txt "Zone"; txt "LivingRoom"; txt "20"];
             [txt "Zone"; txt "Kitchen"; txt "15"]]) as H.
  { apply (@walk_sound (tokens zone_text)
             [txt "Zone"; txt "Kitchen"; txt "15"]
             [[txt "Zone"; txt "LivingRoom"; txt "20"]]).
    vm_compute. reflexivity. }
  split; [exact H|].
  exact (@grammar_complete_unambiguous upper_ascii zone_text _ H).
Defined.

(** The document of the text with the types Zone, Building, zone. *)
Lemma returned_document_shape_witness :
  parse upper_ascii building_text = Returned building_document /\
  building_document <> [] /\ NoDup (map fst building_document) /\
  forall k os, In (k, os) building_document ->
    os <> [] /\
    forall o, In o os ->
              exists name vs, o = name :: vs /\ k = upper_ascii name.
Proof.
  assert (parse upper_ascii building_text = Returned building_document) as H
      by (vm_compute; reflexivity).
  split; [exact H|].
  exact (@returned_document_shape upper_ascii building_text _ H).
Defined.

(** The strings of the document of the test text with comments. *)
Lemma returned_strings_from_values_witness :
  parse upper_ascii commented_text = Returned material_document /\
  forall k os o s,
    In (k, os) material_document -> In o os -> In s o ->
    from_tokens (tokens commented_text) s /\
    (forall c, In c s ->
               c <> BANG /\ c <> COMMA_CHAR /\ c <> SEMICOLON_CHAR /\ c <> LF) /\
    strip s = s /\
    (forall c t, s = c :: t -> isspace c = false) /\
    (forall c t, s = t ++ [c] -> isspace c = false).
Proof.
  assert (parse upper_ascii commented_text = Returned material_document) as H
      by (vm_compute; reflexivity).
  split; [exact H|].
  exact (@returned_strings_from_values upper_ascii commented_text _ H).
Defined.

(** Three objects with eight strings: three semicolons, eight values,
    five commas. *)
Lemma document_counts_witness :
  parse upper_ascii building_text = Returned building_document /\
  total_objects building_document = 3%nat /\
  total_strings building_document = 8%nat /\
  total_objects building_document
  = count_type SEMICOLON (tokens building_text) /\
  total_strings building_document = count_type VALUE (tokens building_text) /\
  (count_type COMMA (tokens building_text) + total_objects building_document
   = total_strings building_document)%nat.
Proof.
  assert (parse upper_ascii building_text = Returned building_document) as H
      by (vm_compute; reflexivity).
  split; [exact H|]. split; [reflexivity|]. split; [reflexivity|].
  exact (@document_counts upper_ascii building_text _ H).
Defined.

Lemma regrouping_returns_the_document_witness :
  parse upper_ascii building_text = Returned building_document /\
  p_idffile upper_ascii [PObjects (concat (map snd building_document))]
  = Some (PDoc building_document).
Proof.
  assert (parse upper_ascii building_text = Returned building_document) as H
      by (vm_compute; reflexivity).
  split; [exact H|].
  exact (@regrouping_returns_the_document upper_ascii building_text _ H).
Defined.

(** The comma of ["Zone , Kitchen;"]: the space before it belongs to
    the VALUE token ["Zone "], the space after it to the COMMA token. *)
Lemma token_shapes_witness :
  tokens (txt "Zone , Kitchen;")
  = [{| type := VALUE; value := txt "Zone "; lineno := 1 |};
     {| type := COMMA; value := txt ", "; lineno := 1 |};
     {| type := VALUE; value := txt "Kitchen"; lineno := 1 |};
     {| type := SEMICOLON; value := txt ";"; lineno := 1 |}] /\
  txt ", " <> [] /\
  exists b, txt ", " = COMMA_CHAR :: b /\ is_padding b.
Proof.
  split; [reflexivity|].
  apply (@token_shapes (txt "Zone , Kitchen;")
           {| type := COMMA; value := txt ", "; lineno := 1 |}).
  right. left. reflexivity.
Defined.

(** The first call of [token] on a comment line and an indented name. *)
Lemma token_call_witness :
  token (lex (txt "! c" ++ [LF] ++ txt "  Zone;"))
  = Token {| type := VALUE; value := txt "  Zone"; lineno := 2 |}
          {| lexdata := txt ";"; lexer_lineno := 2 |} /\
  exists skipped,
    txt "! c" ++ [LF] ++ txt "  Zone;" = skipped ++ txt "  Zone" ++ txt ";" /\
    ((forall c, In c skipped -> ws4 c = true) \/ In BANG skipped) /\
    valuechar SEMICOLON_CHAR = false /\
    2%Z = 2%Z /\ (1 <= 2 <= 1 + Z.of_nat (length skipped))%Z.
Proof.
  assert (token (lex (txt "! c" ++ [LF] ++ txt "  Zone;"))
          = Token {| type := VALUE; value := txt "  Zone"; lineno := 2 |}
                  {| lexdata := txt ";"; lexer_lineno := 2 |}) as H
      by (vm_compute; reflexivity).
  split; [exact H|]. exact (token_call _ H).
Defined.

(** The first token of the first line and the first of the second. *)
Lemma line_numbers_never_decrease_witness :
  tokens zone_text
  = [] ++ {| type := VALUE; value := txt "Zone"; lineno := 1 |}
       :: firstn 5 (skipn 1 (tokens zone_text))
       ++ {| type := VALUE; value := txt "Zone"; lineno := 2 |}
       :: skipn 7 (tokens zone_text) /\
  (1 <= 1 <= 2)%Z.
Proof.
  assert (tokens zone_text
          = [] ++ {| type := VALUE; value := txt "Zone"; lineno := 1 |}
               :: firstn 5 (skipn 1 (tokens zone_text))
               ++ {| type := VALUE; value := txt "Zone"; lineno := 2 |}
               :: skipn 7 (tokens zone_text)) as H
      by (vm_compute; reflexivity).
  split; [exact H|].
  exact (@line_numbers_never_decrease zone_text _ _ _ _ _ H).
Defined.

(** The second Zone of the two Zone lines stands on line 2. *)
Lemma line_numbers_exact_witness :
  plain zone_text = true /\
  tokens zone_text
  = firstn 6 (tokens zone_text)
      ++ {| type := VALUE; value := txt "Zone"; lineno := 2 |}
      :: skipn 7 (tokens zone_text) /\
  exists before after,
    zone_text = before ++ txt "Zone" ++ after /\
    2%Z = (1 + Z.of_nat (count_lf before))%Z /\
    tokens_of {| lexdata := after; lexer_lineno := 2 |}
    = skipn 7 (tokens zone_text).
Proof.
  assert (plain zone_text = true) as Hp by reflexivity.
  assert (tokens zone_text
          = firstn 6 (tokens zone_text)
              ++ {| type := VALUE; value := txt "Zone"; lineno := 2 |}
              :: skipn 7 (tokens zone_text)) as H
      by (vm_compute; reflexivity).
  split; [exact Hp|]. split; [exact H|].
  exact (@line_numbers_exact zone_text _ _ _ Hp H).
Defined.

(** The test text with comments, and the text laid out over lines. *)
Lemma free_layout_witness :
  (laid_out commented_objects commented_ending /\
   spread commented_objects commented_ending = commented_text /\
   parse upper_ascii commented_text = Returned material_document) /\
  (laid_out lines_objects lines_ending /\
   spread lines_objects lines_ending = lines_text /\
   parse upper_ascii lines_text = Returned lines_document).
Proof.
  assert (forall g, spacing_end Fresh g = Some Fresh -> is_gap g) as G1
      by (intros g H; now left).
  assert (forall g, spacing_end Fresh g = Some InBlanks -> is_gap g) as G2
      by (intros g H; now right).
  assert (forall f, forallb valuechar f = true ->
                    forallb (fun c => mem c blank) f = false -> is_field f)
    as F by (intros f H1 H2; now split).
  assert (laid_out commented_objects commented_ending) as H1.
  { split; [discriminate|]. split; [|right; reflexivity].
    repeat constructor; try discriminate;
      try (apply G1; reflexivity); try (apply G2; reflexivity);
      apply F; reflexivity. }
  assert (laid_out lines_objects lines_ending) as H2.
  { split; [discriminate|]. split; [|right; reflexivity].
    repeat constructor; try discriminate;
      try (apply G1; reflexivity); try (apply G2; reflexivity);
      apply F; reflexivity. }
  split.
  - split; [exact H1|]. split; [reflexivity|].
    exact (free_layout upper_ascii H1).
  - split; [exact H2|]. split; [reflexivity|].
    exact (free_layout upper_ascii H2).
Defined.

(** The file of the example, written with CR LF line ends. *)
Lemma parse_file_line_ends_witness :
  example_files (txt "zones.idf") = Holds (crlf building_text) /\
  exists text,
    parse_file upper_ascii example_files (txt "zones.idf")
    = ([], Parsed (parse upper_ascii text)) /\
    ~ In CR text /\
    (~ In CR (crlf building_text) -> text = crlf building_text) /\
    (forall lines, ~ In CR lines -> crlf building_text = crlf lines ->
                   text = lines).
Proof.
  assert (example_files (txt "zones.idf") = Holds (crlf building_text)) as H
      by reflexivity.
  split; [exact H|].
  exact (@parse_file_line_ends upper_ascii example_files (txt "zones.idf") _ H).
Defined.


(** The summary printed for the file of the example. *)
Lemma main_summary_witness :
  (example_files (file example_args) = Holds (crlf building_text) /\
   parse upper_ascii (universal_newlines (crlf building_text))
   = Returned building_document) /\
  main upper_ascii example_files example_args
  = Some ([(stdout, txt "Parsing file: zones.idf...");
           (stdout, LF :: txt "--- Parse Successful ---");
           (stdout, txt "Total objects parsed: 3");
           (stdout, txt "Object counts by type:");
           (stdout, txt "  BUILDING                      : 1");
           (stdout, txt "  ZONE                          : 2")], 0%Z) /\
  Permutation (sorted building_document) building_document /\
  StronglySorted (fun a b => str_ltb (fst a) (fst b) = true)
                 (sorted building_document) /\
  Forall (fun g => (1 <= length (snd g))%nat) (sorted building_document) /\
  list_sum (map (fun g => length (snd g)) (sorted building_document))
  = count_type SEMICOLON (tokens (universal_newlines (crlf building_text))).
Proof.
  assert (example_files (file example_args) = Holds (crlf building_text))
    as H1 by reflexivity.
  assert (parse upper_ascii (universal_newlines (crlf building_text))
          = Returned building_document) as H2 by (vm_compute; reflexivity).
  split; [now split|].
  exact (@main_summary upper_ascii example_files example_args _ _
           eq_refl eq_refl H1 H2).
Defined.

(** ["Version;"], a line feed, and two spaces on the last line. *)
Lemma dangling_blanks_fail_witness :
  (version_objects <> [] /\
   Forall (fun o : list (str * str) =>
             o <> [] /\
             Forall (fun gf => is_gap (fst gf) /\ is_field (snd gf)) o)
          version_objects /\
   is_dangling (LF :: txt "  ")) /\
  spread version_objects (LF :: txt "  ") = txt "Version;" ++ LF :: txt "  " /\
  parse upper_ascii (txt "Version;")
  = Returned [(txt "VERSION", [[txt "Version"]])] /\
  parse upper_ascii (spread version_objects (LF :: txt "  "))
  = SyntaxErrorAtEOF.
Proof.
  assert (version_objects <> []) as H1 by discriminate.
  assert (Forall (fun o : list (str * str) =>
                    o <> [] /\
                    Forall (fun gf => is_gap (fst gf) /\ is_field (snd gf)) o)
                 version_objects) as H2.
  { repeat constructor; try discriminate. }
  assert (is_dangling (LF :: txt "  ")) as H3 by reflexivity.
  split; [now repeat split|]. split; [reflexivity|].
  split; [vm_compute; reflexivity|].
  exact (dangling_blanks_fail upper_ascii H1 H2 H3).
Defined.

(** * Joining two texts *)

(** ** Matches that do not depend on what follows a line feed *)

Lemma skip_app_lf p t Y :
  p LF = false -> skip p (t ++ LF :: Y) = skip p t ++ LF :: Y.
Proof.
  intros Hp. induction t as [|c t IH]; cbn [app skip].
  - now rewrite Hp.
  - destruct (p c); [exact IH | reflexivity].
Qed.

Lemma anchored_app a b : anchored (a ++ b) = anchored a || anchored b.
Proof. apply existsb_app. Qed.

Lemma anchored_ws4 s : anchored s = false <-> forallb ws4 s = true.
Proof.
  unfold anchored. induction s as [|c s IH]; cbn [existsb forallb].
  - tauto.
  - rewrite orb_false_iff, andb_true_iff, negb_false_iff. tauto.
Qed.

Lemma anchored_In s c : In c s -> ws4 c = false -> anchored s = true.
Proof.
  intros Hin Hc. unfold anchored. apply existsb_exists. exists c.
  split; [exact Hin | now rewrite Hc].
Qed.

Lemma comment_local s Y :
  anchored s = true ->
  match_COMMENT (s ++ LF :: Y)
  = option_map (fun r => r ++ LF :: Y) (match_COMMENT s).
Proof.
  intros Ha. unfold match_COMMENT. fold ws4.
  assert (forallb ws4 s = false) as Hf.
  { destruct (forallb ws4 s) eqn:E; [|reflexivity].
    apply anchored_ws4 in E. congruence. }
  destruct (skip_app_some ws4 s (LF :: Y) Hf) as [-> Hne].
  destruct (skip ws4 s) as [|c r0]; [congruence|]. cbn [app].
  destruct (c =? BANG)%N; [|reflexivity]. cbn [option_map].
  now rewrite skip_app_lf.
Qed.

Lemma skip_newlines_app_anchored r1 Y :
  anchored (skip_newlines r1) = true ->
  skip_newlines (r1 ++ LF :: Y) = skip_newlines r1 ++ LF :: Y.
Proof.
  remember (length r1) as k eqn:Hk. revert r1 Hk.
  induction k as [k IH] using lt_wf_ind. intros r1 Hk.
  destruct r1 as [|c t]; [discriminate|]. cbn [app skip_newlines].
  destruct (c =? LF)%N eqn:E1.
  - apply (IH (length t)); [subst k; simpl; lia | reflexivity].
  - destruct (c =? CR)%N eqn:E2; [|reflexivity].
    destruct t as [|c2 t2].
    + apply N.eqb_eq in E2. subst c. discriminate.
    + cbn [app]. destruct (c2 =? LF)%N eqn:E3; [|reflexivity].
      apply (IH (length t2)); [subst k; simpl; lia | reflexivity].
Qed.

Lemma newline_local s Y :
  anchored s = true ->
  match match_newline s with
  | Some r => anchored r = true
  | None => True
  end ->
  match_newline (s ++ LF :: Y)
  = option_map (fun r => r ++ LF :: Y) (match_newline s).
Proof.
  intros Ha Hr. unfold match_newline in *.
  rewrite skip_app_lf by reflexivity.
  assert (anchored (skip is_blank s) = true) as Ha1.
  { destruct (skip_split is_blank s) as (a & Hs & Hf).
    rewrite Hs, anchored_app in Ha.
    assert (anchored a = false) as Hz
        by (apply anchored_ws4; revert Hf; apply forallb_impl, blank_ws4).
    now rewrite Hz in Ha. }
  destruct (skip is_blank s) as [|c t]; [discriminate|].
  cbn [app eat_newline] in *. destruct (c =? LF)%N eqn:E1.
  - cbn [option_map]. now rewrite skip_newlines_app_anchored.
  - destruct (c =? CR)%N eqn:E2; [|reflexivity].
    destruct t as [|c2 t2].
    + apply N.eqb_eq in E2. subst c. discriminate Ha1.
    + cbn [app]. destruct (c2 =? LF)%N eqn:E3; [|reflexivity].
      cbn [option_map]. now rewrite skip_newlines_app_anchored.
Qed.

Lemma value_local s Y :
  s <> [] ->
  match_VALUE (s ++ LF :: Y)
  = option_map (fun r => r ++ LF :: Y) (match_VALUE s).
Proof.
  intros Hs. destruct s as [|c t]; [congruence|]. cbn [app match_VALUE].
  destruct (valuechar c); [|reflexivity]. cbn [option_map].
  now rewrite skip_app_lf.
Qed.

Lemma delimiter_local d s Y :
  is_delimiter d ->
  match_delimiter d (s ++ LF :: Y)
  = option_map (fun r => r ++ LF :: Y) (match_delimiter d s).
Proof.
  intros Hd. unfold match_delimiter. rewrite skip_app_lf by reflexivity.
  destruct (skip is_blank s) as [|c r]; cbn [app].
  - destruct Hd as [-> | ->]; reflexivity.
  - destruct (c =? d)%N; [|reflexivity]. cbn [option_map].
    now rewrite skip_app_lf.
Qed.

(** A match on anchored text, before anchored text if it is a comment
    or a newline run, is the same match when a line feed and more text
    follow. *)
Lemma master_local s n r Y :
  master s = Some (n, r) ->
  anchored s = true ->
  (n = COMMENT \/ n = newline -> anchored r = true) ->
  master (s ++ LF :: Y) = Some (n, r ++ LF :: Y).
Proof.
  intros H Ha Hr. unfold master in *.
  rewrite comment_local by exact Ha.
  destruct (match_COMMENT s) as [r1|]; cbn [option_map].
  { now injection H as <- <-. }
  assert (s <> []) as Hs by (intros ->; discriminate Ha).
  rewrite newline_local; [|exact Ha|].
  - destruct (match_newline s) as [r2|]; cbn [option_map].
    { now injection H as <- <-. }
    rewrite value_local by exact Hs.
    destruct (match_VALUE s) as [r3|]; cbn [option_map].
    { now injection H as <- <-. }
    rewrite delimiter_local by now left.
    destruct (match_delimiter COMMA_CHAR s) as [r4|]; cbn [option_map].
    { now injection H as <- <-. }
    rewrite delimiter_local by now right.
    destruct (match_delimiter SEMICOLON_CHAR s) as [r5|]; cbn [option_map];
      [|discriminate].
    now injection H as <- <-.
  - destruct (match_newline s) as [r2|]; [|exact I].
    injection H as <- <-. apply Hr. now right.
Qed.

(** A call of [token] whose token, with the text after it, is anchored
    returns the same token when a line feed and more text follow. *)
Lemma token_local lx t lx' :
  token lx = Token t lx' ->
  anchored (value t ++ lexdata lx') = true ->
  forall Y,
    token {| lexdata := lexdata lx ++ LF :: Y;
             lexer_lineno := lexer_lineno lx |}
    = Token t {| lexdata := lexdata lx' ++ LF :: Y;
                 lexer_lineno := lexer_lineno lx' |}.
Proof.
  intros H. assert (token lx = Token t lx' /\
                    (anchored (value t ++ lexdata lx') = true ->
                     forall Y,
                       token {| lexdata := lexdata lx ++ LF :: Y;
                                lexer_lineno := lexer_lineno lx |}
                       = Token t {| lexdata := lexdata lx' ++ LF :: Y;
                                    lexer_lineno := lexer_lineno lx' |}))
    as [_ G]; [|exact G].
  revert lx t lx' H.
  apply (@token_scan (fun lx t lx' =>
    token lx = Token t lx' /\
    (anchored (value t ++ lexdata lx') = true ->
     forall Y,
       token {| lexdata := lexdata lx ++ LF :: Y;
                lexer_lineno := lexer_lineno lx |}
       = Token t {| lexdata := lexdata lx' ++ LF :: Y;
                    lexer_lineno := lexer_lineno lx' |}))).
  - intros s l n r E Hc Hn.
    destruct (master_takes _ E) as (m & Hs & Hm & _).
    assert (s <> []) as Hne by (rewrite Hs; destruct m; [congruence|discriminate]).
    split.
    { rewrite (token_step_master l Hne E). destruct n; congruence. }
    cbn [lexdata lexer_lineno value]. rewrite Hs at 1. rewrite matched_app.
    intros Ha Y. rewrite <- Hs in Ha.
    assert (master (s ++ LF :: Y) = Some (n, r ++ LF :: Y)) as E'.
    { apply master_local; [exact E | exact Ha|]. intros [-> | ->]; congruence. }
    assert (s ++ LF :: Y <> []) as Hne' by (destruct s; [congruence|discriminate]).
    rewrite (token_step_master l Hne' E').
    assert (matched (s ++ LF :: Y) (r ++ LF :: Y) = matched s r) as ->.
    { rewrite Hs, <- app_assoc. now rewrite !matched_app. }
    destruct n; congruence.
  - intros s l r t lx' E [H IH].
    destruct (master_takes _ E) as (m & Hs & Hm & _).
    assert (s <> []) as Hne by (rewrite Hs; destruct m; [congruence|discriminate]).
    split; [now rewrite (token_step_master l Hne E)|].
    cbn [lexdata lexer_lineno] in *. intros Ha Y.
    destruct (token_takes _ H) as (sk & Hr & _). cbn [lexdata] in Hr.
    assert (anchored r = true) as Har.
    { rewrite Hr, anchored_app, Ha. apply orb_true_r. }
    assert (master (s ++ LF :: Y) = Some (COMMENT, r ++ LF :: Y)) as E'.
    { apply master_local; [exact E | | intros _; exact Har].
      rewrite Hs, anchored_app, Har. apply orb_true_r. }
    assert (s ++ LF :: Y <> []) as Hne' by (destruct s; [congruence|discriminate]).
    rewrite (token_step_master l Hne' E'). now apply IH.
  - intros s l r t lx' E [H IH].
    destruct (master_takes _ E) as (m & Hs & Hm & _).
    assert (s <> []) as Hne by (rewrite Hs; destruct m; [congruence|discriminate]).
    split; [now rewrite (token_step_master l Hne E)|].
    cbn [lexdata lexer_lineno] in *. intros Ha Y.
    destruct (token_takes _ H) as (sk & Hr & _). cbn [lexdata] in Hr.
    assert (anchored r = true) as Har.
    { rewrite Hr, anchored_app, Ha. apply orb_true_r. }
    assert (master (s ++ LF :: Y) = Some (newline, r ++ LF :: Y)) as E'.
    { apply master_local; [exact E | | intros _; exact Har].
      rewrite Hs, anchored_app, Har. apply orb_true_r. }
    assert (s ++ LF :: Y <> []) as Hne' by (destruct s; [congruence|discriminate]).
    rewrite (token_step_master l Hne' E').
    assert (matched (s ++ LF :: Y) (r ++ LF :: Y) = matched s r) as ->.
    { rewrite Hs, <- app_assoc. now rewrite !matched_app. }
    now apply IH.
Qed.

(** ** The tokens of the first text *)

Lemma tokens_chars lx t c :
  In t (tokens_of lx) -> In c (value t) -> In c (lexdata lx).
Proof.
  remember (length (lexdata lx)) as k eqn:Hk. revert lx Hk.
  induction k as [k IH] using lt_wf_ind. intros lx Hk.
  rewrite tokens_of_step.
  destruct (token_total lx) as [H|(t' & lx' & H & Hl)]; rewrite H;
    [intros []|].
  destruct (token_takes _ H) as (sk & Hs & _).
  intros [<-|Hin] Hc; rewrite Hs; apply in_or_app; right; apply in_or_app.
  - now left.
  - right. subst k. exact (IH _ Hl lx' eq_refl Hin Hc).
Qed.

Lemma delimiter_anchor lx t :
  In t (tokens_of lx) -> type t = COMMA \/ type t = SEMICOLON ->
  exists d, In d (value t) /\ ws4 d = false.
Proof.
  intros Hin Ht.
  assert (Forall (fun t => type t = COMMA \/ type t = SEMICOLON ->
                           exists d, In d (value t) /\ ws4 d = false)
                 (tokens_of lx)) as F.
  { apply tokens_of_Forall. intros lx0 t0 lx1 H.
    destruct (token_takes _ H) as (_ & _ & _ & Hk & _).
    intros [E|E]; rewrite E in Hk; cbn [takes] in Hk;
      destruct Hk as [(b & -> & _) _]; eexists; (split; [now left|]);
      reflexivity. }
  rewrite Forall_forall in F. now apply (F t).
Qed.

Lemma tokens_of_same lx1 lx2 :
  token lx1 = token lx2 -> tokens_of lx1 = tokens_of lx2.
Proof. intros H. now rewrite (tokens_of_step lx1), (tokens_of_step lx2), H. Qed.

(** The tokens of a text that ends with a delimiter token are the
    first tokens of the text with a line feed and more text after it. *)
Lemma tokens_local T0 : forall lx tl Y,
  tokens_of lx = T0 ++ [tl] ->
  type tl = COMMA \/ type tl = SEMICOLON ->
  exists r l',
    tokens_of {| lexdata := lexdata lx ++ LF :: Y;
                 lexer_lineno := lexer_lineno lx |}
    = (T0 ++ [tl])
        ++ tokens_of {| lexdata := r ++ LF :: Y; lexer_lineno := l' |} /\
    token {| lexdata := r; lexer_lineno := l' |} = Eof.
Proof.
  induction T0 as [|t T0 IH]; intros lx tl Y E Htl; cbn [app] in E;
    pose proof E as E0;
    apply tokens_of_cons in E as ([s1 l1] & H & E).
  - pose proof (tokens_of_nil _ E) as Heof.
    destruct (@delimiter_anchor lx tl) as (d & Hd & Hw);
      [rewrite E0; now left | exact Htl|].
    assert (anchored (value tl ++ s1) = true) as Ha.
    { rewrite anchored_app, (anchored_In _ _ Hd Hw). reflexivity. }
    exists s1, l1. split; [|exact Heof].
    rewrite tokens_of_step, (token_local _ H Ha Y). reflexivity.
  - destruct (@delimiter_anchor {| lexdata := s1; lexer_lineno := l1 |} tl)
      as (d & Hd & Hw);
      [rewrite E; apply in_or_app; right; now left | exact Htl|].
    assert (anchored (value t ++ s1) = true) as Ha.
    { rewrite anchored_app. apply orb_true_iff. right.
      apply (@anchored_In _ d); [|exact Hw].
      apply (@tokens_chars {| lexdata := s1; lexer_lineno := l1 |} tl);
        [rewrite E; apply in_or_app; right; now left | exact Hd]. }
    destruct (IH _ tl Y E Htl) as (r & l' & Hr & Heof).
    exists r, l'. split; [|exact Heof].
    rewrite tokens_of_step, (token_local _ H Ha Y). cbn [app lexdata lexer_lineno] in *.
    now rewrite Hr.
Qed.

Lemma spans_idfobjectlist_last ts l :
  spans_idfobjectlist ts l ->
  exists T0 tl, ts = T0 ++ [tl] /\ type tl = SEMICOLON.
Proof.
  induction 1 as [ts o Ho|ts1 o ts2 l Ho H (T0 & tl & -> & Htl)].
  - destruct Ho as [n s Hn Hs|n c ts0 s l Hn Hc Hs Hl].
    + now exists [n], s.
    + exists (n :: c :: ts0), s. now split.
  - exists (ts1 ++ T0), tl. split; [now rewrite app_assoc | exact Htl].
Qed.

Lemma spans_idfobjectlist_app ts1 l1 ts2 l2 :
  spans_idfobjectlist ts1 l1 -> spans_idfobjectlist ts2 l2 ->
  spans_idfobjectlist (ts1 ++ ts2) (l1 ++ l2).
Proof.
  intros H1 H2. induction H1 as [ts o Ho|ts1 o ts1' l Ho H IH].
  - now apply idfobjectlist_multiple.
  - rewrite <- !app_assoc. apply idfobjectlist_multiple; [exact Ho | exact IH].
Qed.

(** ** The line counter does not change the tokens *)

Lemma token_any_line k : forall s l l',
  (length s <= k)%nat ->
  match token {| lexdata := s; lexer_lineno := l |} with
  | Token t lx1 =>
      exists t' l1',
        token {| lexdata := s; lexer_lineno := l' |}
        = Token t' {| lexdata := lexdata lx1; lexer_lineno := l1' |} /\
        sig t' = sig t
  | Eof => token {| lexdata := s; lexer_lineno := l' |} = Eof
  | Raised _ => True
  end.
Proof.
  induction k as [k IH] using lt_wf_ind. intros s l l' Hk.
  rewrite !token_step. destruct s as [|c s0]; [reflexivity|].
  destruct (master (c :: s0)) as [[n r]|] eqn:E; [|exact I].
  destruct (master_takes _ E) as (m & Hs & Hm & _).
  assert (length r < length (c :: s0))%nat as Hl.
  { rewrite Hs, length_app. destruct m; [congruence | simpl; lia]. }
  destruct n;
    try (eexists; eexists; split; reflexivity);
    apply (IH (length r)); lia.
Qed.

Lemma eof_any_line s l l' :
  token {| lexdata := s; lexer_lineno := l |} = Eof ->
  token {| lexdata := s; lexer_lineno := l' |} = Eof.
Proof.
  intros H. pose proof (@token_any_line (length s) s l l' (le_n _)) as G.
  now rewrite H in G.
Qed.

Lemma sig_any_line s : forall l l',
  map sig (tokens_of {| lexdata := s; lexer_lineno := l |})
  = map sig (tokens_of {| lexdata := s; lexer_lineno := l' |}).
Proof.
  remember (length s) as k eqn:Hk. revert s Hk.
  induction k as [k IH] using lt_wf_ind. intros s Hk l l'.
  rewrite (tokens_of_step {| lexdata := s; lexer_lineno := l |}),
          (tokens_of_step {| lexdata := s; lexer_lineno := l' |}).
  pose proof (@token_any_line (length s) s l l' (le_n _)) as H.
  destruct (token_total {| lexdata := s; lexer_lineno := l |})
    as [E|(t & [s1 l1] & E & Hl)]; rewrite E in H |- *.
  - now rewrite H.
  - destruct H as (t' & l1' & -> & Hsig). cbn [map lexdata] in *.
    rewrite Hsig. f_equal. apply (IH (length s1)); [subst k; exact Hl|reflexivity].
Qed.

(** ** Between the two texts *)

Lemma master_cases s n r :
  master s = Some (n, r) ->
  match n with
  | COMMENT => match_COMMENT s = Some r
  | newline => match_COMMENT s = None /\ match_newline s = Some r
  | _ => match_COMMENT s = None /\ match_newline s = None
  end.
Proof.
  unfold master.
  destruct (match_COMMENT s); [now intros [= <- <-]|].
  destruct (match_newline s); [now intros [= <- <-]|].
  destruct (match_VALUE s); [now intros [= <- <-]|].
  destruct (match_delimiter COMMA_CHAR s); [now intros [= <- <-]|].
  destruct (match_delimiter SEMICOLON_CHAR s); [now intros [= <- <-]|].
  discriminate.
Qed.

(** Text that gives no token is, from each position the lexer reaches,
    white space, up to a comment if there is one. *)
Lemma silent_ws k : forall r l,
  (length r <= k)%nat ->
  token {| lexdata := r; lexer_lineno := l |} = Eof ->
  skip ws4 r = [] \/ exists r0, skip ws4 r = BANG :: r0.
Proof.
  induction k as [k IH] using lt_wf_ind. intros r l Hk.
  rewrite token_step. destruct r as [|c r0]; [now left|].
  destruct (master (c :: r0)) as [[n r']|] eqn:E; [|discriminate].
  destruct (master_takes _ E) as (m & Hs & Hm & Ht).
  assert (length r' < length (c :: r0))%nat as Hl.
  { rewrite Hs, length_app. destruct m; [congruence | simpl; lia]. }
  apply master_cases in E. destruct n; try discriminate.
  - intros _. right. unfold match_COMMENT in E. fold ws4 in E.
    destruct (skip ws4 (c :: r0)) as [|c1 r1]; [discriminate|].
    destruct (c1 =? BANG)%N eqn:Ec; [|discriminate].
    apply N.eqb_eq in Ec. subst c1. now exists r1.
  - intros H. apply newline_ws4 in Ht.
    rewrite Hs, skip_app_all by exact Ht.
    apply (IH (length r') ltac:(lia) r' _ (le_n _) H).
Qed.

Lemma eat_newline_app s r Z :
  eat_newline s = Some r -> eat_newline (s ++ Z) = Some (r ++ Z).
Proof.
  unfold eat_newline. destruct s as [|c t]; [discriminate|]. cbn [app].
  destruct (c =? LF)%N; [now intros [= <-]|].
  destruct (c =? CR)%N; [|discriminate].
  destruct t as [|c2 t2]; [discriminate|]. cbn [app].
  destruct (c2 =? LF)%N; [now intros [= <-] | discriminate].
Qed.

Lemma skip_newlines_app_nil r1 Z :
  skip_newlines r1 = [] -> skip_newlines (r1 ++ Z) = skip_newlines Z.
Proof.
  remember (length r1) as k eqn:Hk. revert r1 Hk.
  induction k as [k IH] using lt_wf_ind. intros r1 Hk.
  destruct r1 as [|c t]; [reflexivity|]. cbn [app skip_newlines].
  destruct (c =? LF)%N eqn:E1.
  - apply (IH (length t)); [subst k; simpl; lia | reflexivity].
  - destruct (c =? CR)%N eqn:E2; [|discriminate].
    destruct t as [|c2 t2]; [discriminate|]. cbn [app].
    destruct (c2 =? LF)%N eqn:E3; [|discriminate].
    apply (IH (length t2)); [subst k; simpl; lia | reflexivity].
Qed.

Lemma skip_newlines_app_blank r1 c r2 Z :
  skip_newlines r1 = c :: r2 -> is_blank c = true ->
  skip_newlines (r1 ++ Z) = (c :: r2) ++ Z.
Proof.
  remember (length r1) as k eqn:Hk. revert r1 Hk.
  induction k as [k IH] using lt_wf_ind. intros r1 Hk.
  destruct r1 as [|c1 t]; [discriminate|]. cbn [app skip_newlines].
  destruct (c1 =? LF)%N eqn:E1.
  - apply (IH (length t)); [subst k; simpl; lia | reflexivity].
  - destruct (c1 =? CR)%N eqn:E2.
    + destruct t as [|c2 t2].
      * intros [= <- <-] Hb. apply N.eqb_eq in E2. subst c1. discriminate Hb.
      * cbn [app]. destruct (c2 =? LF)%N eqn:E3.
        -- apply (IH (length t2)); [subst k; simpl; lia | reflexivity].
        -- intros [= <- <-] Hb. apply N.eqb_eq in E2. subst c1.
           discriminate Hb.
    + now intros [= <- <-] _.
Qed.

(** What a newline run leaves does not start with a line end. *)
Lemma skip_newlines_stops r1 :
  eat_newline (skip_newlines r1) = None.
Proof.
  remember (length r1) as k eqn:Hk. revert r1 Hk.
  induction k as [k IH] using lt_wf_ind. intros r1 Hk.
  destruct r1 as [|c t]; [reflexivity|]. cbn [skip_newlines].
  destruct (c =? LF)%N eqn:E1.
  - apply (IH (length t)); [subst k; simpl; lia | reflexivity].
  - destruct (c =? CR)%N eqn:E2.
    + destruct t as [|c2 t2].
      * cbn [eat_newline]. now rewrite E1, E2.
      * destruct (c2 =? LF)%N eqn:E3.
        -- apply (IH (length t2)); [subst k; simpl; lia | reflexivity].
        -- cbn [eat_newline]. now rewrite E1, E2, E3.
    + cbn [eat_newline]. now rewrite E1, E2.
Qed.

(** After its first line ends are skipped, a text that starts with no
    comment gives the tokens it gives as a whole. *)
Lemma after_newlines text2 l l2 :
  match_COMMENT text2 = None ->
  map sig (tokens_of {| lexdata := skip_newlines text2; lexer_lineno := l |})
  = map sig (tokens_of {| lexdata := text2; lexer_lineno := l2 |}).
Proof.
  intros EC. destruct (eat_newline text2) as [t|] eqn:E.
  - assert (master text2 = Some (newline, skip_newlines text2)) as Hm.
    { unfold master. rewrite EC. unfold match_newline.
      assert (skip is_blank text2 = text2) as ->.
      { unfold eat_newline in E. destruct text2 as [|c t0]; [discriminate|].
        cbn [skip].
        destruct (c =? LF)%N eqn:E1;
          [apply N.eqb_eq in E1; now subst c|].
        destruct (c =? CR)%N eqn:E2; [|discriminate].
        apply N.eqb_eq in E2. now subst c. }
      rewrite E. now rewrite (skip_newlines_eat text2), E. }
    assert (text2 <> []) as Hne by (intros ->; discriminate E).
    rewrite (@tokens_of_same _ _ (token_step_master l2 Hne Hm)).
    apply sig_any_line.
  - rewrite (skip_newlines_eat text2), E. apply sig_any_line.
Qed.

(** Text that gives no token, a line feed, and a second text: the
    tokens are those of the second text. *)
Lemma junction k : forall r l text2 l2,
  (length r <= k)%nat ->
  token {| lexdata := r; lexer_lineno := l |} = Eof ->
  map sig (tokens_of {| lexdata := r ++ LF :: text2; lexer_lineno := l |})
  = map sig (tokens_of {| lexdata := text2; lexer_lineno := l2 |}).
Proof.
  induction k as [k IH] using lt_wf_ind. intros r l text2 l2 Hk Heof.
  assert (r ++ LF :: text2 <> []) as Hne' by (destruct r; discriminate).
  destruct (match_COMMENT r) as [r'|] eqn:EC.
  - (* a comment of the first text *)
    assert (r <> []) as Hne by (intros ->; discriminate EC).
    assert (master r = Some (COMMENT, r')) as Hm
        by (unfold master; now rewrite EC).
    destruct (master_takes _ Hm) as (m & Hs & Hmm & Hb). cbn [takes] in Hb.
    assert (anchored r = true) as Ha.
    { apply (@anchored_In _ BANG); [|reflexivity].
      rewrite Hs. apply in_or_app. now left. }
    assert (master (r ++ LF :: text2) = Some (COMMENT, r' ++ LF :: text2))
      as Hm'.
    { unfold master. now rewrite comment_local, EC. }
    rewrite (token_step_master l Hne Hm) in Heof.
    rewrite (@tokens_of_same _ _ (token_step_master l Hne' Hm')).
    apply (IH (length r')); [|apply le_n | exact Heof].
    rewrite Hs, length_app in Hk. destruct m; [congruence | simpl in Hk; lia].
  - (* white space to the end of the first text *)
    assert (forallb ws4 r = true) as Hws.
    { destruct (@silent_ws (length r) r l (le_n _) Heof) as [H|(r0 & H)].
      - destruct (skip_split ws4 r) as (a & Ha & Hf).
        rewrite H, app_nil_r in Ha. now subst a.
      - unfold match_COMMENT in EC. fold ws4 in EC. rewrite H in EC.
        discriminate EC. }
    assert (match_COMMENT (r ++ LF :: text2) = match_COMMENT text2) as EC'.
    { unfold match_COMMENT. fold ws4. now rewrite skip_app_all. }
    destruct (match_COMMENT text2) as [rho|] eqn:EC2.
    + (* a comment of the second text *)
      assert (text2 <> []) as Hne2 by (intros ->; discriminate EC2).
      assert (master (r ++ LF :: text2) = Some (COMMENT, rho)) as Hm1
          by (unfold master; now rewrite EC').
      assert (master text2 = Some (COMMENT, rho)) as Hm2
          by (unfold master; now rewrite EC2).
      rewrite (@tokens_of_same _ _ (token_step_master l Hne' Hm1)).
      rewrite (@tokens_of_same _ _ (token_step_master l2 Hne2 Hm2)).
      apply sig_any_line.
    + assert (forall r1,
                 master (r ++ LF :: text2) = Some (newline, r1) ->
                 map sig (tokens_of {| lexdata := r1;
                            lexer_lineno :=
                              l + Z.of_nat (length (matched (r ++ LF :: text2) r1)) |})
                 = map sig (tokens_of {| lexdata := text2; lexer_lineno := l2 |}) ->
                 map sig (tokens_of {| lexdata := r ++ LF :: text2;
                                        lexer_lineno := l |})
                 = map sig (tokens_of {| lexdata := text2; lexer_lineno := l2 |}))
        as Hstep.
      { intros r1 Hm H.
        now rewrite (@tokens_of_same _ _ (token_step_master l Hne' Hm)). }
      destruct r as [|c0 r0].
      * (* the line feed alone *)
        apply (Hstep (skip_newlines text2)); [|now apply after_newlines].
        unfold master. rewrite EC'. reflexivity.
      * (* a newline run of the first text *)
        rewrite token_step in Heof.
        destruct (master (c0 :: r0)) as [[n r']|] eqn:Hm; [|discriminate].
        destruct (master_takes _ Hm) as (m & Hs & Hmm & _).
        assert (length r' < length (c0 :: r0))%nat as Hl.
        { rewrite Hs, length_app. destruct m; [congruence | simpl; lia]. }
        pose proof (master_cases _ Hm) as Hc.
        destruct n; try discriminate Heof; [congruence|].
        destruct Hc as [_ Hnl]. unfold match_newline in Hnl.
        destruct (eat_newline (skip is_blank (c0 :: r0))) as [r1|] eqn:Ee;
          [|discriminate].
        injection Hnl as Hr'.
        assert (forall rest,
                   skip_newlines (r1 ++ LF :: text2) = rest ->
                   master ((c0 :: r0) ++ LF :: text2) = Some (newline, rest))
          as Hm'.
        { intros rest Hrest. unfold master. rewrite EC'.
          unfold match_newline. rewrite skip_app_lf by reflexivity.
          now rewrite (eat_newline_app _ (LF :: text2) Ee), Hrest. }
        destruct r' as [|c r2].
        -- apply (Hstep (skip_newlines text2)); [|now apply after_newlines].
           apply Hm'. now rewrite skip_newlines_app_nil.
        -- assert (is_blank c = true) as Hb.
           { assert (ws4 c = true) as Hc4.
             { rewrite Hs, forallb_app in Hws.
               apply andb_true_iff in Hws as [_ Hws]. cbn [forallb] in Hws.
               now apply andb_true_iff in Hws as [Hws _]. }
             pose proof (skip_newlines_stops r1) as Hst. rewrite Hr' in Hst.
             destruct (@ws4_cases _ Hc4) as [H|[-> | ->]];
               [exact H | | discriminate Hst].
             exfalso. rewrite token_step in Heof.
             assert (master (CR :: r2) = Some (VALUE, skip valuechar r2)) as Hv.
             { unfold master.
               assert (match_COMMENT (CR :: r2) = None) as ->.
               { unfold match_COMMENT. fold ws4. rewrite skip_all; [reflexivity|].
                 rewrite Hs, forallb_app in Hws.
                 now apply andb_true_iff in Hws as [_ Hws]. }
               unfold match_newline.
               change (skip is_blank (CR :: r2)) with (CR :: r2).
               now rewrite Hst. }
             rewrite Hv in Heof. discriminate Heof. }
           apply (Hstep ((c :: r2) ++ LF :: text2)).
           ++ apply Hm'. now apply skip_newlines_app_blank.
           ++ apply (IH (length (c :: r2))); [lia | apply le_n|].
              exact (@eof_any_line _ _ _ Heof).
Qed.

(** ** The document of the joined text *)

Lemma advance_sig pos done t t' :
  sig t = sig t' -> advance pos done t = advance pos done t'.
Proof. unfold sig. intros [= Ht Hv]. unfold advance. now rewrite Ht, Hv. Qed.

Lemma walk_sig ts : forall ts' pos done,
  map sig ts = map sig ts' -> walk pos done ts = walk pos done ts'.
Proof.
  induction ts as [|t ts IH]; intros [|t' ts'] pos done; cbn [map];
    try discriminate; [reflexivity|].
  intros H. injection H as H1 H2 H. cbn [walk].
  assert (sig t = sig t') as Hs by (unfold sig; now rewrite H1, H2).
  rewrite (advance_sig pos done Hs).
  destruct (advance pos done t') as [[p d]|]; [now apply IH | reflexivity].
Qed.

Section Joining.
Variable upper : str -> str.

(** X16. Two texts that parse, joined by a line feed, parse to the
    document of the first extended by the second: its keys are those of
    the first document, then the new ones of the second in their order,
    and under every key stand the objects of the first text followed by
    those of the second. *)
Theorem joined_texts text1 text2 d1 d2 :
  parse upper text1 = Returned d1 ->
  parse upper text2 = Returned d2 ->
  exists d,
    parse upper (text1 ++ LF :: text2) = Returned d /\
    map fst d
    = map fst d1 ++ filter (fun k => negb (has_key d1 k)) (map fst d2) /\
    forall k,
      get d k = match get d1 k, get d2 k with
                | Some a, Some b => Some (a ++ b)
                | Some a, None => Some a
                | None, b => b
                end.
Proof.
  intros H1 H2.
  apply parse_returns in H1 as (objs1 & Ho1 & ->).
  apply parse_returns in H2 as (objs2 & Ho2 & ->).
  exists (grouped upper (objs1 ++ objs2) []). split; [|split].
  - assert (map sig (tokens (text1 ++ LF :: text2))
            = map sig (tokens text1 ++ tokens text2)) as Hsig.
    { destruct (spans_idfobjectlist_last Ho1) as (T0 & tl & E & Htl).
      destruct (@tokens_local T0 (lex text1) tl text2 E (or_intror Htl))
        as (r & l' & Hr & Heof).
      unfold tokens at 1. unfold lex at 1. cbn [lex lexdata lexer_lineno] in Hr.
      rewrite Hr, <- E, !map_app. f_equal.
      apply (@junction (length r) r l' text2 1 (le_n _) Heof). }
    pose proof (spans_idfobjectlist_app Ho1 Ho2) as Ho.
    destruct (walk_complete Ho) as (o & d0 & Hw & Hrev).
    rewrite <- (walk_sig _ _ AtStart [] Hsig) in Hw.
    rewrite parse_reads, (@read_walk upper _ _ _ _ _ Hw). cbn [read].
    rewrite Hrev, p_idffile_loop_grouped; [reflexivity|].
    apply spans_idfobjectlist_from in Ho. revert Ho. apply Forall_impl.
    now intros o' [Hne _].
  - rewrite grouped_app, keys_grouped. f_equal.
    now rewrite keys_grouped_all.
  - intros k. rewrite grouped_app, get_grouped, (get_grouped_all upper objs2).
    destruct (get (grouped upper objs1 []) k) as [os|];
      destruct (filter _ objs2) as [|m ms]; try reflexivity.
    now rewrite app_nil_r.
Qed.
End Joining.

(** The two Zone lines, a line feed, and the text with the types Zone,
    Building, zone. *)
Lemma joined_texts_witness :
  (parse upper_ascii zone_text = Returned zone_document /\
   parse upper_ascii building_text = Returned building_document) /\
  parse upper_ascii (zone_text ++ LF :: building_text)
  = Returned
      [(txt "ZONE", [[txt "Zone"; txt "LivingRoom"; txt "20"];
                     [txt "Zone"; txt "Kitchen"; txt "15"];
                     [txt "Zone"; txt "Bedroom"; txt "12"];
                     [txt "zone"; txt "Kitchen"; txt "15"]]);
       (txt "BUILDING", [[txt "Building"; txt "MyHouse"]])] /\
  exists d,
    parse upper_ascii (zone_text ++ LF :: building_text) = Returned d /\
    map fst d
    = map fst zone_document
        ++ filter (fun k => negb (has_key zone_document k))
                  (map fst building_document) /\
    forall k,
      get d k = match get zone_document k, get building_document k with
                | Some a, Some b => Some (a ++ b)
                | Some a, None => Some a
                | None, b => b
                end.
Proof.
  assert (parse upper_ascii zone_text = Returned zone_document) as H1
      by (vm_compute; reflexivity).
  assert (parse upper_ascii building_text = Returned building_document) as H2
      by (vm_compute; reflexivity).
  split; [now split|]. split; [vm_compute; reflexivity|].
  exact (@joined_texts upper_ascii zone_text building_text _ _ H1 H2).
Defined.
